(** * Frontier Alpha: the Python ML engine and the colour-migration script

    A shallow embedding of [ml/main.py] (the [optimize] and
    [analyze_sentiment] handlers) and of [scripts/migrate-colors.py]
    (the [migrate_content] rewriting pass), with the properties of the
    design document stated over them. *)

From Stdlib Require Import List String Ascii Bool Arith Lia ZArith NArith.
From Stdlib Require Import Permutation Sorted.
From Stdlib Require Import QArith Qround Qabs Lqa.
From Stdlib Require Import Floats.
From Stdlib Require Import DecimalString.
Close Scope Q_scope.
Import ListNotations.

Set Implicit Arguments.
Local Set Warnings "-inexact-float".

(** ** Python values shared by both programs *)

(** A raised Python exception: its class name and its message. *)
Record PyExc : Type := mkExc { exc_class : string; exc_msg : string }.

(** The outcome of a Python call: an exception or a value. *)
Inductive outcome (A : Type) : Type :=
| Raise (e : PyExc)
| Return (a : A).
Arguments Raise {A} e.
Arguments Return {A} a.

Definition fails_with {A} (o : outcome A) (cls : string) : Prop :=
  exists e, o = Raise e /\ exc_class e = cls.

Definition returns {A} (o : outcome A) : Prop := exists a, o = Return a.

(** * Part I: [ml/main.py] *)

Module ML.

(** [class OptimizeRequest(BaseModel)], after validation. *)
Record OptimizeRequest : Type := mkRequest {
  symbols : list string;
  returns_ : list (list float);
  objective : string;
  risk_free_rate : float
}.

(** The request body before the model fills in the defaults: the two
    fields declared with a default may be absent. *)
Record Payload : Type := mkPayload {
  p_symbols : list string;
  p_returns : list (list float);
  p_objective : option string;
  p_risk_free_rate : option float
}.

Definition default_objective : string := "max_sharpe".
Definition default_risk_free_rate : float := 0.05%float.

Definition parse (p : Payload) : OptimizeRequest :=
  {| symbols := p_symbols p;
     returns_ := p_returns p;
     objective := match p_objective p with Some o => o | None => default_objective end;
     risk_free_rate :=
       match p_risk_free_rate p with Some r => r | None => default_risk_free_rate end |}.

(** The part of pandas and PyPortfolioOpt that [optimize] calls.  The
    libraries are not part of the repository, so they are an interface:
    carriers for the objects handed around and one fallible function per
    call.  Methods of the [EfficientFrontier] object return the object's
    next state next to their result, since [max_sharpe] and
    [min_volatility] store the weights that [clean_weights] and
    [portfolio_performance] read back.  [max_sharpe] takes [None] when
    the caller passes no [risk_free_rate] keyword. *)
Record Library : Type := mkLibrary {
  frame : Type;
  series : Type;
  matrix : Type;
  frontier : Type;
  weights : Type;
  DataFrame_T : list (list float) -> list string -> outcome frame;
  mean_historical_return : frame -> outcome series;
  ledoit_wolf : frame -> outcome matrix;
  EfficientFrontier : series -> matrix -> outcome frontier;
  max_sharpe : frontier -> option float -> outcome (frontier * weights);
  min_volatility : frontier -> outcome (frontier * weights);
  clean_weights : frontier -> outcome (frontier * weights);
  portfolio_performance : frontier -> float -> outcome (frontier * (float * float * float))
}.

(** The library calls, as they appear in a run. *)
Inductive call : Type :=
| C_DataFrame (rows : list (list float)) (index : list string)
| C_mean_historical_return
| C_ledoit_wolf
| C_EfficientFrontier
| C_max_sharpe (rf : option float)
| C_min_volatility
| C_clean_weights
| C_portfolio_performance (rf : float).

(** The handler's response body. *)
Record Response (W : Type) : Type := mkResponse {
  r_weights : W;
  expected_return : float;
  volatility : float;
  sharpe_ratio : float
}.

(** A run: the calls made so far, then an exception or a value. *)
Definition run (A : Type) : Type := list call * outcome A.

Definition ret {A} (a : A) : run A := ([], Return a).

Definition bind {A B} (m : run A) (k : A -> run B) : run B :=
  match m with
  | (t, Raise e) => (t, Raise e)
  | (t, Return a) => let '(t', o) := k a in (t ++ t', o)
  end.

Definition invoke {A} (c : call) (o : outcome A) : run A := ([c], o).

Notation "x <- m ;; k" := (bind m (fun x => k))
  (at level 61, m at next level, right associativity).

Section Optimize.
Variable L : Library.

(** [async def optimize(request)]. *)
Definition optimize (request : OptimizeRequest) : run (Response (weights L)) :=
  df <- invoke (C_DataFrame (returns_ request) (symbols request))
               (DataFrame_T L (returns_ request) (symbols request)) ;;
  mu <- invoke C_mean_historical_return (mean_historical_return L df) ;;
  S <- invoke C_ledoit_wolf (ledoit_wolf L df) ;;
  ef <- invoke C_EfficientFrontier (EfficientFrontier L mu S) ;;
  ef1 <- (if String.eqb (objective request) "max_sharpe" then
            invoke (C_max_sharpe (Some (risk_free_rate request)))
                   (max_sharpe L ef (Some (risk_free_rate request)))
          else if String.eqb (objective request) "min_volatility" then
            invoke C_min_volatility (min_volatility L ef)
          else
            invoke (C_max_sharpe None) (max_sharpe L ef None)) ;;
  cl <- invoke C_clean_weights (clean_weights L (fst ef1)) ;;
  pf <- invoke (C_portfolio_performance (risk_free_rate request))
               (portfolio_performance L (fst cl) (risk_free_rate request)) ;;
  ret {| r_weights := snd cl;
         expected_return := fst (fst (snd pf));
         volatility := snd (fst (snd pf));
         sharpe_ratio := snd (snd pf) |}.

End Optimize.


(** A stand-in library for examples: every call succeeds, the solver
    hands out the weights [w] and the evaluation the triple [perf]. *)
Definition fixed_library (w : list (string * float)) (perf : float * float * float)
  : Library :=
  {| frame := unit; series := unit; matrix := unit; frontier := unit;
     weights := list (string * float);
     DataFrame_T := fun _ _ => Return tt;
     mean_historical_return := fun _ => Return tt;
     ledoit_wolf := fun _ => Return tt;
     EfficientFrontier := fun _ _ => Return tt;
     max_sharpe := fun _ _ => Return (tt, w);
     min_volatility := fun _ => Return (tt, w);
     clean_weights := fun _ => Return (tt, w);
     portfolio_performance := fun _ _ => Return (tt, perf) |}.

(** The same, except that the covariance estimator raises [e]. *)
Definition failing_library (e : PyExc) (w : list (string * float))
    (perf : float * float * float) : Library :=
  {| frame := unit; series := unit; matrix := unit; frontier := unit;
     weights := list (string * float);
     DataFrame_T := fun _ _ => Return tt;
     mean_historical_return := fun _ => Return tt;
     ledoit_wolf := fun _ => Raise e;
     EfficientFrontier := fun _ _ => Return tt;
     max_sharpe := fun _ _ => Return (tt, w);
     min_volatility := fun _ => Return (tt, w);
     clean_weights := fun _ => Return (tt, w);
     portfolio_performance := fun _ _ => Return (tt, perf) |}.

Definition is_finite (x : float) : bool :=
  negb (PrimFloat.is_nan x) && negb (PrimFloat.is_infinity x).

(** Sample inputs. *)
Definition sample_weights : list (string * float) := [("A"%string, 1.0%float)].

Definition sample_request (obj : string) : OptimizeRequest :=
  {| symbols := ["A"%string]; returns_ := [[0.01%float; 0.02%float]];
     objective := obj; risk_free_rate := 0.05%float |}.


(** The solver call the selector leads to. *)
Definition solve_call (request : OptimizeRequest) : call :=
  if String.eqb (objective request) "max_sharpe"
  then C_max_sharpe (Some (risk_free_rate request))
  else if String.eqb (objective request) "min_volatility" then C_min_volatility
  else C_max_sharpe None.

(** The calls of a run in which none raises. *)
Definition full_trace (request : OptimizeRequest) : list call :=
  [ C_DataFrame (returns_ request) (symbols request); C_mean_historical_return;
    C_ledoit_wolf; C_EfficientFrontier; solve_call request; C_clean_weights;
    C_portfolio_performance (risk_free_rate request) ].

(** The outcome of the solver call the selector leads to (lines 38 to
    43 of the handler). *)
Definition solve (L : Library) (request : OptimizeRequest) (ef : frontier L)
  : outcome (frontier L * weights L) :=
  if String.eqb (objective request) "max_sharpe"
  then max_sharpe L ef (Some (risk_free_rate request))
  else if String.eqb (objective request) "min_volatility" then min_volatility L ef
  else max_sharpe L ef None.

(** The first four calls of a run return: the frame [df], the
    estimates [mu] and [S], the frontier object [ef]. *)
Definition estimated (L : Library) (request : OptimizeRequest)
    (df : frame L) (mu : series L) (S : matrix L) (ef : frontier L) : Prop :=
  DataFrame_T L (returns_ request) (symbols request) = Return df /\
  mean_historical_return L df = Return mu /\
  ledoit_wolf L df = Return S /\
  EfficientFrontier L mu S = Return ef.

(** All seven calls of a run return. *)
Definition answered (L : Library) (request : OptimizeRequest)
    (df : frame L) (mu : series L) (S : matrix L) (ef : frontier L)
    (e1 cl : frontier L * weights L) (pf : frontier L * (float * float * float))
  : Prop :=
  estimated L request df mu S ef /\
  solve L request ef = Return e1 /\
  clean_weights L (fst e1) = Return cl /\
  portfolio_performance L (fst cl) (risk_free_rate request) = Return pf.

(** Call number [n] of a run (counted from 0) raises [e], the calls
    before it having returned. *)
Definition raised_at (L : Library) (request : OptimizeRequest) (n : nat) (e : PyExc)
  : Prop :=
  match n with
  | 0 => DataFrame_T L (returns_ request) (symbols request) = Raise e
  | 1 => exists df,
      DataFrame_T L (returns_ request) (symbols request) = Return df /\
      mean_historical_return L df = Raise e
  | 2 => exists df mu,
      DataFrame_T L (returns_ request) (symbols request) = Return df /\
      mean_historical_return L df = Return mu /\
      ledoit_wolf L df = Raise e
  | 3 => exists df mu S,
      DataFrame_T L (returns_ request) (symbols request) = Return df /\
      mean_historical_return L df = Return mu /\
      ledoit_wolf L df = Return S /\
      EfficientFrontier L mu S = Raise e
  | 4 => exists df mu S ef,
      estimated L request df mu S ef /\ solve L request ef = Raise e
  | 5 => exists df mu S ef e1,
      estimated L request df mu S ef /\ solve L request ef = Return e1 /\
      clean_weights L (fst e1) = Raise e
  | 6 => exists df mu S ef e1 cl,
      estimated L request df mu S ef /\ solve L request ef = Return e1 /\
      clean_weights L (fst e1) = Return cl /\
      portfolio_performance L (fst cl) (risk_free_rate request) = Raise e
  | _ => False
  end.

(** A stand-in library that reports what it was handed: the frontier
    object keeps the rate of the last [max_sharpe] call ([None] when no
    rate was passed or nothing was solved), [clean_weights] returns it
    in place of the weights, and the evaluation returns its own rate
    three times. *)
Definition echo_library : Library :=
  {| frame := unit; series := unit; matrix := unit;
     frontier := option float; weights := option float;
     DataFrame_T := fun _ _ => Return tt;
     mean_historical_return := fun _ => Return tt;
     ledoit_wolf := fun _ => Return tt;
     EfficientFrontier := fun _ _ => Return None;
     max_sharpe := fun _ rf => Return (rf, rf);
     min_volatility := fun _ => Return (None, None);
     clean_weights := fun ef => Return (ef, ef);
     portfolio_performance := fun ef rf => Return (ef, (rf, rf, rf)) |}.

(** A request the design accepts: distinct identifiers, one series per
    identifier, series of one length of at least two observations, a
    recognized selector. *)
Definition valid_input (request : OptimizeRequest) : Prop :=
  symbols request <> [] /\ NoDup (symbols request) /\
  List.length (returns_ request) = List.length (symbols request) /\
  (exists n, 2 <= n /\ Forall (fun row => List.length row = n) (returns_ request)) /\
  (objective request = "max_sharpe"%string \/
   objective request = "min_volatility"%string).

(** The sum of a weight mapping and the two checks of the design. *)
Definition weights_total (w : list (string * float)) : float :=
  fold_left (fun acc kv => (acc + snd kv)%float) w 0%float.

Definition sums_to_one (w : list (string * float)) : bool :=
  PrimFloat.leb (PrimFloat.abs (weights_total w - 1)%float) 1e-6%float.

Definition within_bounds (w : list (string * float)) : bool :=
  forallb (fun kv => PrimFloat.leb 0%float (snd kv) && PrimFloat.leb (snd kv) 1%float) w.

(** Weights rounded to five decimals whose sum is 1.00001. *)
Definition rounded_weights : list (string * float) :=
  [("A"%string, 0.2591%float); ("B"%string, 0.4746%float); ("C"%string, 0.26631%float)].

Definition three_assets : OptimizeRequest :=
  {| symbols := ["A"%string; "B"%string; "C"%string];
     returns_ := [[0.01%float; 0.02%float; 0.015%float];
                  [0.03%float; 0.01%float; 0.02%float];
                  [0.02%float; 0.025%float; 0.01%float]];
     objective := "max_sharpe"; risk_free_rate := 0.05%float |}.

(** ** Two calls of the handler

    To compare two calls, what a library call can read and change
    besides its arguments (the state of a random generator, a cache, a
    warm start of the solver) is made explicit: a state [world] that
    every call takes and hands back.  The module imports numpy, whose
    random generator is thereby in reach of the handler: [np_random]
    draws from it.  The handler keeps nothing between calls, reads
    nothing but the request and never draws, so it only threads the
    state from one library call to the next. *)
Module Stateful.

Record Library : Type := mkLibrary {
  world : Type;
  frame : Type;
  series : Type;
  matrix : Type;
  frontier : Type;
  weights : Type;
  DataFrame_T : list (list float) -> list string -> world -> outcome frame * world;
  mean_historical_return : frame -> world -> outcome series * world;
  ledoit_wolf : frame -> world -> outcome matrix * world;
  EfficientFrontier : series -> matrix -> world -> outcome frontier * world;
  max_sharpe : frontier -> option float -> world -> outcome (frontier * weights) * world;
  min_volatility : frontier -> world -> outcome (frontier * weights) * world;
  clean_weights : frontier -> world -> outcome (frontier * weights) * world;
  portfolio_performance :
    frontier -> float -> world -> outcome (frontier * (float * float * float)) * world;
  np_random : world -> float * world
}.

Definition step (W A B : Type) (m : W -> outcome A * W) (k : A -> W -> outcome B * W)
  : W -> outcome B * W :=
  fun w => match m w with
           | (Raise e, w') => (Raise e, w')
           | (Return a, w') => k a w'
           end.

Notation "x <-- m ;; k" := (step m (fun x => k))
  (at level 61, m at next level, right associativity).

(** [async def optimize(request)], from the state [w] of the process. *)
Definition optimize (L : Library) (request : OptimizeRequest)
  : world L -> outcome (Response (weights L)) * world L :=
  df <-- DataFrame_T L (returns_ request) (symbols request) ;;
  mu <-- mean_historical_return L df ;;
  S <-- ledoit_wolf L df ;;
  ef <-- EfficientFrontier L mu S ;;
  ef1 <-- (if String.eqb (objective request) "max_sharpe" then
             max_sharpe L ef (Some (risk_free_rate request))
           else if String.eqb (objective request) "min_volatility" then
             min_volatility L ef
           else
             max_sharpe L ef None) ;;
  cl <-- clean_weights L (fst ef1) ;;
  pf <-- portfolio_performance L (fst cl) (risk_free_rate request) ;;
  fun w => (Return {| r_weights := snd cl;
                      expected_return := fst (fst (snd pf));
                      volatility := snd (fst (snd pf));
                      sharpe_ratio := snd (snd pf) |}, w).


(** A library without a state of its own. *)
Definition stateless (L : ML.Library) : Library :=
  {| world := unit;
     DataFrame_T := fun rows idx w => (ML.DataFrame_T L rows idx, w);
     mean_historical_return := fun df w => (ML.mean_historical_return L df, w);
     ledoit_wolf := fun df w => (ML.ledoit_wolf L df, w);
     EfficientFrontier := fun mu S w => (ML.EfficientFrontier L mu S, w);
     max_sharpe := fun ef rf w => (ML.max_sharpe L ef rf, w);
     min_volatility := fun ef w => (ML.min_volatility L ef, w);
     clean_weights := fun ef w => (ML.clean_weights L ef, w);
     portfolio_performance := fun ef rf w => (ML.portfolio_performance L ef rf, w);
     np_random := fun w => (0.5%float, w) |}.


Definition drifting (perf : float * float * float) : Library :=
  {| world := nat; frame := unit; series := unit; matrix := unit; frontier := nat;
     weights := nat;
     DataFrame_T := fun _ _ n => (Return tt, S n);
     mean_historical_return := fun _ n => (Return tt, S n);
     ledoit_wolf := fun _ n => (Return tt, S n);
     EfficientFrontier := fun _ _ n => (Return 0, S n);
     max_sharpe := fun _ _ n => (Return (n, n), S n);
     min_volatility := fun _ n => (Return (n, n), S n);
     clean_weights := fun ef n => (Return (ef, ef), S n);
     portfolio_performance := fun ef _ n => (Return (ef, perf), S n);
     np_random := fun n => (if Nat.even n then 0.25%float else 0.75%float, S n) |}.

End Stateful.

(** [async def analyze_sentiment(texts)]. *)
Record Sentiment : Type := mkSentiment { label : string; confidence : float }.

Definition analyze_sentiment (texts : list string) : list Sentiment :=
  map (fun _ => {| label := "neutral"; confidence := 0.5%float |}) texts.

End ML.

(** * The weight cleaner of the design

    Modelled from the spec: the Weight Cleaner of section 4.3.  The
    repository has no cleaner of its own ([optimize] calls
    [ef.clean_weights()] of PyPortfolioOpt, which is not part of the
    sources), so the steps are those the design document lists, over
    exact fractions: weights below the zero-threshold become zero, the
    rest is renormalized to sum to 1, every value is rounded to the
    precision, and what rounding took from the sum goes to the largest
    weight.  The document leaves open how ties are rounded and which of
    several largest weights takes the rest; here a half rounds up and
    the first largest weight is taken. *)
Module Cleaner.
Local Open Scope Q_scope.

Definition total (w : list Q) : Q := fold_right Qplus 0 w.

Definition zero_small (threshold : Q) (w : list Q) : list Q :=
  map (fun x => if Qlt_le_dec x threshold then 0 else x) w.

Definition renormalize (w : list Q) : list Q :=
  let s := total w in map (fun x => x / s) w.

Definition scale (precision : nat) : Q := inject_Z (10 ^ Z.of_nat precision).

Definition round_to (precision : nat) (x : Q) : Q :=
  inject_Z (Qfloor (x * scale precision + (1 # 2))) / scale precision.

Fixpoint argmax_from (best : Q) (bi i : nat) (w : list Q) : nat :=
  match w with
  | [] => bi
  | x :: t =>
      if Qlt_le_dec best x then argmax_from x i (S i) t
      else argmax_from best bi (S i) t
  end.

Definition argmax (w : list Q) : nat :=
  match w with
  | [] => 0%nat
  | x :: t => argmax_from x 0 1 t
  end.

Fixpoint add_at (i : nat) (d : Q) (w : list Q) {struct w} : list Q :=
  match w with
  | [] => []
  | x :: t =>
      match i with
      | O => (x + d) :: t
      | S j => x :: add_at j d t
      end
  end.

Definition clean_weights (threshold : Q) (precision : nat) (w : list Q) : list Q :=
  let q := map (round_to precision) (renormalize (zero_small threshold w)) in
  add_at (argmax q) (1 - total q) q.

Definition default_threshold : Q := 1 # 10000.
Definition default_precision : nat := 4.
Definition tolerance : Q := 1 # 1000000.

(** [x] is a multiple of [10 ^ - precision]. *)
Definition at_precision (precision : nat) (x : Q) : Prop :=
  exists k : Z, x * scale precision == inject_Z k.

(** A weight vector (its sum is 1 within the tolerance) whose entries
    are not below the threshold and are at the precision. *)
Definition already_clean (threshold : Q) (precision : nat) (w : list Q) : Prop :=
  Forall (fun x => threshold <= x) w /\
  Forall (at_precision precision) w /\
  Qabs (total w - 1) <= tolerance.

(** A sample vector. *)
Definition sample_vector : list Q := [ 5 # 10; 3333 # 10000; 1667 # 10000 ].

End Cleaner.

(** * Part II: [scripts/migrate-colors.py] *)

Module Migrate.

(** Text is a list of characters, a character is a Unicode code
    point; string literals of the script are written with [lit], a
    single character of the script with [code]. *)
Definition char : Type := N.
Definition str : Type := list char.

Definition code (a : ascii) : char := N_of_ascii a.
Arguments code a%_char.

Definition lit (s : string) : str := map code (list_ascii_of_string s).

Definition str_eqb (a b : str) : bool :=
  if list_eq_dec N.eq_dec a b then true else false.

(** What [\d] matches and [int] reads is a decimal digit of the Unicode
    database of the interpreter.  Below code point 128 these are the
    ten digits [0] to [9] in every version of the database; for the
    code points from 128 on the database is left open: it gives the
    decimal value of a character that has one. *)
Class Unicode : Type := { unicode_decimal : char -> option N }.

(** ** Dictionaries, in insertion order *)

Definition dict : Type := list (str * str).

Fixpoint dict_get (k : str) (d : dict) : option str :=
  match d with
  | [] => None
  | (k', v) :: d' => if str_eqb k k' then Some v else dict_get k d'
  end.

Definition dict_keys (d : dict) : list str := map fst d.

Definition entry (k v : string) : str * str := (lit k, lit v).

Definition COLOR_SEMANTIC : dict :=
  [ entry "green" "positive"; entry "emerald" "positive"; entry "teal" "positive";
    entry "red" "negative"; entry "rose" "negative";
    entry "blue" "info"; entry "sky" "info"; entry "cyan" "info";
    entry "amber" "warning"; entry "yellow" "warning"; entry "orange" "warning";
    entry "purple" "accent"; entry "indigo" "accent"; entry "violet" "accent";
    entry "fuchsia" "accent"; entry "pink" "accent" ].

Definition COLOR_RGBA : dict :=
  [ entry "green" "16, 185, 129"; entry "emerald" "16, 185, 129";
    entry "teal" "20, 184, 166";
    entry "red" "239, 68, 68"; entry "rose" "244, 63, 94";
    entry "blue" "59, 130, 246"; entry "sky" "14, 165, 233"; entry "cyan" "6, 182, 212";
    entry "amber" "245, 158, 11"; entry "yellow" "234, 179, 8";
    entry "orange" "249, 115, 22";
    entry "purple" "123, 44, 255"; entry "indigo" "99, 102, 241";
    entry "violet" "139, 92, 246";
    entry "fuchsia" "217, 70, 239"; entry "pink" "236, 72, 153";
    entry "gray" "107, 114, 128"; entry "slate" "100, 116, 139" ].

(** [sorted(keys, key=len, reverse=True)]: a stable sort, longest first;
    keys of equal List.length keep their order. *)
Fixpoint insert_by_len (x : str) (l : list str) : list str :=
  match l with
  | [] => [x]
  | y :: t => if List.length y <? List.length x then x :: y :: t else y :: insert_by_len x t
  end.

Definition sorted_by_len_desc (l : list str) : list str :=
  fold_left (fun acc x => insert_by_len x acc) l [].

(** Longest first. *)
Definition longer_first (a b : str) : Prop := List.length b <= List.length a.

(** The alternations are kept as the list of their branches. *)
Definition ALL_COLORS : list str := sorted_by_len_desc (dict_keys COLOR_SEMANTIC).

Definition ALL_COLORS_PLUS_GRAY : list str :=
  sorted_by_len_desc
    (dict_keys (COLOR_SEMANTIC ++ [entry "gray" "text-muted"; entry "slate" "text-muted"])).

Definition get_semantic (color : str) : str :=
  match dict_get color COLOR_SEMANTIC with Some v => v | None => lit "info" end.

(** ** The regular expressions of the script and their matcher

    The fragment of [re] the script uses: literal text, [\d+], sequence,
    alternation, [?], capturing groups and a one-character negative
    lookahead.  [Null] has no match and closes an alternation chain. *)
Inductive regex : Type :=
| Null
| Lit (w : str)
| Digits
| Seq (r1 r2 : regex)
| Alt (r1 r2 : regex)
| Opt (r1 : regex)
| Group (n : nat) (r1 : regex)
| NotAhead (x : char).

Definition alternation (ws : list str) : regex :=
  fold_right (fun w r => Alt (Lit w) r) Null ws.

Definition obind {A B} (o : outcome A) (k : A -> outcome B) : outcome B :=
  match o with Raise e => Raise e | Return a => k a end.

Notation "x <~ m ;; k" := (obind m (fun x => k))
  (at level 61, m at next level, right associativity).

Section Interpreter.
Context {U : Unicode}.

Fixpoint strip (w s : str) : option str :=
  match w with
  | [] => Some s
  | a :: w' => match s with
               | b :: s' => if N.eqb a b then strip w' s' else None
               | [] => None
               end
  end.

Definition is_digit (a : char) : bool :=
  if (a <? 128)%N then (48 <=? a)%N && (a <=? 57)%N
  else match unicode_decimal a with Some _ => true | None => false end.

Fixpoint digit_run (s : str) : nat :=
  match s with
  | a :: t => if is_digit a then S (digit_run t) else 0
  | [] => 0
  end.

Definition at_char (x : char) (s : str) : bool :=
  match s with a :: _ => N.eqb a x | [] => false end.

(** Captured groups: the latest binding of a group number comes first. *)
Definition caps : Type := list (nat * str).

Fixpoint caps_get (n : nat) (c : caps) : option str :=
  match c with
  | [] => None
  | (k, v) :: c' => if Nat.eqb n k then Some v else caps_get n c'
  end.

Definition consumed (s s' : str) : str := firstn (List.length s - List.length s') s.

(** The ways [\d+] can match, the longest first. *)
Fixpoint digit_splits (m : nat) (s : str) (c : caps) : list (str * caps) :=
  match m with
  | 0 => []
  | S m' => (skipn m s, c) :: digit_splits m' s c
  end.

(** All the ways [r] matches at the start of [s], in the order a
    backtracking matcher tries them; each gives the text left over and
    the groups captured. *)
Fixpoint rmatch (r : regex) (s : str) (c : caps) : list (str * caps) :=
  match r with
  | Null => []
  | Lit w => match strip w s with Some s' => [(s', c)] | None => [] end
  | Digits => digit_splits (digit_run s) s c
  | Seq r1 r2 => flat_map (fun m => rmatch r2 (fst m) (snd m)) (rmatch r1 s c)
  | Alt r1 r2 => rmatch r1 s c ++ rmatch r2 s c
  | Opt r1 => rmatch r1 s c ++ [(s, c)]
  | Group n r1 =>
      map (fun m => (fst m, (n, consumed s (fst m)) :: snd m)) (rmatch r1 s c)
  | NotAhead x => if at_char x s then [] else [(s, c)]
  end.

(** The match object handed to a replacement function. *)
Record Match : Type := mkMatch { m_whole : str; m_caps : caps }.

Definition group (m : Match) (n : nat) : option str :=
  match n with
  | 0 => Some (m_whole m)
  | _ => caps_get n (m_caps m)
  end.

Definition match_of (s : str) (m : str * caps) : Match :=
  {| m_whole := consumed s (fst m); m_caps := snd m |}.

Definition match_len (s : str) (m : str * caps) : nat := List.length s - List.length (fst m).

(** [re.sub(pattern, repl, content)] with a function [repl]: the text is
    scanned from the left; at each position the first match is replaced
    and the scan resumes behind it.  An empty match is replaced too, and
    the same position is then tried for a match that is not empty.
    [skip] counts the characters of the current match still to pass. *)
Section ReSub.
Variable r : regex.
Variable repl : Match -> outcome str.

Fixpoint re_sub_from (s : str) (skip : nat) {struct s} : outcome str :=
  match s with
  | [] =>
      match skip with
      | S _ => Return []
      | 0 => match rmatch r [] [] with
             | m :: _ => repl (match_of [] m)
             | [] => Return []
             end
      end
  | a :: t =>
      match skip with
      | S k => re_sub_from t k
      | 0 =>
          match rmatch r s [] with
          | [] => x <~ re_sub_from t 0 ;; Return (a :: x)
          | m :: ms =>
              match match_len s m with
              | S k =>
                  out <~ repl (match_of s m) ;;
                  x <~ re_sub_from t k ;; Return (out ++ x)
              | 0 =>
                  out <~ repl (match_of s m) ;;
                  match find (fun m' => negb (match_len s m' =? 0)) ms with
                  | Some m' =>
                      out' <~ repl (match_of s m') ;;
                      x <~ re_sub_from t (match_len s m' - 1) ;;
                      Return (out ++ out' ++ x)
                  | None => x <~ re_sub_from t 0 ;; Return (out ++ a :: x)
                  end
              end
          end
      end
  end.

Definition re_sub (s : str) : outcome str := re_sub_from s 0.

End ReSub.

(** [re.findall(pattern, content)] for a pattern without groups: the
    texts of the matches, found the way [re.sub] finds them. *)
Fixpoint re_findall_from (r : regex) (s : str) (skip : nat) {struct s} : list str :=
  match s with
  | [] =>
      match skip with
      | S _ => []
      | 0 => match rmatch r [] [] with
             | m :: _ => [consumed [] (fst m)]
             | [] => []
             end
      end
  | a :: t =>
      match skip with
      | S k => re_findall_from r t k
      | 0 =>
          match rmatch r s [] with
          | [] => re_findall_from r t 0
          | m :: ms =>
              match match_len s m with
              | S k => consumed s (fst m) :: re_findall_from r t k
              | 0 =>
                  consumed s (fst m) ::
                  match find (fun m' => negb (match_len s m' =? 0)) ms with
                  | Some m' =>
                      consumed s (fst m') :: re_findall_from r t (match_len s m' - 1)
                  | None => re_findall_from r t 0
                  end
              end
          end
      end
  end.

Definition re_findall (r : regex) (s : str) : list str := re_findall_from r s 0.

(** A chain of [re.sub] steps, each fed the text the one before returned. *)
Fixpoint run_steps (l : list (regex * (Match -> outcome str))) (s : str)
  : outcome str :=
  match l with
  | [] => Return s
  | st :: l' => c <~ re_sub (fst st) (snd st) s ;; run_steps l' c
  end.

(** [content.replace(old, new)]. *)
Fixpoint str_replace_from (old new s : str) (skip : nat) {struct s} : str :=
  match s with
  | [] => match old with [] => new | _ => [] end
  | a :: t =>
      match skip with
      | S k => str_replace_from old new t k
      | 0 =>
          match old with
          | [] => new ++ a :: str_replace_from old new t 0
          | _ :: old' =>
              match strip old s with
              | Some _ => new ++ str_replace_from old new t (List.length old')
              | None => a :: str_replace_from old new t 0
              end
          end
      end
  end.

Definition str_replace (old new s : str) : str := str_replace_from old new s 0.

(** ** The Python runtime the replacement functions rely on

    [int(text)] on a group matched by [\d+], then [n / 100] and the
    text an f-string prints for the quotient.  Two things are left
    open: the interpreter's limit on the digits [int] accepts ([None]
    where there is none, as before Python 3.11; 4300 by default since,
    0 switches it off, and texts of up to 640 digits are never
    checked), and the decimal text of the float nearest to [n / 100].  True division of integers raises
    [OverflowError] when the quotient rounds to 2^1024 or more. *)
Section Script.
Variable int_max_str_digits : option nat.
Variable float_repr : N -> str.

Definition digit_val (a : char) : N :=
  if (a <? 128)%N then (a - 48)%N
  else match unicode_decimal a with Some d => d | None => 0%N end.

Definition int_of_digits (ds : str) : N :=
  fold_left (fun acc a => (10 * acc + digit_val a)%N) ds 0%N.

Definition nat_text (n : nat) : string := NilZero.string_of_uint (Nat.to_uint n).

Definition limit_message (k digits : nat) : string :=
  ("Exceeds the limit (" ++ nat_text k
   ++ " digits) for integer string conversion: value has " ++ nat_text digits
   ++ " digits; use sys.set_int_max_str_digits() to increase the limit")%string.

Definition too_many_digits (ds : str) : bool :=
  match int_max_str_digits with
  | Some k => (640 <? List.length ds) && (0 <? k) && (k <? List.length ds)
  | None => false
  end.

Definition py_int (g : option str) : outcome N :=
  match g with
  | None =>
      Raise (mkExc "TypeError"
        "int() argument must be a string, a bytes-like object or a real number, not 'NoneType'")
  | Some ds =>
      if too_many_digits ds
      then Raise (mkExc "ValueError"
                    (limit_message (match int_max_str_digits with Some k => k | None => 0 end)
                                   (List.length ds)))
      else Return (int_of_digits ds)
  end.

Definition div100_overflows (n : N) : bool :=
  (100 * (2 ^ 1024 - 2 ^ 970) <=? n)%N.

Definition div100_text (n : N) : outcome str :=
  if div100_overflows n
  then Raise (mkExc "OverflowError" "integer division result too large for a float")
  else Return (float_repr n).

(** ** The replacement functions *)

Definition truthy (v : option str) : option str :=
  match v with Some (a :: t) => Some (a :: t) | _ => None end.

Definition rgba_of (color : option str) : option str :=
  match color with Some c => truthy (dict_get c COLOR_RGBA) | None => None end.

Definition color_in (color : option str) (names : list str) : bool :=
  match color with Some c => existsb (str_eqb c) names | None => false end.

Definition semantic_of (color : option str) : str :=
  match color with Some c => get_semantic c | None => lit "info" end.

Definition or_empty (g : option str) : str :=
  match g with Some (a :: t) => a :: t | _ => [] end.

Definition replace_bg_opacity (m : Match) : outcome str :=
  let color := group m 1 in
  n <~ py_int (group m 3) ;;
  opacity <~ div100_text n ;;
  match rgba_of color with
  | Some rgba => Return (lit "bg-[rgba(" ++ rgba ++ lit "," ++ opacity ++ lit ")]")
  | None => Return (m_whole m)
  end.

Definition replace_border_opacity (m : Match) : outcome str :=
  let color := group m 1 in
  n <~ py_int (group m 3) ;;
  opacity <~ div100_text n ;;
  match rgba_of color with
  | Some rgba => Return (lit "border-[rgba(" ++ rgba ++ lit "," ++ opacity ++ lit ")]")
  | None => Return (m_whole m)
  end.

Definition replace_hover_bg_opacity (m : Match) : outcome str :=
  let color := group m 1 in
  n <~ py_int (group m 3) ;;
  opacity <~ div100_text n ;;
  match rgba_of color with
  | Some rgba => Return (lit "hover:bg-[rgba(" ++ rgba ++ lit "," ++ opacity ++ lit ")]")
  | None => Return (m_whole m)
  end.

Definition gray_names : list str := [lit "gray"; lit "slate"].

Definition replace_text (m : Match) : outcome str :=
  let prefix := or_empty (group m 1) in
  let color := group m 2 in
  if color_in color gray_names then
    shade <~ py_int (group m 3) ;;
    if (800 <=? shade)%N then Return (prefix ++ lit "text-[var(--color-text)]")
    else if (600 <=? shade)%N then Return (prefix ++ lit "text-[var(--color-text-secondary)]")
    else Return (prefix ++ lit "text-[var(--color-text-muted)]")
  else
    Return (prefix ++ lit "text-[var(--color-" ++ semantic_of color ++ lit ")]").

Definition replace_bg_solid (m : Match) : outcome str :=
  let prefix := or_empty (group m 1) in
  let color := group m 2 in
  shade <~ py_int (group m 3) ;;
  if color_in color gray_names then
    if (shade <=? 100)%N then Return (prefix ++ lit "bg-[var(--color-bg)]")
    else if (shade <=? 300)%N then Return (prefix ++ lit "bg-[var(--color-bg-secondary)]")
    else Return (prefix ++ lit "bg-[var(--color-bg-tertiary)]")
  else
    Return (prefix ++ lit "bg-[var(--color-" ++ semantic_of color ++ lit ")]").

Definition replace_border (m : Match) : outcome str :=
  let color := group m 1 in
  if color_in color gray_names then Return (lit "border-[var(--color-border)]")
  else Return (lit "border-[var(--color-" ++ semantic_of color ++ lit ")]").

Definition replace_ring (m : Match) : outcome str :=
  let prefix := or_empty (group m 1) in
  let color := group m 2 in
  let sem := if color_in color (dict_keys COLOR_SEMANTIC)
             then semantic_of color else lit "accent" in
  Return (prefix ++ lit "ring-[var(--color-" ++ sem ++ lit ")]").

(** ** The patterns *)

Definition colors : regex := alternation ALL_COLORS_PLUS_GRAY.

Definition slash : char := code "/".

(** [bg-(COLORS)-(\d+)/(\d+)] and its two siblings. *)
Definition opacity_pattern (kw : string) : regex :=
  Seq (Lit (lit kw)) (Seq (Group 1 colors) (Seq (Lit (lit "-"))
    (Seq (Group 2 Digits) (Seq (Lit (lit "/")) (Group 3 Digits))))).

Definition bg_opacity_re : regex := opacity_pattern "bg-".
Definition border_opacity_re : regex := opacity_pattern "border-".
Definition hover_bg_opacity_re : regex := opacity_pattern "hover:bg-".

(** [((?:a|b|c)?)?]. *)
Definition prefix_group (ps : list string) : regex :=
  Opt (Group 1 (Opt (alternation (map lit ps)))).

(** [((?:hover:|dark:|focus:)?)?text-(COLORS)-(\d+)]. *)
Definition text_re : regex :=
  Seq (prefix_group ["hover:"; "dark:"; "focus:"]%string)
    (Seq (Lit (lit "text-")) (Seq (Group 2 colors) (Seq (Lit (lit "-")) (Group 3 Digits)))).

(** [((?:hover:|dark:|active:|focus:)?)?bg-(COLORS)-(\d+)(?!/)]. *)
Definition bg_solid_re : regex :=
  Seq (prefix_group ["hover:"; "dark:"; "active:"; "focus:"]%string)
    (Seq (Lit (lit "bg-")) (Seq (Group 2 colors) (Seq (Lit (lit "-"))
      (Seq (Group 3 Digits) (NotAhead slash))))).

(** [border-(COLORS)-(\d+)(?!/)]. *)
Definition border_re : regex :=
  Seq (Lit (lit "border-")) (Seq (Group 1 colors) (Seq (Lit (lit "-"))
    (Seq (Group 2 Digits) (NotAhead slash)))).

(** [((?:focus:)?)?ring-(COLORS)-(\d+)]. *)
Definition ring_re : regex :=
  Seq (prefix_group ["focus:"]%string)
    (Seq (Lit (lit "ring-")) (Seq (Group 2 colors) (Seq (Lit (lit "-")) (Group 3 Digits)))).

Definition hex_map : dict :=
  [ entry "#e5e7eb" "var(--color-border)";
    entry "#d1d5db" "var(--color-border)";
    entry "#9ca3af" "var(--color-text-muted)";
    entry "#6b7280" "var(--color-text-muted)";
    entry "#4b5563" "var(--color-text-secondary)";
    entry "#374151" "var(--color-text)" ].

(** One turn of the loop [for hex_val, css_var in hex_map.items()]. *)
Definition hex_step (content : str) (kv : str * str) : str :=
  str_replace (fst kv) (snd kv) content.

Definition replace_hex (content : str) : str := fold_left hex_step hex_map content.

(** The seven [re.sub] steps of [migrate_content], in order. *)
Definition steps : list (regex * (Match -> outcome str)) :=
  [ (bg_opacity_re, replace_bg_opacity);
    (border_opacity_re, replace_border_opacity);
    (hover_bg_opacity_re, replace_hover_bg_opacity);
    (text_re, replace_text);
    (bg_solid_re, replace_bg_solid);
    (border_re, replace_border);
    (ring_re, replace_ring) ].

(** [def migrate_content(content)]. *)
Definition migrate_content (content : str) : outcome str :=
  c1 <~ re_sub bg_opacity_re replace_bg_opacity content ;;
  c2 <~ re_sub border_opacity_re replace_border_opacity c1 ;;
  c3 <~ re_sub hover_bg_opacity_re replace_hover_bg_opacity c2 ;;
  c4 <~ re_sub text_re replace_text c3 ;;
  c5 <~ re_sub bg_solid_re replace_bg_solid c4 ;;
  c6 <~ re_sub border_re replace_border c5 ;;
  c7 <~ re_sub ring_re replace_ring c6 ;;
  Return (replace_hex c7).

End Script.

(** [(?:text|bg|border|ring)-(?:COLORS)-\d+], the pattern of
    [count_remaining]; [ALL_COLORS_PLUS_GRAY.replace('|', '|')] is the
    alternation itself. *)
Definition remaining_re : regex :=
  Seq (alternation [lit "text"; lit "bg"; lit "border"; lit "ring"])
    (Seq (Lit (lit "-")) (Seq (alternation ALL_COLORS_PLUS_GRAY)
       (Seq (Lit (lit "-")) Digits))).

(** [def count_remaining(filepath)], on the content read from the file. *)
Definition count_remaining (content : str) : nat * list str :=
  let matches := re_findall remaining_re content in
  (List.length matches, matches).

(** ** The loop of [main] over the files

    The state [main] works on: the content of every file, the two
    counters, and the report lines printed for modified files, each by
    its fields (path, count, the first five remaining classes).  The
    list of paths is what the two [glob] calls returned.  An exception
    of [migrate_content] ends the loop and leaves the state as it is. *)
Record run_state : Type := mkState {
  fs : string -> str;
  modified : nat;
  total_files : nat;
  report : list (string * nat * list str)
}.

Definition write_file (f : string -> str) (filepath : string) (content : str)
  : string -> str :=
  fun q => if String.eqb q filepath then content else f q.

Section Main.
Variable int_max_str_digits : option nat.
Variable float_repr : N -> str.

Fixpoint migrate_files (files : list string) (st : run_state)
  : run_state * option PyExc :=
  match files with
  | [] => (st, None)
  | filepath :: rest =>
      let original := fs st filepath in
      match migrate_content int_max_str_digits float_repr original with
      | Raise e => (st, Some e)
      | Return content =>
          if str_eqb content original then
            migrate_files rest
              {| fs := fs st; modified := modified st;
                 total_files := total_files st + 1; report := report st |}
          else
            let fs' := write_file (fs st) filepath content in
            let cr := count_remaining (fs' filepath) in
            migrate_files rest
              {| fs := fs'; modified := modified st + 1;
                 total_files := total_files st + 1;
                 report := report st ++ [(filepath, fst cr, firstn 5 (snd cr))] |}
      end
  end.

End Main.

(** The text of [n / 100] while the quotient is short enough to be
    printed exactly: the integer part, a point, and the hundredths
    without a trailing zero ([0.5], [0.05], [1.0], [12.34]). *)
Definition digit_char (d : N) : char := (48 + d)%N.

Fixpoint decimal_digits (fuel : nat) (n : N) (acc : str) : str :=
  match fuel with
  | 0 => acc
  | S f =>
      let acc' := digit_char (n mod 10) :: acc in
      if (n / 10 =? 0)%N then acc' else decimal_digits f (n / 10)%N acc'
  end.

Definition decimal (n : N) : str := decimal_digits (S (N.to_nat (N.log2 n))) n [].

Definition short_repr (n : N) : str :=
  let q := (n / 100)%N in
  let t := ((n mod 100) / 10)%N in
  let u := (n mod 10)%N in
  decimal q ++ lit "." ++
  (if (u =? 0)%N then [digit_char t] else [digit_char t; digit_char u]).

(** ** Reading the matcher declaratively

    [lang r u s'] says that [r] can match the text [u] when [s'] follows
    it; only a lookahead consults [s']. *)
Fixpoint lang (r : regex) (u s' : str) : Prop :=
  match r with
  | Null => False
  | Lit w => u = w
  | Digits => u <> [] /\ Forall (fun a => is_digit a = true) u
  | Seq r1 r2 => exists u1 u2, u = u1 ++ u2 /\ lang r1 u1 (u2 ++ s') /\ lang r2 u2 s'
  | Alt r1 r2 => lang r1 u s' \/ lang r2 u s'
  | Opt r1 => lang r1 u s' \/ u = []
  | Group _ r1 => lang r1 u s'
  | NotAhead x => u = [] /\ at_char x s' = false
  end.

(** [hit r s]: the pattern matches at the start of [s]. *)
Definition hit (r : regex) (s : str) : bool :=
  match rmatch r s [] with [] => false | _ :: _ => true end.

Definition starts_with (w s : str) : bool :=
  match strip w s with Some _ => true | None => false end.

Definition suffix_of (t s : str) : Prop := exists p, s = p ++ t.

(** No position of [s] is the start of a match. *)
Definition quiet (h : str -> bool) (s : str) : Prop :=
  forall t, suffix_of t s -> h t = false.

(** Syntactic checks on a pattern. *)
Section Checks.
Variable P : char -> bool.

(** every character a match can consume satisfies [P]; [digits_too]
    says whether the decimal digits do *)
Variable digits_too : bool.

Fixpoint lits_in (r : regex) : bool :=
  match r with
  | Lit w => forallb P w
  | Digits => digits_too
  | Seq r1 r2 | Alt r1 r2 => lits_in r1 && lits_in r2
  | Opt r1 | Group _ r1 => lits_in r1
  | _ => true
  end.

(** each match is empty or starts with a character satisfying [P] *)
Fixpoint empty_or_starts (r : regex) : bool :=
  match r with
  | Lit (a :: _) => P a
  | Digits => false
  | Seq r1 r2 | Alt r1 r2 => empty_or_starts r1 && empty_or_starts r2
  | Opt r1 | Group _ r1 => empty_or_starts r1
  | _ => true
  end.

(** each match is not empty and starts with a character satisfying [P] *)
Fixpoint starts_in (r : regex) : bool :=
  match r with
  | Null => true
  | Lit (a :: _) => P a
  | Lit [] => false
  | Seq r1 r2 => starts_in r1 || (empty_or_starts r1 && starts_in r2)
  | Alt r1 r2 => starts_in r1 && starts_in r2
  | Group _ r1 => starts_in r1
  | Digits | Opt _ | NotAhead _ => false
  end.

(** each match contains a character satisfying [P] *)
Fixpoint has_char (r : regex) : bool :=
  match r with
  | Null => true
  | Lit w => existsb P w
  | Seq r1 r2 => has_char r1 || has_char r2
  | Alt r1 r2 => has_char r1 && has_char r2
  | Group _ r1 => has_char r1
  | _ => false
  end.

End Checks.

(** every match is empty *)
Fixpoint zero_width (r : regex) : bool :=
  match r with
  | Null | NotAhead _ => true
  | Lit [] => true
  | Seq r1 r2 => zero_width r1 && zero_width r2
  | Alt r1 r2 => zero_width r1 && zero_width r2
  | Group _ r1 | Opt r1 => zero_width r1
  | _ => false
  end.

(** each match ends with a digit *)
Fixpoint ends_digit (r : regex) : bool :=
  match r with
  | Null | Digits => true
  | Seq r1 r2 => ends_digit r2 || (zero_width r2 && ends_digit r1)
  | Alt r1 r2 => ends_digit r1 && ends_digit r2
  | Group _ r1 => ends_digit r1
  | _ => false
  end.

(** the only lookahead is on [x] *)
Fixpoint looks_only (x : char) (r : regex) : bool :=
  match r with
  | NotAhead y => N.eqb y x
  | Seq r1 r2 | Alt r1 r2 => looks_only x r1 && looks_only x r2
  | Opt r1 | Group _ r1 => looks_only x r1
  | _ => true
  end.

(** every match binds group [n] *)
Fixpoint binds (n : nat) (r : regex) : bool :=
  match r with
  | Null => true
  | Group k r1 => Nat.eqb n k || binds n r1
  | Seq r1 r2 => binds n r1 || binds n r2
  | Alt r1 r2 => binds n r1 && binds n r2
  | _ => false
  end.

(** group [n] occurs in the pattern *)
Fixpoint mentions (n : nat) (r : regex) : bool :=
  match r with
  | Group k r1 => Nat.eqb n k || mentions n r1
  | Seq r1 r2 | Alt r1 r2 => mentions n r1 || mentions n r2
  | Opt r1 => mentions n r1
  | _ => false
  end.

Definition is_lower (a : char) : bool := (97 <=? a)%N && (a <=? 122)%N.

Definition is_dash (a : char) : bool := N.eqb a (code "-").

(** the characters a pattern of the script can consume *)
Definition word_char (a : char) : bool :=
  is_lower a || is_digit a || is_dash a || N.eqb a (code ":") || N.eqb a (code "/").

(** A scan that replaces matches of at least one character: [f s] is the
    replacement and the number of further characters of the match, when
    there is a match at the start of [s]. *)
Fixpoint scan (f : str -> option (outcome str * nat)) (s : str) (skip : nat)
  {struct s} : outcome str :=
  match s with
  | [] => Return []
  | a :: t =>
      match skip with
      | S k => scan f t k
      | 0 =>
          match f s with
          | Some (o, k) => out <~ o ;; x <~ scan f t k ;; Return (out ++ x)
          | None => x <~ scan f t 0 ;; Return (a :: x)
          end
      end
  end.

Definition re_find (r : regex) (repl : Match -> outcome str) (s : str)
  : option (outcome str * nat) :=
  match rmatch r s [] with
  | m :: _ => Some (repl (match_of s m), match_len s m - 1)
  | [] => None
  end.

Definition lit_find (old new : str) (s : str) : option (outcome str * nat) :=
  if starts_with old s then Some (Return new, List.length old - 1) else None.

(** What a replacement of [M] by [R] must satisfy for a watched pattern
    [h] to stay without a match: a match that starts before [R] was
    there before [M] too, and none starts inside [R]. *)
Definition gap_ok (h : str -> bool) (M R : str) : Prop :=
  forall g rest rest0,
    g <> [] -> h (g ++ R ++ rest) = true -> h (g ++ M ++ rest0) = true.

Definition in_ok (h : str -> bool) (R : str) : Prop :=
  forall p r rest, R = p ++ r -> r <> [] -> h (r ++ rest) = false.

(** What a scan returns: its input, or an output whose first replacement
    stands where the first match was. *)
Definition scan_shape (h : str -> bool) (s s' : str) : Prop :=
  s' = s \/
  exists g M rest0 R rest, s = g ++ M ++ rest0 /\ s' = g ++ R ++ rest /\ gap_ok h M R.

(** Characters of the text a replacement starts with ([hover:bg-]). *)
Definition head_char (a : char) : bool :=
  is_lower a || is_dash a || N.eqb a (code ":").

(** Characters of the text printed for a quotient. *)
Definition float_char (a : char) : bool :=
  is_digit a || N.eqb a (code ".") || N.eqb a (code "e") || N.eqb a (code "+").

(** What the proofs use of a pattern of the script. *)
Definition good_pattern (r : regex) : bool :=
  lits_in word_char true r && ends_digit r && looks_only slash r &&
  starts_in is_lower r && has_char is_dash r.

(** No run of word characters in [R] holds both a dash and a digit. *)
Definition inert (R : str) : Prop :=
  forall p u q, R = p ++ u ++ q ->
    forallb word_char u = true -> existsb is_dash u = true ->
    existsb is_digit u = false.

(** A replacement of [M] by [R] in the shape the script produces: [R]
    opens with letters, dashes and colons up to a character no pattern
    consumes, closes with such a character, and is inert. *)
Definition block (M R : str) : Prop :=
  (exists a M', M = a :: M' /\ a <> slash) /\
  (exists h b R1, R = h ++ b :: R1 /\ forallb head_char h = true /\ word_char b = false) /\
  (exists R0 e, R = R0 ++ [e] /\ word_char e = false) /\
  inert R.

(** The same for a literal [w] watched while [R] is written. *)
Definition lit_block (w R : str) : bool :=
  match w, R with
  | a :: _, v :: _ =>
      negb (existsb (N.eqb v) w) && negb (existsb (N.eqb a) R)
  | _, _ => false
  end.

(** Every capturing group of [r] holds a text satisfying [Q]. *)
Fixpoint groups_in (Q : nat -> str -> Prop) (r : regex) : Prop :=
  match r with
  | Group n r1 => (forall u s', lang r1 u s' -> Q n u) /\ groups_in Q r1
  | Seq r1 r2 | Alt r1 r2 => groups_in Q r1 /\ groups_in Q r2
  | Opt r1 => groups_in Q r1
  | _ => True
  end.

(** A closed check of the block shape for the text after the prefix. *)
Fixpoint head_split (s : str) : bool :=
  match s with
  | [] => false
  | a :: t => if head_char a then head_split t else negb (word_char a)
  end.

Definition ends_closed (s : str) : bool :=
  match rev s with e :: _ => negb (word_char e) | [] => false end.

Definition block_tail_ok (t : str) : bool :=
  head_split t && ends_closed t && negb (existsb is_digit t).

(** The names [get_semantic] can return. *)
Definition semantic_names : list str :=
  [lit "positive"; lit "negative"; lit "info"; lit "warning"; lit "accent"].

(** Every replacement a [re.sub] step makes is a block. *)
Definition replaces_by_blocks (r : regex) (repl : Match -> outcome str) : Prop :=
  forall s R j, re_find r repl s = Some (Return R, j) -> block (firstn (S j) s) R.

(** A step whose pattern passes the checks and whose replacements are
    blocks. *)
Definition good_step (st : regex * (Match -> outcome str)) : Prop :=
  good_pattern (fst st) = true /\ replaces_by_blocks (fst st) (snd st).

(** The closed checks on the table of hex colours. *)
Definition hex_entry_ok (kv : str * str) : bool :=
  match fst kv with
  | a :: _ => negb (N.eqb a slash) && block_tail_ok (snd kv)
  | [] => false
  end.

Definition hex_pair_ok (w : str) (kv : str * str) : bool := lit_block w (snd kv).

(** The texts a solid-colour helper can write behind the prefix: the
    key word, then [[var(--color-NAME)]] for a name of the gray scale of
    the helper or a semantic name. *)
Definition var_tails (kw : string) (grays : list string) : list str :=
  map (fun name => lit kw ++ lit "[var(--color-" ++ name ++ lit ")]")
      (map lit grays ++ semantic_names).

Definition no_slash (a : char) : bool := negb (N.eqb a slash).

Definition is_hash (a : char) : bool := N.eqb (code "#") a.

(** The classes of the exceptions the helpers can raise. *)
Definition raised_class (int_max_str_digits : option nat) (e : PyExc) : Prop :=
  exc_class e = "OverflowError"%string \/
  (exc_class e = "ValueError"%string /\ int_max_str_digits <> None).

(** The last four [re.sub] steps of [migrate_content]. *)
Definition solid_steps (int_max_str_digits : option nat)
  : list (regex * (Match -> outcome str)) :=
  [ (text_re, replace_text int_max_str_digits);
    (bg_solid_re, replace_bg_solid int_max_str_digits);
    (border_re, replace_border);
    (ring_re, replace_ring) ].

Definition first_match (r : regex) (s : str) : str * caps :=
  hd ([], []) (rmatch r s []).

End Interpreter.

(** A table for examples: the Arabic-Indic digits (code points 1632 to
    1641) and the Devanagari digits (2406 to 2415). *)
Definition two_scripts : Unicode :=
  {| unicode_decimal := fun a =>
       if ((1632 <=? a) && (a <=? 1641))%N then Some (a - 1632)%N
       else if ((2406 <=? a) && (a <=? 2415))%N then Some (a - 2406)%N
       else None |}.

(** Sample inputs: a class list, an opacity of 321 digits, and classes
    whose numbers are written in Arabic-Indic digits (500 and 50). *)
Definition sample_classes : str :=
  lit "bg-red-500/50 hover:text-gray-700 border-blue-200 #374151 bg-sky-5/".

Definition long_opacity_text : str :=
  lit "bg-red-500/1" ++ repeat (code "0") 320.

(** A shade of 641 digits. *)
Definition long_shade_text : str := lit "text-gray-" ++ repeat (code "7") 641.

Definition arabic_indic_classes : str :=
  lit "text-red-" ++ [1637; 1632; 1632]%N ++ lit " bg-blue-" ++ [1637; 1632; 1632]%N
  ++ lit "/" ++ [1637; 1632]%N.

Definition sample_output : str :=
  lit ("bg-[rgba(239, 68, 68,0.5)] hover:text-[var(--color-text-secondary)] "
       ++ "border-[var(--color-info)] var(--color-text) bg-sky-5/").

Definition hover_sample : str := lit "hover:bg-red-500/50 border-gray-200/5".

Definition slash_free_sample : str := lit "hover:text-gray-700 ring-slate-300 bg-red-50".

Definition plain_sample : str := lit "flex rounded p4 w1/2".

Definition sample_fs : string -> str :=
  fun p => if String.eqb p "Card.tsx" then sample_classes
           else if String.eqb p "Page.tsx" then plain_sample else [].

Definition sample_files : list string := ["Card.tsx"; "Page.tsx"; "Card.tsx"]%string.

Definition sample_state : run_state :=
  {| fs := sample_fs; modified := 0; total_files := 0; report := [] |}.

End Migrate.

(** * Properties of [ml/main.py] *)

Module MLFacts.
Import ML.

Local Open Scope string_scope.

(** Case analysis on the next library call of a run. *)
Ltac next_call :=
  match goal with
  | |- context [match ?o with Raise _ => _ | Return _ => _ end] =>
      let E := fresh "E" in destruct o eqn:E; cbn [fst snd app] in *
  end.

Ltac run_optimize :=
  unfold optimize, bind, invoke, ret; cbn [fst snd app].

Lemma objective_dispatch (A : Type) (obj : string) (a b c : A) :
  obj <> "max_sharpe" -> obj <> "min_volatility" ->
  (if String.eqb obj "max_sharpe" then a
   else if String.eqb obj "min_volatility" then b else c) = c.
Proof.
  intros H1 H2.
  apply String.eqb_neq in H1. apply String.eqb_neq in H2.
  now rewrite H1, H2.
Qed.

(** ** The runs of [optimize], call by call *)

(** When all seven calls return, so does the handler, after exactly
    these calls, with the weights of [clean_weights] and the numbers of
    [portfolio_performance]. *)
Lemma optimize_answer (L : Library) (req : OptimizeRequest) df mu S ef e1 cl pf :
  answered L req df mu S ef e1 cl pf ->
  optimize L req =
    (full_trace req,
     Return {| r_weights := snd cl;
               expected_return := fst (fst (snd pf));
               volatility := snd (fst (snd pf));
               sharpe_ratio := snd (snd pf) |}).
Proof.
  intros [[Hdf [Hmu [HS Hef]]] [He1 [Hcl Hpf]]].
  unfold solve in He1. unfold full_trace, solve_call. run_optimize.
  rewrite Hdf, Hmu, HS, Hef. cbn [fst snd app].
  destruct (String.eqb (objective req) "max_sharpe");
    [ | destruct (String.eqb (objective req) "min_volatility")];
    rewrite He1; cbn [fst snd app]; rewrite Hcl, Hpf; reflexivity.
Qed.

(** The first call that raises ends the run with its exception. *)
Lemma optimize_failure (L : Library) (req : OptimizeRequest) (n : nat) (e : PyExc) :
  raised_at L req n e ->
  optimize L req = (firstn (S n) (full_trace req), Raise e).
Proof.
  unfold full_trace, solve_call.
  destruct n as [| [| [| [| [| [| [| n]]]]]]]; cbn [raised_at];
    [ | | | | | | | contradiction].
  - intros H. run_optimize. now rewrite H.
  - intros [df [H1 H]]. run_optimize. now rewrite H1, H.
  - intros [df [mu [H1 [H2 H]]]]. run_optimize. now rewrite H1, H2, H.
  - intros [df [mu [S [H1 [H2 [H3 H]]]]]]. run_optimize. now rewrite H1, H2, H3, H.
  - intros [df [mu [S [ef [[H1 [H2 [H3 H4]]] H]]]]]. unfold solve in H. run_optimize.
    rewrite H1, H2, H3, H4. cbn [fst snd app].
    destruct (String.eqb (objective req) "max_sharpe");
      [ | destruct (String.eqb (objective req) "min_volatility")];
      rewrite H; reflexivity.
  - intros [df [mu [S [ef [e1 [[H1 [H2 [H3 H4]]] [H5 H]]]]]]]. unfold solve in H5.
    run_optimize. rewrite H1, H2, H3, H4. cbn [fst snd app].
    destruct (String.eqb (objective req) "max_sharpe");
      [ | destruct (String.eqb (objective req) "min_volatility")];
      rewrite H5; cbn [fst snd app]; rewrite H; reflexivity.
  - intros [df [mu [S [ef [e1 [cl [[H1 [H2 [H3 H4]]] [H5 [H6 H]]]]]]]]].
    unfold solve in H5. run_optimize. rewrite H1, H2, H3, H4. cbn [fst snd app].
    destruct (String.eqb (objective req) "max_sharpe");
      [ | destruct (String.eqb (objective req) "min_volatility")];
      rewrite H5; cbn [fst snd app]; rewrite H6, H; reflexivity.
Qed.

(** Every run is of one of these two kinds. *)
Lemma optimize_cases (L : Library) (req : OptimizeRequest) :
  (exists df mu S ef e1 cl pf, answered L req df mu S ef e1 cl pf) \/
  (exists n e, raised_at L req n e).
Proof.
  destruct (DataFrame_T L (returns_ req) (symbols req)) as [e | df] eqn:H1;
    [right; exists 0, e; exact H1 | ].
  destruct (mean_historical_return L df) as [e | mu] eqn:H2;
    [right; exists 1, e, df; auto | ].
  destruct (ledoit_wolf L df) as [e | S] eqn:H3;
    [right; exists 2, e, df, mu; auto | ].
  destruct (EfficientFrontier L mu S) as [e | ef] eqn:H4;
    [right; exists 3, e, df, mu, S; auto | ].
  assert (He : estimated L req df mu S ef) by (unfold estimated; auto).
  destruct (solve L req ef) as [e | e1] eqn:H5;
    [right; exists 4, e, df, mu, S, ef; auto | ].
  destruct (clean_weights L (fst e1)) as [e | cl] eqn:H6;
    [right; exists 5, e, df, mu, S, ef, e1; auto | ].
  destruct (portfolio_performance L (fst cl) (risk_free_rate req)) as [e | pf] eqn:H7;
    [right; exists 6, e, df, mu, S, ef, e1, cl; auto | ].
  left. exists df, mu, S, ef, e1, cl, pf. unfold answered. auto.
Qed.

(** An exception of a run is the one a call of the run raised. *)
Lemma optimize_raise_origin (L : Library) (req : OptimizeRequest) (e : PyExc) :
  snd (optimize L req) = Raise e -> exists n, raised_at L req n e.
Proof.
  intros H.
  destruct (optimize_cases L req)
    as [[df [mu [S [ef [e1 [cl [pf Ha]]]]]]] | [n [e' Hr]]].
  - rewrite (@optimize_answer _ _ _ _ _ _ _ _ _ Ha) in H. discriminate.
  - rewrite (@optimize_failure _ _ _ _ Hr) in H. cbn in H.
    injection H as <-. now exists n.
Qed.

(** A response comes from seven calls that returned. *)
Lemma optimize_return_origin (L : Library) (req : OptimizeRequest) resp :
  snd (optimize L req) = Return resp ->
  exists df mu S ef e1 cl pf,
    answered L req df mu S ef e1 cl pf /\
    resp = {| r_weights := snd cl;
              expected_return := fst (fst (snd pf));
              volatility := snd (fst (snd pf));
              sharpe_ratio := snd (snd pf) |}.
Proof.
  intros H.
  destruct (optimize_cases L req)
    as [[df [mu [S [ef [e1 [cl [pf Ha]]]]]]] | [n [e' Hr]]].
  - rewrite (@optimize_answer _ _ _ _ _ _ _ _ _ Ha) in H. cbn in H. injection H as <-.
    exists df, mu, S, ef, e1, cl, pf. auto.
  - rewrite (@optimize_failure _ _ _ _ Hr) in H. discriminate.
Qed.

(** Once the frame, the estimates and the frontier object are there,
    the run ends as the solver call, [clean_weights] and
    [portfolio_performance] do, in this order. *)
Lemma optimize_outcome (L : Library) (req : OptimizeRequest) df mu S ef :
  estimated L req df mu S ef ->
  snd (optimize L req) =
    match solve L req ef with
    | Raise e => Raise e
    | Return e1 =>
        match clean_weights L (fst e1) with
        | Raise e => Raise e
        | Return cl =>
            match portfolio_performance L (fst cl) (risk_free_rate req) with
            | Raise e => Raise e
            | Return pf =>
                Return {| r_weights := snd cl;
                          expected_return := fst (fst (snd pf));
                          volatility := snd (fst (snd pf));
                          sharpe_ratio := snd (snd pf) |}
            end
        end
    end.
Proof.
  intros He.
  destruct (solve L req ef) as [e | e1] eqn:H5.
  { assert (R : raised_at L req 4 e) by (exists df, mu, S, ef; auto).
    now rewrite (@optimize_failure _ _ _ _ R). }
  destruct (clean_weights L (fst e1)) as [e | cl] eqn:H6.
  { assert (R : raised_at L req 5 e) by (exists df, mu, S, ef, e1; auto).
    now rewrite (@optimize_failure _ _ _ _ R). }
  destruct (portfolio_performance L (fst cl) (risk_free_rate req)) as [e | pf] eqn:H7.
  { assert (R : raised_at L req 6 e) by (exists df, mu, S, ef, e1, cl; auto).
    now rewrite (@optimize_failure _ _ _ _ R). }
  assert (A : answered L req df mu S ef e1 cl pf) by (unfold answered; auto).
  now rewrite (@optimize_answer _ _ _ _ _ _ _ _ _ A).
Qed.

Lemma solve_else (L : Library) (req : OptimizeRequest) (ef : frontier L) :
  objective req <> "max_sharpe" -> objective req <> "min_volatility" ->
  solve L req ef = max_sharpe L ef None.
Proof. intros H1 H2. unfold solve. now apply objective_dispatch. Qed.

(** C1, as stated, fails: with a library that solves, a request whose
    selector is outside the recognized set is answered, not rejected. *)
Lemma unrecognized_objective_is_answered :
  ~ (forall (L : Library) (req : OptimizeRequest),
        objective req <> "max_sharpe" -> objective req <> "min_volatility" ->
        fails_with (snd (optimize L req)) "InputValidationError").
Proof.
  intros H.
  destruct (H (fixed_library sample_weights (0.1, 0.2, 0.25)%float)
              (sample_request "momentum")) as [e [He _]];
    [discriminate | discriminate | ].
  vm_compute in He. discriminate.
Qed.

(** C1, amended: a selector outside the recognized set is not
    checked.  Once the frame, the estimates and the frontier object are
    there, the handler takes the [else] branch: the run ends as
    [max_sharpe] without a risk-free rate, [clean_weights] and
    [portfolio_performance] (handed the rate of the request) do, with
    the exception of the first of them that raises or, when all return,
    after the seven calls of the [else] branch with the weights and the
    three numbers the last two returned.  An exception of such a run is
    always the one a call of the run raised. *)
Theorem unrecognized_objective_falls_back :
  forall (L : Library) (req : OptimizeRequest),
    objective req <> "max_sharpe" -> objective req <> "min_volatility" ->
    (forall df mu S ef, estimated L req df mu S ef ->
       snd (optimize L req) =
         match max_sharpe L ef None with
         | Raise e => Raise e
         | Return e1 =>
             match clean_weights L (fst e1) with
             | Raise e => Raise e
             | Return cl =>
                 match portfolio_performance L (fst cl) (risk_free_rate req) with
                 | Raise e => Raise e
                 | Return pf =>
                     Return {| r_weights := snd cl;
                               expected_return := fst (fst (snd pf));
                               volatility := snd (fst (snd pf));
                               sharpe_ratio := snd (snd pf) |}
                 end
             end
         end) /\
    (forall resp, snd (optimize L req) = Return resp ->
       fst (optimize L req) =
         [C_DataFrame (returns_ req) (symbols req); C_mean_historical_return;
          C_ledoit_wolf; C_EfficientFrontier; C_max_sharpe None; C_clean_weights;
          C_portfolio_performance (risk_free_rate req)]) /\
    (forall e, snd (optimize L req) = Raise e -> exists n, raised_at L req n e).
Proof.
  intros L req H1 H2. split; [ | split; [ | apply optimize_raise_origin]].
  - intros df mu S ef He.
    rewrite (@optimize_outcome L req df mu S ef He).
    now rewrite (@solve_else L req ef H1 H2).
  - intros resp H.
    destruct (@optimize_return_origin _ _ _ H)
      as [df [mu [S [ef [e1 [cl [pf [Ha _]]]]]]]].
    rewrite (@optimize_answer _ _ _ _ _ _ _ _ _ Ha). unfold full_trace, solve_call.
    now rewrite (objective_dispatch _ _ _ H1 H2).
Qed.

Lemma unrecognized_objective_falls_back_witness :
  let L := fixed_library sample_weights (0.1, 0.2, 0.25)%float in
  let req := sample_request "momentum" in
  objective req <> "max_sharpe" /\ objective req <> "min_volatility" /\
  estimated L req tt tt tt tt /\
  snd (optimize L req) =
    Return {| r_weights := sample_weights; expected_return := 0.1%float;
              volatility := 0.2%float; sharpe_ratio := 0.25%float |}.
Proof.
  intros L req.
  assert (H1 : objective req <> "max_sharpe") by discriminate.
  assert (H2 : objective req <> "min_volatility") by discriminate.
  assert (He : estimated L req tt tt tt tt) by (repeat split).
  split; [exact H1 | split; [exact H2 | split; [exact He | ]]].
  destruct (@unrecognized_objective_falls_back L req H1 H2) as [H _].
  exact (H tt tt tt tt He).
Defined.




(** C3, as stated, fails: when the evaluation reports a volatility of
    zero and an infinite ratio, the handler returns both. *)
Lemma zero_volatility_is_returned :
  ~ (forall (L : Library) (req : OptimizeRequest) resp,
        snd (optimize L req) = Return resp ->
        PrimFloat.eqb (volatility resp) 0%float = false /\
        is_finite (sharpe_ratio resp) = true).
Proof.
  intros H.
  destruct (H (fixed_library sample_weights (0.05, 0, infinity)%float)
              (sample_request "max_sharpe") _ eq_refl) as [Hv _].
  vm_compute in Hv. discriminate.
Qed.

(** C3, amended: whenever the seven calls of a run return, the
    handler returns, and the three numbers of its response are those
    [portfolio_performance] returned when handed the rate of the
    request, whatever they are; an exception of a run is always the one
    a call of the run raised, so the handler raises none of its own. *)
Theorem performance_is_passed_on :
  forall (L : Library) (req : OptimizeRequest),
    (forall df mu S ef e1 cl pf,
        answered L req df mu S ef e1 cl pf ->
        exists resp,
          snd (optimize L req) = Return resp /\
          expected_return resp = fst (fst (snd pf)) /\
          volatility resp = snd (fst (snd pf)) /\
          sharpe_ratio resp = snd (snd pf)) /\
    (forall e, snd (optimize L req) = Raise e -> exists n, raised_at L req n e).
Proof.
  intros L req. split; [ | apply optimize_raise_origin].
  intros df mu S ef e1 cl pf Ha.
  rewrite (@optimize_answer _ _ _ _ _ _ _ _ _ Ha). eexists. split; [reflexivity | ]. cbn. auto.
Qed.

Lemma performance_is_passed_on_witness :
  let L := fixed_library sample_weights (0.05, 0, infinity)%float in
  let req := sample_request "min_volatility" in
  answered L req tt tt tt tt (tt, sample_weights) (tt, sample_weights)
           (tt, (0.05, 0, infinity)%float) /\
  exists resp,
    snd (optimize L req) = Return resp /\
    expected_return resp = 0.05%float /\
    volatility resp = 0%float /\
    sharpe_ratio resp = infinity.
Proof.
  intros L req.
  assert (Ha : answered L req tt tt tt tt (tt, sample_weights) (tt, sample_weights)
                        (tt, (0.05, 0, infinity)%float)) by (repeat split).
  split; [exact Ha | ].
  destruct (@performance_is_passed_on L req) as [H _].
  exact (H _ _ _ _ _ _ _ Ha).
Defined.

(** C4, as stated, fails: the request is one the design accepts, the
    cleaned weights the library hands out sum to 1.00001, and the
    handler returns them. *)
Lemma unnormalized_weights_are_returned :
  ~ (forall (L : Library) (read : weights L -> list (string * float))
            (req : OptimizeRequest) resp,
        valid_input req ->
        snd (optimize L req) = Return resp ->
        sums_to_one (read (r_weights resp)) = true /\
        within_bounds (read (r_weights resp)) = true).
Proof.
  intros H.
  assert (Hv : valid_input three_assets).
  { unfold valid_input, three_assets; cbn.
    split; [discriminate | ].
    split; [repeat constructor; cbn; intuition discriminate | ].
    split; [reflexivity | ].
    split; [exists 3; split; [lia | repeat constructor] | now left]. }
  destruct (H (fixed_library rounded_weights (0.1, 0.2, 0.25)%float) (fun w => w)
              three_assets _ Hv eq_refl) as [Hs _].
  vm_compute in Hs. discriminate.
Qed.

(** C4, amended: the weights of a response are the mapping
    [clean_weights] returned, as it is.  Whenever the seven calls of a
    run return, the handler returns that mapping, and a response never
    holds anything else: the handler neither sums nor bounds nor
    rescales the weights. *)
Theorem weights_are_passed_on :
  forall (L : Library) (req : OptimizeRequest),
    (forall df mu S ef e1 cl pf,
        answered L req df mu S ef e1 cl pf ->
        exists resp, snd (optimize L req) = Return resp /\ r_weights resp = snd cl) /\
    (forall resp,
        snd (optimize L req) = Return resp ->
        exists df mu S ef e1 cl pf,
          answered L req df mu S ef e1 cl pf /\ r_weights resp = snd cl).
Proof.
  intros L req. split.
  - intros df mu S ef e1 cl pf Ha.
    rewrite (@optimize_answer _ _ _ _ _ _ _ _ _ Ha). eexists. split; reflexivity.
  - intros resp H.
    destruct (@optimize_return_origin _ _ _ H)
      as [df [mu [S [ef [e1 [cl [pf [Ha ->]]]]]]]].
    exists df, mu, S, ef, e1, cl, pf. split; [exact Ha | reflexivity].
Qed.

Lemma weights_are_passed_on_witness :
  let L := fixed_library rounded_weights (0.1, 0.2, 0.25)%float in
  answered L three_assets tt tt tt tt (tt, rounded_weights) (tt, rounded_weights)
           (tt, (0.1, 0.2, 0.25)%float) /\
  exists resp,
    snd (optimize L three_assets) = Return resp /\ r_weights resp = rounded_weights.
Proof.
  intros L.
  assert (Ha : answered L three_assets tt tt tt tt (tt, rounded_weights)
                        (tt, rounded_weights) (tt, (0.1, 0.2, 0.25)%float))
    by (repeat split).
  split; [exact Ha | ].
  destruct (@weights_are_passed_on L three_assets) as [H _].
  exact (H _ _ _ _ _ _ _ Ha).
Defined.

(** ** Two calls from two states of the process *)


(** On a library without a state the two embeddings of the handler
    agree. *)
Lemma stateless_optimize (L : Library) (req : OptimizeRequest) :
  fst (Stateful.optimize (Stateful.stateless L) req tt) = snd (optimize L req).
Proof.
  unfold Stateful.optimize, Stateful.step. run_optimize. cbn.
  do 4 (next_call; [reflexivity | ]).
  destruct (String.eqb (objective req) "max_sharpe");
    [ | destruct (String.eqb (objective req) "min_volatility")];
    cbn [fst snd app];
    do 3 (next_call; [reflexivity | ]); reflexivity.
Qed.

(** Where a library call does let the state decide, two calls of the
    handler differ. *)
Example drifting_library_differs :
  let L := Stateful.drifting (0.1, 0.2, 0.25)%float in
  fst (Stateful.optimize L (sample_request "min_volatility") 0) <>
  fst (Stateful.optimize L (sample_request "min_volatility") 1).
Proof. vm_compute. discriminate. Qed.



(** C6, as stated, fails: under a selector that is not recognized the
    handler solves [max_sharpe] too, and that solve is not the one at
    0.05.  The stand-in library returns as weights the rate the solver
    was handed. *)
Lemma else_branch_solves_without_default_rate :
  ~ (forall (L : Library) (p : Payload) df mu S ef e1 cl pf,
        p_risk_free_rate p = None ->
        objective (parse p) <> "min_volatility" ->
        estimated L (parse p) df mu S ef ->
        max_sharpe L ef (Some 0.05%float) = Return e1 ->
        clean_weights L (fst e1) = Return cl ->
        portfolio_performance L (fst cl) 0.05%float = Return pf ->
        snd (optimize L (parse p)) =
          Return {| r_weights := snd cl;
                    expected_return := fst (fst (snd pf));
                    volatility := snd (fst (snd pf));
                    sharpe_ratio := snd (snd pf) |}).
Proof.
  intros H.
  specialize (H echo_library
                {| p_symbols := ["A"]; p_returns := [[0.01%float; 0.02%float]];
                   p_objective := Some "momentum"; p_risk_free_rate := None |}
                tt tt tt None (Some 0.05%float, Some 0.05%float)
                (Some 0.05%float, Some 0.05%float)
                (Some 0.05%float, (0.05, 0.05, 0.05)%float)).
  cbn in H.
  assert (E : forall A (a b : A), Return a = Return b -> a = b)
    by (intros A a b [=]; assumption).
  specialize (H eq_refl).
  assert (Hm : "momentum" <> "min_volatility") by discriminate.
  specialize (H Hm (conj eq_refl (conj eq_refl (conj eq_refl eq_refl)))
                eq_refl eq_refl eq_refl).
  apply E in H. apply (f_equal (@r_weights _)) in H. cbn in H. discriminate.
Qed.

(** C6, amended: a request that leaves the risk-free rate out is parsed
    with 0.05 and runs as the request that states 0.05.  Once the
    frame, the estimates and the frontier object are there, the solver
    call is [max_sharpe] at 0.05 when the selector is [max_sharpe] (as
    it is when the selector is left out too), [min_volatility] for that
    selector, and [max_sharpe] without a rate for any other selector;
    the run ends as that call, [clean_weights] and
    [portfolio_performance] at 0.05 do, with the exception of the first
    of them that raises or with the weights and the three numbers the
    last two returned. *)
Theorem default_risk_free_rate_used :
  forall (L : Library) (p : Payload),
    p_risk_free_rate p = None ->
    risk_free_rate (parse p) = 0.05%float /\
    optimize L (parse p) =
      optimize L (parse {| p_symbols := p_symbols p; p_returns := p_returns p;
                           p_objective := p_objective p;
                           p_risk_free_rate := Some 0.05%float |}) /\
    (p_objective p = None -> objective (parse p) = "max_sharpe") /\
    (forall df mu S ef,
        estimated L (parse p) df mu S ef ->
        snd (optimize L (parse p)) =
          match (if String.eqb (objective (parse p)) "max_sharpe"
                 then max_sharpe L ef (Some 0.05%float)
                 else if String.eqb (objective (parse p)) "min_volatility"
                      then min_volatility L ef
                      else max_sharpe L ef None) with
          | Raise e => Raise e
          | Return e1 =>
              match clean_weights L (fst e1) with
              | Raise e => Raise e
              | Return cl =>
                  match portfolio_performance L (fst cl) 0.05%float with
                  | Raise e => Raise e
                  | Return pf =>
                      Return {| r_weights := snd cl;
                                expected_return := fst (fst (snd pf));
                                volatility := snd (fst (snd pf));
                                sharpe_ratio := snd (snd pf) |}
                  end
              end
          end).
Proof.
  intros L p Hp.
  assert (Hrf : risk_free_rate (parse p) = 0.05%float)
    by (unfold parse; cbn; now rewrite Hp).
  split; [exact Hrf | ].
  split; [unfold parse; cbn; now rewrite Hp | ].
  split; [intros Ho; unfold parse; cbn; now rewrite Ho | ].
  intros df mu S ef He.
  rewrite (@optimize_outcome L (parse p) df mu S ef He).
  unfold solve. rewrite Hrf. reflexivity.
Qed.

Lemma default_risk_free_rate_used_witness :
  let p := {| p_symbols := ["A"]; p_returns := [[0.01%float; 0.02%float]];
              p_objective := None; p_risk_free_rate := None |} in
  p_risk_free_rate p = None /\
  risk_free_rate (parse p) = 0.05%float /\
  estimated echo_library (parse p) tt tt tt None /\
  snd (optimize echo_library (parse p)) =
    Return {| r_weights := Some 0.05%float; expected_return := 0.05%float;
              volatility := 0.05%float; sharpe_ratio := 0.05%float |}.
Proof.
  intros p.
  destruct (@default_risk_free_rate_used echo_library p eq_refl) as [H1 [_ [_ H3]]].
  assert (He : estimated echo_library (parse p) tt tt tt None) by (repeat split).
  split; [reflexivity | split; [exact H1 | split; [exact He | ]]].
  exact (H3 tt tt tt None He).
Defined.

(** C7: the sentiment handler answers with one entry per text, each the
    neutral placeholder with confidence 0.5, whatever the texts say. *)
Theorem sentiment_is_neutral_placeholder :
  forall texts : list string,
    List.length (analyze_sentiment texts) = List.length texts /\
    Forall (fun r => r = {| label := "neutral"; confidence := 0.5%float |})
           (analyze_sentiment texts).
Proof.
  intros texts. unfold analyze_sentiment. split.
  - apply length_map.
  - induction texts as [| t ts IH]; cbn; constructor; auto.
Qed.

End MLFacts.


(** * Properties of the weight cleaner *)

Module CleanerFacts.
Import Cleaner.
Local Open Scope Q_scope.

Unset Implicit Arguments.

Lemma scale_pos (p : nat) : 0 < scale p.
Proof.
  unfold scale. change 0 with (inject_Z 0). rewrite <- Zlt_Qlt.
  apply Z.pow_pos_nonneg; lia.
Qed.

Lemma scale_small (p : nat) : (p <= 5)%nat -> scale p * tolerance < 1.
Proof.
  intros Hp. unfold scale, tolerance.
  assert (H : (10 ^ Z.of_nat p <= 10 ^ 5)%Z) by (apply Z.pow_le_mono_r; lia).
  rewrite Zle_Qle in H. change (inject_Z (10 ^ 5)) with (100000 # 1) in H. lra.
Qed.

Lemma zero_small_above (t : Q) (w : list Q) :
  Forall (fun x => t <= x) w -> zero_small t w = w.
Proof.
  induction 1 as [| x w Hx _ IH]; cbn; [reflexivity | ].
  fold (zero_small t w). rewrite IH.
  destruct (Qlt_le_dec x t) as [Hlt | _]; [ | reflexivity].
  exfalso. apply (Qlt_not_le _ _ Hlt Hx).
Qed.

Lemma total_at_precision (p : nat) (w : list Q) :
  Forall (at_precision p) w -> at_precision p (total w).
Proof.
  induction 1 as [| x w [k Hk] _ [K HK]]; unfold total in *; cbn [fold_right].
  - exists 0%Z. change (inject_Z 0) with 0. ring.
  - exists (k + K)%Z. rewrite inject_Z_plus, <- Hk, <- HK. ring.
Qed.

Lemma inject_Z_small (z : Z) : Qabs (inject_Z z) < 1 -> z = 0%Z.
Proof.
  intros H. apply Qabs_Qlt_condition in H. destruct H as [H1 H2].
  change (- (1)) with (inject_Z (-1)) in H1. change 1 with (inject_Z 1) in H2.
  rewrite <- Zlt_Qlt in H1, H2. lia.
Qed.

(** A vector at the precision whose sum is within the tolerance of 1
    sums to 1. *)
Lemma total_is_one (p : nat) (w : list Q) :
  (p <= 5)%nat -> Forall (at_precision p) w ->
  Qabs (total w - 1) <= tolerance -> total w == 1.
Proof.
  intros Hp Hw Ht.
  destruct (total_at_precision p w Hw) as [K HK].
  pose proof (scale_pos p) as Hs. pose proof (scale_small p Hp) as Hsm.
  assert (HZ : (K - 10 ^ Z.of_nat p)%Z = 0%Z).
  { apply inject_Z_small. unfold Zminus. rewrite inject_Z_plus, inject_Z_opp.
    fold (scale p). rewrite <- HK.
    apply Qabs_Qle_condition in Ht. destruct Ht as [H1 H2].
    apply Qabs_Qlt_condition. unfold tolerance in *. split; nra. }
  assert (HK' : inject_Z K == scale p) by (unfold scale; f_equiv; lia).
  rewrite HK' in HK. nra.
Qed.

Lemma renormalize_one (w : list Q) :
  total w == 1 -> Forall2 Qeq (renormalize w) w.
Proof.
  intros H. unfold renormalize.
  generalize (total w) H. intros s Hs. clear H.
  induction w as [| x w IH]; cbn; constructor; auto.
  rewrite Hs. field.
Qed.

Lemma Qfloor_half (k : Z) (y : Q) : y == inject_Z k -> Qfloor (y + (1 # 2)) = k.
Proof.
  intros Hy.
  assert (E : y + (1 # 2) == inject_Z k + (1 # 2)) by (rewrite Hy; reflexivity).
  rewrite (Qfloor_comp _ _ E).
  pose proof (Qfloor_le (inject_Z k + (1 # 2))) as H1.
  pose proof (Qlt_floor (inject_Z k + (1 # 2))) as H2.
  rewrite inject_Z_plus in H2. change (inject_Z 1) with 1 in H2.
  assert (A : inject_Z (Qfloor (inject_Z k + (1 # 2))) < inject_Z (k + 1)).
  { rewrite inject_Z_plus. change (inject_Z 1) with 1. lra. }
  assert (B : inject_Z k < inject_Z (Qfloor (inject_Z k + (1 # 2)) + 1)).
  { rewrite inject_Z_plus. change (inject_Z 1) with 1. lra. }
  rewrite <- Zlt_Qlt in A, B. lia.
Qed.

Lemma round_to_at_precision (p : nat) (x y : Q) :
  at_precision p x -> y == x -> round_to p y == x.
Proof.
  intros [k Hk] Hy. unfold round_to.
  pose proof (scale_pos p) as Hs.
  assert (E : y * scale p == inject_Z k) by (rewrite Hy; exact Hk).
  rewrite (Qfloor_half k _ E). rewrite <- Hk. field. lra.
Qed.

Lemma rounded_clean (p : nat) (w v : list Q) :
  Forall (at_precision p) w -> Forall2 Qeq v w ->
  Forall2 Qeq (map (round_to p) v) w.
Proof.
  intros Hw H. induction H as [| y x v w Hyx _ IH]; cbn; constructor.
  - inversion Hw; subst. now apply round_to_at_precision.
  - inversion Hw; subst. auto.
Qed.

Lemma total_Forall2 (v w : list Q) : Forall2 Qeq v w -> total v == total w.
Proof.
  induction 1 as [| y x v w Hyx _ IH]; cbn; [reflexivity | ].
  now rewrite Hyx, IH.
Qed.

Lemma Forall2_Qeq_refl (w : list Q) : Forall2 Qeq w w.
Proof. induction w; constructor; auto. reflexivity. Qed.

Lemma add_at_zero (i : nat) (d : Q) (w : list Q) :
  d == 0 -> Forall2 Qeq (add_at i d w) w.
Proof.
  intros Hd. revert i. induction w as [| x w IH]; intros [| j]; cbn;
    constructor; auto using Forall2_Qeq_refl.
  - rewrite Hd. ring.
  - reflexivity.
Qed.

Lemma Forall2_Qeq_trans (u v w : list Q) :
  Forall2 Qeq u v -> Forall2 Qeq v w -> Forall2 Qeq u w.
Proof.
  intros H. revert w. induction H as [| a b u v Hab _ IH]; intros w Hw;
    inversion Hw; subst; constructor.
  - etransitivity; eauto.
  - auto.
Qed.

Lemma argmax_from_bound (w : list Q) :
  forall (best : Q) (bi i : nat),
    (bi < i)%nat -> (argmax_from best bi i w < i + List.length w)%nat.
Proof.
  induction w as [| x w IH]; intros best bi i Hb; cbn [argmax_from List.length].
  - lia.
  - destruct (Qlt_le_dec best x).
    + specialize (IH x i (S i)). lia.
    + specialize (IH best bi (S i)). lia.
Qed.

Lemma argmax_bound (w : list Q) : w <> [] -> (argmax w < List.length w)%nat.
Proof.
  destruct w as [| x w]; [congruence | intros _].
  unfold argmax. pose proof (argmax_from_bound w x 0 1). cbn [List.length]. lia.
Qed.

Lemma total_add_at (d : Q) (w : list Q) :
  forall i, (i < List.length w)%nat -> total (add_at i d w) == total w + d.
Proof.
  induction w as [| x w IH]; intros i Hi; cbn [List.length] in Hi; [lia | ].
  destruct i as [| j]; cbn [add_at]; unfold total in *; cbn [fold_right].
  - ring.
  - rewrite IH by lia. ring.
Qed.

(** A cleaned vector that is not empty sums to exactly 1. *)
Lemma clean_weights_total (t : Q) (p : nat) (w : list Q) :
  w <> [] -> total (clean_weights t p w) == 1.
Proof.
  intros Hw. unfold clean_weights.
  set (q := map (round_to p) (renormalize (zero_small t w))).
  assert (Hq : q <> []).
  { intros E. apply (f_equal (@List.length Q)) in E. unfold q, renormalize, zero_small in E.
    rewrite !length_map in E. destruct w; [congruence | discriminate]. }
  rewrite (total_add_at _ q _ (argmax_bound q Hq)). ring.
Qed.

(** Nothing is zeroed, rescaled or rounded away in a vector that sums
    to 1 and whose entries are not below the threshold and at the
    precision. *)
Lemma clean_weights_fixes (t : Q) (p : nat) (w : list Q) :
  Forall (fun x => t <= x) w -> Forall (at_precision p) w -> total w == 1 ->
  Forall2 Qeq (clean_weights t p w) w.
Proof.
  intros Ht Hw H1. unfold clean_weights.
  rewrite (zero_small_above t w Ht).
  pose proof (rounded_clean p w _ Hw (renormalize_one w H1)) as Hq.
  apply Forall2_Qeq_trans with (v := map (round_to p) (renormalize w)); [ | exact Hq].
  apply add_at_zero. rewrite (total_Forall2 _ _ Hq), H1. ring.
Qed.

(** C8, as stated, fails.  A vector whose entries are above the
    threshold and at the precision is renormalized when its sum is not
    1: at the defaults [0.5; 0.3] becomes [0.625; 0.375].  This is so
    even for a sum within the tolerance of the data model: at a
    precision of six decimals [0.500001; 0.5] becomes [0.5; 0.5]. *)
Lemma clean_vector_is_changed :
  ~ (forall (t : Q) (p : nat) (w : list Q),
        Forall (fun x => t < x) w -> Forall (at_precision p) w ->
        Forall2 Qeq (clean_weights t p w) w) /\
  ~ (forall (t : Q) (p : nat) (w : list Q),
        Forall (fun x => t < x) w -> Forall (at_precision p) w ->
        Qabs (total w - 1) <= tolerance ->
        Forall2 Qeq (clean_weights t p w) w).
Proof.
  split; intros H.
  - specialize (H default_threshold default_precision [5 # 10; 3 # 10]).
    assert (H1 : Forall (fun x => default_threshold < x) [5 # 10; 3 # 10])
      by (repeat constructor).
    assert (H2 : Forall (at_precision default_precision) [5 # 10; 3 # 10])
      by (repeat constructor; [exists 5000%Z | exists 3000%Z]; reflexivity).
    specialize (H H1 H2). vm_compute in H.
    inversion H as [| a b u v Hab _]; subst. vm_compute in Hab. discriminate.
  - specialize (H default_threshold 6%nat [500001 # 1000000; 1 # 2]).
    assert (H1 : Forall (fun x => default_threshold < x) [500001 # 1000000; 1 # 2])
      by (repeat constructor).
    assert (H2 : Forall (at_precision 6) [500001 # 1000000; 1 # 2])
      by (repeat constructor; [exists 500001%Z | exists 500000%Z]; reflexivity).
    assert (H3 : Qabs (total [500001 # 1000000; 1 # 2] - 1) <= tolerance)
      by (vm_compute; discriminate).
    specialize (H H1 H2 H3). vm_compute in H.
    inversion H as [| a b u v Hab _]; subst. vm_compute in Hab. discriminate.
Qed.

(** C8, amended: cleaning returns the same vector, entry by entry, for
    every vector whose entries are not below the threshold, are at the
    precision and sum to exactly 1, whatever the threshold and the
    precision; and a vector that is not empty and comes back unchanged
    sums to exactly 1. *)
Theorem clean_weights_idempotent (t : Q) (p : nat) (w : list Q) :
  Forall (fun x => t <= x) w -> Forall (at_precision p) w ->
  (total w == 1 -> Forall2 Qeq (clean_weights t p w) w) /\
  (w <> [] -> Forall2 Qeq (clean_weights t p w) w -> total w == 1).
Proof.
  intros Ht Hw. split.
  - now apply clean_weights_fixes.
  - intros Hne H. rewrite <- (total_Forall2 _ _ H).
    now apply clean_weights_total.
Qed.

Lemma clean_weights_idempotent_witness :
  Forall (fun x => default_threshold <= x) sample_vector /\
  Forall (at_precision default_precision) sample_vector /\
  total sample_vector == 1 /\
  Forall2 Qeq (clean_weights default_threshold default_precision sample_vector)
          sample_vector.
Proof.
  assert (H1 : Forall (fun x => default_threshold <= x) sample_vector)
    by (repeat constructor; discriminate).
  assert (H2 : Forall (at_precision default_precision) sample_vector)
    by (repeat constructor; [exists 5000%Z | exists 3333%Z | exists 1667%Z]; reflexivity).
  assert (H3 : total sample_vector == 1) by reflexivity.
  split; [exact H1 | split; [exact H2 | split; [exact H3 | ]]].
  destruct (clean_weights_idempotent default_threshold default_precision sample_vector
              H1 H2) as [H _].
  exact (H H3).
Defined.

(** Within the tolerance of the data model the sum of a vector at a
    precision of up to five decimals is exactly 1, so the vectors of the
    data model that are already clean come back unchanged. *)
Corollary clean_weights_fixes_clean_vectors (t : Q) (p : nat) (w : list Q) :
  (p <= 5)%nat -> already_clean t p w ->
  Forall2 Qeq (clean_weights t p w) w.
Proof.
  intros Hp (Ht & Hw & Hs).
  apply clean_weights_fixes; auto. exact (total_is_one p w Hp Hw Hs).
Qed.

End CleanerFacts.


(** * Further properties of [optimize] *)

Module MLExtras.
Import ML.
Local Open Scope string_scope.
Unset Implicit Arguments.

Ltac next_call :=
  match goal with
  | |- context [match ?o with Raise _ => _ | Return _ => _ end] =>
      let E := fresh "E" in destruct o eqn:E; cbn [fst snd app] in *
  end.

(** A run ends with the first library call that raises.  If call
    number [n] raises [e] after the calls before it returned, the run
    is the first [n + 1] calls of the fixed order and ends with [e];
    an exception of a run is always of that kind; and a response comes
    only after all seven calls returned. *)
Theorem optimize_stops_at_first_failure (L : Library) (req : OptimizeRequest) :
  (forall n e, raised_at L req n e ->
               optimize L req = (firstn (S n) (full_trace req), Raise e)) /\
  (forall e, snd (optimize L req) = Raise e ->
             exists n, n < 7 /\ raised_at L req n e) /\
  (forall resp, snd (optimize L req) = Return resp ->
                fst (optimize L req) = full_trace req /\
                exists df mu S ef e1 cl pf, answered L req df mu S ef e1 cl pf).
Proof.
  split; [intros n e; apply (@MLFacts.optimize_failure L req n e) | ].
  split.
  - intros e H. destruct (@MLFacts.optimize_raise_origin L req e H) as [n Hn].
    exists n. split; [ | exact Hn].
    destruct n as [| [| [| [| [| [| [| n]]]]]]]; try lia. contradiction.
  - intros resp H.
    destruct (@MLFacts.optimize_return_origin L req resp H)
      as [df [mu [S [ef [e1 [cl [pf [Ha _]]]]]]]].
    split; [ | exists df, mu, S, ef, e1, cl, pf; exact Ha].
    now rewrite (@MLFacts.optimize_answer L req df mu S ef e1 cl pf Ha).
Qed.

Lemma optimize_stops_at_first_failure_witness :
  let e := mkExc "ValueError" "not enough observations" in
  let L := failing_library e sample_weights (0.1, 0.2, 0.25)%float in
  let req := sample_request "max_sharpe" in
  raised_at L req 2 e /\
  optimize L req =
    ([C_DataFrame (returns_ req) (symbols req); C_mean_historical_return;
      C_ledoit_wolf], Raise e).
Proof.
  intros e L req.
  assert (H : raised_at L req 2 e) by (exists tt, tt; repeat split).
  split; [exact H | ].
  destruct (optimize_stops_at_first_failure L req) as [Hf _].
  exact (Hf 2 e H).
Defined.

(** Unless the selector is [max_sharpe], the risk-free rate of the
    request reaches the evaluation only: two requests that differ in
    nothing else get the same weights. *)
Theorem weights_ignore_rate (L : Library) (r1 r2 : OptimizeRequest)
        (resp1 resp2 : Response (weights L)) :
  symbols r1 = symbols r2 -> returns_ r1 = returns_ r2 ->
  objective r1 = objective r2 -> objective r1 <> "max_sharpe" ->
  snd (optimize L r1) = Return resp1 -> snd (optimize L r2) = Return resp2 ->
  r_weights resp1 = r_weights resp2.
Proof.
  destruct r1 as [s1 m1 o1 f1], r2 as [s2 m2 o2 f2]; cbn [symbols returns_ objective].
  intros -> -> -> Ho. apply String.eqb_neq in Ho.
  unfold optimize, bind, invoke, ret; cbn [fst snd app symbols returns_ objective risk_free_rate].
  rewrite Ho.
  do 4 (next_call; [intros; discriminate | ]).
  destruct (String.eqb o2 "min_volatility"); cbn [fst snd app];
    do 4 (next_call; [intros; discriminate | ]);
    intros [= <-] [= <-]; reflexivity.
Qed.

Lemma weights_ignore_rate_witness :
  let L := fixed_library sample_weights (0.1, 0.2, 0.25)%float in
  let r1 := sample_request "min_volatility" in
  let r2 := {| symbols := ["A"]; returns_ := [[0.01%float; 0.02%float]];
               objective := "min_volatility"; risk_free_rate := 0.5%float |} in
  exists resp1 resp2,
    snd (optimize L r1) = Return resp1 /\ snd (optimize L r2) = Return resp2 /\
    r_weights resp1 = r_weights resp2.
Proof.
  intros L r1 r2. eexists. eexists.
  split; [reflexivity | split; [reflexivity | ]].
  apply (weights_ignore_rate L r1 r2); try reflexivity. discriminate.
Defined.

End MLExtras.

(** * Properties of [scripts/migrate-colors.py] *)

Module MigrateFacts.
Import Migrate.

Unset Implicit Arguments.

#[local] Arguments match_len : simpl never.
#[local] Arguments match_of : simpl never.
#[local] Arguments consumed : simpl never.

(** What follows holds for every table of decimal digits. *)
Section WithUnicode.
Context {U : Unicode}.

(** ** The matcher against its declarative reading *)

Lemma strip_spec (w s s' : str) : strip w s = Some s' <-> s = w ++ s'.
Proof.
  revert s. induction w as [| a w IH]; intros s; cbn.
  - split; [intros [= ->]; reflexivity | intros ->; reflexivity].
  - destruct s as [| b s]; [split; discriminate | ].
    destruct (N.eqb_spec a b) as [-> | Hab].
    + rewrite IH. split; [intros ->; reflexivity | intros [= ->]; reflexivity].
    + split; [discriminate | intros [= E _]; congruence].
Qed.

Lemma strip_app (w s : str) : strip w (w ++ s) = Some s.
Proof. now apply strip_spec. Qed.

Lemma digit_run_le (s : str) : digit_run s <= List.length s.
Proof.
  induction s as [| a s IH]; cbn; [lia | ].
  destruct (is_digit a); lia.
Qed.

Lemma digit_run_firstn (s : str) (n : nat) :
  n <= digit_run s -> Forall (fun a => is_digit a = true) (firstn n s).
Proof.
  revert n. induction s as [| a s IH]; intros n Hn; cbn in *.
  - rewrite firstn_nil. constructor.
  - destruct n as [| n]; [constructor | ].
    destruct (is_digit a) eqn:Ha; [ | lia].
    cbn. constructor; [exact Ha | apply IH; lia].
Qed.

Lemma digit_run_app (u s : str) :
  Forall (fun a => is_digit a = true) u -> List.length u <= digit_run (u ++ s).
Proof.
  induction 1 as [| a u Ha _ IH]; cbn; [lia | ].
  rewrite Ha. lia.
Qed.

Lemma in_digit_splits (m : nat) (s : str) (c : caps) (x : str * caps) :
  In x (digit_splits m s c) <-> exists n, 1 <= n <= m /\ x = (skipn n s, c).
Proof.
  induction m as [| m IH]; cbn.
  - split; [tauto | intros [n [Hn _]]; lia].
  - rewrite IH. split.
    + intros [<- | [n [Hn ->]]]; [exists (S m) | exists n]; split; auto; lia.
    + intros [n [Hn ->]].
      destruct (Nat.eq_dec n (S m)) as [-> | Hne]; [now left | right].
      exists n. split; [lia | reflexivity].
Qed.

Lemma skipn_app_exact (u s : str) : skipn (List.length u) (u ++ s) = s.
Proof. induction u; cbn; auto. Qed.

Lemma firstn_app_exact (u s : str) : firstn (List.length u) (u ++ s) = u.
Proof. induction u; cbn; congruence. Qed.

Lemma consumed_app (u s : str) : consumed (u ++ s) s = u.
Proof.
  unfold consumed. rewrite length_app.
  replace (List.length u + List.length s - List.length s) with (List.length u) by lia.
  apply firstn_app_exact.
Qed.

Theorem rmatch_sound (r : regex) :
  forall s c s' c', In (s', c') (rmatch r s c) -> exists u, s = u ++ s' /\ lang r u s'.
Proof.
  induction r as [| w | | r1 IH1 r2 IH2 | r1 IH1 r2 IH2 | r1 IH1 | n r1 IH1 | x];
    intros s c s' c' Hin; cbn in Hin.
  - contradiction.
  - destruct (strip w s) as [t |] eqn:E; [ | contradiction].
    destruct Hin as [[= <- <-] | []].
    exists w. split; [now apply strip_spec | reflexivity].
  - apply in_digit_splits in Hin. destruct Hin as [n [Hn [= -> ->]]].
    exists (firstn n s). split; [symmetry; apply firstn_skipn | ].
    cbn. split.
    + pose proof (digit_run_le s).
      intros E. apply (f_equal (@List.length _)) in E.
      rewrite length_firstn in E. cbn in E. lia.
    + apply digit_run_firstn. lia.
  - apply in_flat_map in Hin. destruct Hin as [[s1 c1] [H1 H2]]. cbn in H2.
    apply IH1 in H1. apply IH2 in H2.
    destruct H1 as [u1 [-> L1]], H2 as [u2 [-> L2]].
    exists (u1 ++ u2). split; [now rewrite app_assoc | ].
    cbn. exists u1, u2. auto.
  - apply in_app_or in Hin. destruct Hin as [H | H].
    + apply IH1 in H. destruct H as [u [-> L]]. exists u. cbn. auto.
    + apply IH2 in H. destruct H as [u [-> L]]. exists u. cbn. auto.
  - apply in_app_or in Hin. destruct Hin as [H | [[= <- <-] | []]].
    + apply IH1 in H. destruct H as [u [-> L]]. exists u. cbn. auto.
    + exists []. cbn. auto.
  - apply in_map_iff in Hin. destruct Hin as [[s1 c1] [[= <- <-] H]].
    apply IH1 in H. exact H.
  - destruct (at_char x s) eqn:E; [contradiction | ].
    destruct Hin as [[= <- <-] | []]. exists []. cbn. auto.
Qed.

Theorem rmatch_complete (r : regex) :
  forall u s' c, lang r u s' -> exists c', In (s', c') (rmatch r (u ++ s') c).
Proof.
  induction r as [| w | | r1 IH1 r2 IH2 | r1 IH1 r2 IH2 | r1 IH1 | n r1 IH1 | x];
    intros u s' c L; cbn in L |- *.
  - contradiction.
  - subst u. rewrite strip_app. exists c. now left.
  - destruct L as [Hne Hd]. exists c. apply in_digit_splits.
    exists (List.length u). split.
    + split; [destruct u; [congruence | cbn; lia] | now apply digit_run_app].
    + now rewrite skipn_app_exact.
  - destruct L as [u1 [u2 [-> [L1 L2]]]].
    destruct (IH1 _ _ c L1) as [c1 H1]. destruct (IH2 _ _ c1 L2) as [c2 H2].
    exists c2. apply in_flat_map. exists (u2 ++ s', c1).
    rewrite <- app_assoc. split; [exact H1 | exact H2].
  - destruct L as [L | L].
    + destruct (IH1 _ _ c L) as [c' H]. exists c'. apply in_or_app. now left.
    + destruct (IH2 _ _ c L) as [c' H]. exists c'. apply in_or_app. now right.
  - destruct L as [L | ->].
    + destruct (IH1 _ _ c L) as [c' H]. exists c'. apply in_or_app. now left.
    + exists c. apply in_or_app. right. now left.
  - destruct (IH1 _ _ c L) as [c' H].
    eexists. apply in_map_iff. exists (s', c'). split; [reflexivity | exact H].
  - destruct L as [-> E]. cbn. rewrite E. exists c. now left.
Qed.

(** A position is hit exactly when some text at its start is in the
    language of the pattern. *)
Lemma hit_true (r : regex) (s : str) :
  hit r s = true <-> exists u s', s = u ++ s' /\ lang r u s'.
Proof.
  unfold hit. split.
  - destruct (rmatch r s []) as [| [s' c'] l] eqn:E; [discriminate | intros _].
    destruct (@rmatch_sound r s [] s' c') as [u [-> L]]; [rewrite E; now left | ].
    eauto.
  - intros [u [s' [-> L]]].
    destruct (rmatch_complete r u s' [] L) as [c' H].
    destruct (rmatch r (u ++ s') []); [contradiction | reflexivity].
Qed.


(** ** What the syntactic checks say about the matches *)

Lemma at_char_app (x : char) (u s t : str) :
  at_char x s = at_char x t -> at_char x (u ++ s) = at_char x (u ++ t).
Proof. destruct u; cbn; auto. Qed.

Lemma lang_look (x : char) (r : regex) :
  looks_only x r = true ->
  forall u s' t', lang r u s' -> at_char x s' = at_char x t' -> lang r u t'.
Proof.
  induction r as [| w | | r1 IH1 r2 IH2 | r1 IH1 r2 IH2 | r1 IH1 | n r1 IH1 | y];
    cbn; intros Hc u s' t' L E; auto.
  - apply andb_prop in Hc. destruct Hc as [H1 H2].
    destruct L as [u1 [u2 [-> [L1 L2]]]]. exists u1, u2.
    split; [reflexivity | split].
    + apply (IH1 H1 _ _ _ L1). now apply at_char_app.
    + apply (IH2 H2 _ _ _ L2 E).
  - apply andb_prop in Hc. destruct Hc as [H1 H2].
    destruct L as [L | L]; [left; eapply IH1 | right; eapply IH2]; eauto.
  - destruct L as [L | L]; [left; eapply IH1 | right]; eauto.
  - eapply IH1; eauto.
  - apply N.eqb_eq in Hc. subst y. destruct L as [-> L]. split; congruence.
Qed.

Lemma lang_lits (P : char -> bool) (digits_too : bool) (r : regex) :
  (digits_too = true -> forall a, is_digit a = true -> P a = true) ->
  lits_in P digits_too r = true ->
  forall u s', lang r u s' -> forallb P u = true.
Proof.
  intros HP.
  induction r as [| w | | r1 IH1 r2 IH2 | r1 IH1 r2 IH2 | r1 IH1 | n r1 IH1 | y];
    cbn; intros Hc u s' L.
  - contradiction.
  - now subst u.
  - destruct L as [_ Hd]. apply forallb_forall. intros a Ha.
    rewrite Forall_forall in Hd. apply (HP Hc). auto.
  - apply andb_prop in Hc. destruct Hc as [H1 H2].
    destruct L as [u1 [u2 [-> [L1 L2]]]]. rewrite forallb_app.
    rewrite (IH1 H1 _ _ L1), (IH2 H2 _ _ L2). reflexivity.
  - apply andb_prop in Hc. destruct Hc as [H1 H2].
    destruct L as [L | L]; [eapply IH1 | eapply IH2]; eauto.
  - destruct L as [L | ->]; [eapply IH1; eauto | reflexivity].
  - eapply IH1; eauto.
  - destruct L as [-> _]. reflexivity.
Qed.

Lemma lang_zero_width (r : regex) :
  zero_width r = true -> forall u s', lang r u s' -> u = [].
Proof.
  induction r as [| w | | r1 IH1 r2 IH2 | r1 IH1 r2 IH2 | r1 IH1 | n r1 IH1 | y];
    cbn; intros Hc u s' L; try discriminate.
  - contradiction.
  - destruct w; [assumption | discriminate].
  - apply andb_prop in Hc. destruct Hc as [H1 H2].
    destruct L as [u1 [u2 [-> [L1 L2]]]].
    now rewrite (IH1 H1 _ _ L1), (IH2 H2 _ _ L2).
  - apply andb_prop in Hc. destruct Hc as [H1 H2].
    destruct L as [L | L]; [eapply IH1 | eapply IH2]; eauto.
  - destruct L as [L | ->]; [eapply IH1; eauto | reflexivity].
  - eapply IH1; eauto.
  - now destruct L.
Qed.

Lemma lang_ends_digit (r : regex) :
  ends_digit r = true ->
  forall u s', lang r u s' -> exists u0 d, u = u0 ++ [d] /\ is_digit d = true.
Proof.
  induction r as [| w | | r1 IH1 r2 IH2 | r1 IH1 r2 IH2 | r1 IH1 | n r1 IH1 | y];
    cbn; intros Hc u s' L; try discriminate.
  - contradiction.
  - destruct L as [Hne Hd].
    destruct (exists_last Hne) as [u0 [d ->]]. exists u0, d. split; [reflexivity | ].
    rewrite Forall_forall in Hd. apply Hd. apply in_or_app. right. now left.
  - destruct L as [u1 [u2 [-> [L1 L2]]]].
    apply orb_prop in Hc. destruct Hc as [H2 | Hc].
    + destruct (IH2 H2 _ _ L2) as [u0 [d [-> Hd]]].
      exists (u1 ++ u0), d. split; [now rewrite app_assoc | exact Hd].
    + apply andb_prop in Hc. destruct Hc as [Hz H1].
      rewrite (lang_zero_width _ Hz _ _ L2) in *. rewrite app_nil_r.
      eapply IH1; eauto.
  - apply andb_prop in Hc. destruct Hc as [H1 H2].
    destruct L as [L | L]; [eapply IH1 | eapply IH2]; eauto.
  - eapply IH1; eauto.
Qed.

Lemma lang_empty_or_starts (P : char -> bool) (r : regex) :
  empty_or_starts P r = true ->
  forall u s', lang r u s' -> u = [] \/ exists a u', u = a :: u' /\ P a = true.
Proof.
  induction r as [| w | | r1 IH1 r2 IH2 | r1 IH1 r2 IH2 | r1 IH1 | n r1 IH1 | y];
    cbn; intros Hc u s' L; try discriminate.
  - contradiction.
  - subst u. destruct w as [| a w]; [now left | right; eauto].
  - apply andb_prop in Hc. destruct Hc as [H1 H2].
    destruct L as [u1 [u2 [-> [L1 L2]]]].
    destruct (IH1 H1 _ _ L1) as [-> | [a [u' [-> Ha]]]].
    + cbn. eapply IH2; eauto.
    + right. cbn. eauto.
  - apply andb_prop in Hc. destruct Hc as [H1 H2].
    destruct L as [L | L]; [eapply IH1 | eapply IH2]; eauto.
  - destruct L as [L | ->]; [eapply IH1; eauto | now left].
  - eapply IH1; eauto.
  - destruct L as [-> _]. now left.
Qed.

Lemma lang_starts (P : char -> bool) (r : regex) :
  starts_in P r = true ->
  forall u s', lang r u s' -> exists a u', u = a :: u' /\ P a = true.
Proof.
  induction r as [| w | | r1 IH1 r2 IH2 | r1 IH1 r2 IH2 | r1 IH1 | n r1 IH1 | y];
    cbn; intros Hc u s' L; try discriminate.
  - contradiction.
  - subst u. destruct w as [| a w]; [discriminate | eauto].
  - destruct L as [u1 [u2 [-> [L1 L2]]]].
    apply orb_prop in Hc. destruct Hc as [H1 | Hc].
    + destruct (IH1 H1 _ _ L1) as [a [u' [-> Ha]]]. cbn. eauto.
    + apply andb_prop in Hc. destruct Hc as [He H2].
      destruct (lang_empty_or_starts _ _ He _ _ L1) as [-> | [a [u' [-> Ha]]]].
      * cbn. eapply IH2; eauto.
      * cbn. eauto.
  - apply andb_prop in Hc. destruct Hc as [H1 H2].
    destruct L as [L | L]; [eapply IH1 | eapply IH2]; eauto.
  - eapply IH1; eauto.
Qed.

Lemma lang_has_char (P : char -> bool) (r : regex) :
  has_char P r = true ->
  forall u s', lang r u s' -> existsb P u = true.
Proof.
  induction r as [| w | | r1 IH1 r2 IH2 | r1 IH1 r2 IH2 | r1 IH1 | n r1 IH1 | y];
    cbn; intros Hc u s' L; try discriminate.
  - contradiction.
  - now subst u.
  - destruct L as [u1 [u2 [-> [L1 L2]]]]. rewrite existsb_app.
    apply orb_prop in Hc. apply orb_true_intro.
    destruct Hc as [H | H]; [left; eapply IH1 | right; eapply IH2]; eauto.
  - apply andb_prop in Hc. destruct Hc as [H1 H2].
    destruct L as [L | L]; [eapply IH1 | eapply IH2]; eauto.
  - eapply IH1; eauto.
Qed.


(** ** Scanning *)

Lemma suffix_of_refl (s : str) : suffix_of s s.
Proof. exists []. reflexivity. Qed.

Lemma suffix_of_cons (a : char) (t s : str) : suffix_of t s -> suffix_of t (a :: s).
Proof. intros [p ->]. exists (a :: p). reflexivity. Qed.

Lemma suffix_of_app (p t s : str) : suffix_of t s -> suffix_of t (p ++ s).
Proof. intros [q ->]. exists (p ++ q). now rewrite app_assoc. Qed.

Lemma suffix_of_nil (t : str) : suffix_of t [] -> t = [].
Proof. intros [p E]. symmetry in E. now apply app_eq_nil in E. Qed.

Lemma suffix_of_cons_inv (a : char) (t s : str) :
  suffix_of t (a :: s) -> t = a :: s \/ suffix_of t s.
Proof.
  intros [[| b p] E]; cbn in E.
  - now left.
  - injection E as _ ->. right. now exists p.
Qed.

Lemma suffix_of_app_inv (R x t : str) :
  suffix_of t (R ++ x) ->
  (exists p r, R = p ++ r /\ r <> [] /\ t = r ++ x) \/ suffix_of t x.
Proof.
  induction R as [| a R IH]; cbn; intros H.
  - now right.
  - apply suffix_of_cons_inv in H. destruct H as [-> | H].
    + left. exists [], (a :: R). split; [reflexivity | split; [discriminate | reflexivity]].
    + destruct (IH H) as [[p [r [-> [Hr ->]]]] | Hx]; [left | now right].
      exists (a :: p), r. auto.
Qed.

Section Scan.
Variable f : str -> option (outcome str * nat).

Hypothesis f_len : forall s o k, f s = Some (o, k) -> S k <= List.length s.

Lemma scan_skip (s : str) (k : nat) :
  k <= List.length s -> scan f s k = scan f (skipn k s) 0.
Proof.
  revert k. induction s as [| a t IH]; intros [| k] Hk; cbn in *; try reflexivity.
  apply IH. lia.
Qed.

(** Where nothing matches, the scan returns its input. *)
Lemma scan_fixed (s : str) :
  (forall t, suffix_of t s -> f t = None) -> scan f s 0 = Return s.
Proof.
  induction s as [| a t IH]; intros H; cbn; [reflexivity | ].
  rewrite (H _ (suffix_of_refl _)).
  rewrite IH; [reflexivity | ].
  intros u Hu. apply H. now apply suffix_of_cons.
Qed.

Variable h : str -> bool.
Hypothesis h_nil : h [] = false.
Hypothesis events :
  forall s R k, f s = Some (Return R, k) -> gap_ok h (firstn (S k) s) R /\ in_ok h R.

Lemma scan_quiet_shape (n : nat) :
  forall s s', List.length s <= n ->
    (forall t, suffix_of t s -> f t = None -> h t = false) ->
    scan f s 0 = Return s' ->
    quiet h s' /\ scan_shape h s s'.
Proof.
  induction n as [| n IH]; intros s s' Hn H E.
  - destruct s; [ | cbn in Hn; lia]. cbn in E. injection E as <-.
    split; [ | now left]. intros t Ht. apply suffix_of_nil in Ht. now subst.
  - destruct s as [| a t].
    { cbn in E. injection E as <-.
      split; [ | now left]. intros u Hu. apply suffix_of_nil in Hu. now subst. }
    cbn in Hn. cbn in E.
    destruct (f (a :: t)) as [[o k] |] eqn:Ef.
    + destruct o as [e | R]; [discriminate | ]. cbn in E.
      pose proof (f_len _ _ _ Ef) as Hk. cbn in Hk.
      rewrite scan_skip in E by lia.
      destruct (scan f (skipn k t) 0) as [e | x] eqn:Ex; [discriminate | ].
      cbn in E. injection E as <-.
      destruct (events _ _ _ Ef) as [Hg Hi].
      assert (Hsk : a :: t = firstn (S k) (a :: t) ++ skipn k t)
        by (cbn; now rewrite firstn_skipn).
      destruct (IH (skipn k t) x) as [Hq _].
      * rewrite length_skipn. lia.
      * intros u Hu. apply H. rewrite Hsk. now apply suffix_of_app.
      * exact Ex.
      * split.
        -- intros u Hu. apply suffix_of_app_inv in Hu.
           destruct Hu as [[p [r [-> [Hr ->]]]] | Hu]; [ | now apply Hq].
           now apply (Hi p r x).
        -- right. exists [], (firstn (S k) (a :: t)), (skipn k t), R, x.
           split; [exact Hsk | split; [reflexivity | exact Hg]].
    + destruct (scan f t 0) as [e | x] eqn:Ex; [discriminate | ].
      cbn in E. injection E as <-.
      destruct (IH t x) as [Hq Hs]; [lia | | exact Ex | ].
      { intros u Hu. apply H. now apply suffix_of_cons. }
      assert (Hhead : h (a :: t) = false) by (apply H; [apply suffix_of_refl | exact Ef]).
      destruct Hs as [-> | [g [M [rest0 [R [rest [-> [-> Hg]]]]]]]].
      * split; [ | now left].
        intros u Hu. apply suffix_of_cons_inv in Hu.
        destruct Hu as [-> | Hu]; [exact Hhead | now apply Hq].
      * split.
        -- intros u Hu. apply suffix_of_cons_inv in Hu.
           destruct Hu as [-> | Hu]; [ | now apply Hq].
           destruct (h (a :: g ++ R ++ rest)) eqn:Eh; [ | reflexivity].
           rewrite <- Hhead. symmetry.
           apply (Hg (a :: g) rest rest0); [discriminate | exact Eh].
        -- right. exists (a :: g), M, rest0, R, rest. auto.
Qed.

(** After the scan no position is the start of a match of the watched
    pattern, if before it none was at the positions the scan copies. *)
Theorem scan_quiet (s s' : str) :
  (forall t, suffix_of t s -> f t = None -> h t = false) ->
  scan f s 0 = Return s' -> quiet h s'.
Proof.
  intros H E. now destruct (@scan_quiet_shape (List.length s) s s' (le_n _) H E).
Qed.

End Scan.

(** [re.sub] and [str.replace] are such scans. *)
Lemma re_sub_as_scan (r : regex) (repl : Match -> outcome str) :
  (forall s m, In m (rmatch r s []) -> match_len s m <> 0) ->
  forall s k, re_sub_from r repl s k = scan (re_find r repl) s k.
Proof.
  intros Hne. induction s as [| a t IH]; intros k; cbn.
  - destruct k; [ | reflexivity].
    destruct (rmatch r [] []) as [| m ms] eqn:E; [reflexivity | ].
    exfalso. apply (Hne [] m); [rewrite E; now left | reflexivity].
  - destruct k as [| k]; [ | apply IH].
    unfold re_find.
    destruct (rmatch r (a :: t) []) as [| m ms] eqn:E.
    + now rewrite IH.
    + destruct (match_len (a :: t) m) as [| j] eqn:Ej.
      * exfalso. apply (Hne (a :: t) m); [rewrite E; now left | exact Ej].
      * replace (S j - 1) with j by lia.
        destruct (repl (match_of (a :: t) m)); cbn [obind];
          [reflexivity | now rewrite IH].
Qed.

Lemma str_replace_as_scan (old new : str) :
  old <> [] ->
  forall s k, Return (str_replace_from old new s k) = scan (lit_find old new) s k.
Proof.
  intros Hne. destruct old as [| o old]; [congruence | clear Hne].
  induction s as [| a t IH]; intros k; [reflexivity | ].
  destruct k as [| k]; [ | exact (IH k)].
  change (scan (lit_find (o :: old) new) (a :: t) 0)
    with (match lit_find (o :: old) new (a :: t) with
          | Some (o0, k) =>
              out <~ o0 ;; x <~ scan (lit_find (o :: old) new) t k ;; Return (out ++ x)
          | None => x <~ scan (lit_find (o :: old) new) t 0 ;; Return (a :: x)
          end).
  change (str_replace_from (o :: old) new (a :: t) 0)
    with (match strip (o :: old) (a :: t) with
          | Some _ => new ++ str_replace_from (o :: old) new t (List.length old)
          | None => a :: str_replace_from (o :: old) new t 0
          end).
  destruct (lit_find (o :: old) new (a :: t)) as [[o0 j] |] eqn:EF;
    unfold lit_find, starts_with in EF;
    destruct (strip (o :: old) (a :: t)); try discriminate.
  2: rewrite <- IH; reflexivity.
  assert (Ej : j = List.length old) by (injection EF as _ <-; cbn; lia).
  injection EF as <- _. subst j. rewrite <- IH. reflexivity.
Qed.


(** ** Replacement blocks *)

(** Facts on single characters reduce to comparisons of code points. *)
Ltac char_cases :=
  unfold head_char, word_char, float_char, no_slash, is_hash, is_lower, is_dash,
    is_digit, slash, code in *;
  cbn [N_of_ascii N_of_digits] in *;
  repeat match goal with
  | H : context [N.eqb ?a ?b] |- _ => destruct (N.eqb_spec a b)
  | |- context [N.eqb ?a ?b] => destruct (N.eqb_spec a b)
  | H : context [N.leb ?a ?b] |- _ => destruct (N.leb_spec a b)
  | |- context [N.leb ?a ?b] => destruct (N.leb_spec a b)
  | H : context [N.ltb ?a ?b] |- _ => destruct (N.ltb_spec a b)
  | |- context [N.ltb ?a ?b] => destruct (N.ltb_spec a b)
  end;
  cbn in *; try discriminate; try reflexivity; try lia.

Lemma word_char_digit (a : char) : is_digit a = true -> word_char a = true.
Proof.
  intros H. unfold word_char. rewrite H. now rewrite orb_true_r.
Qed.

Lemma head_char_not_digit (a : char) : head_char a = true -> is_digit a = false.
Proof. intros H. char_cases. Qed.

Lemma head_char_not_slash (a : char) : head_char a = true -> a <> slash.
Proof. intros H. char_cases. Qed.

Lemma is_lower_not_slash (a : char) : is_lower a = true -> a <> slash.
Proof. intros H. char_cases. Qed.

Lemma not_word_not_slash (a : char) : word_char a = false -> a <> slash.
Proof. intros H ->. vm_compute in H. discriminate. Qed.

Lemma float_char_not_dash (a : char) : float_char a = true -> is_dash a = false.
Proof. intros H. char_cases. Qed.

Lemma at_char_slash_false (a : char) (s : str) :
  a <> slash -> at_char slash (a :: s) = false.
Proof. intros H. cbn. now apply N.eqb_neq. Qed.

(** A text of [P]-characters that starts before a character outside [P]
    ends before it. *)
Lemma split_at_barrier (P : char -> bool) (b : char) :
  P b = false ->
  forall x y u s, x ++ b :: y = u ++ s -> forallb P u = true ->
    exists x2, x = u ++ x2 /\ s = x2 ++ b :: y.
Proof.
  intros Hb. induction x as [| a x IH]; intros y u s E Hu.
  - destruct u as [| c u]; cbn in *.
    + exists []. auto.
    + injection E as <- _. apply andb_prop in Hu. destruct Hu. congruence.
  - destruct u as [| c u]; cbn in *.
    + exists (a :: x). auto.
    + injection E as <- E. apply andb_prop in Hu. destruct Hu as [_ Hu].
      destruct (IH _ _ _ E Hu) as [x2 [-> ->]]. exists x2. auto.
Qed.

Lemma existsb_false_app (P : char -> bool) (p u q : str) :
  existsb P (p ++ u ++ q) = false -> existsb P u = false.
Proof.
  rewrite !existsb_app. intros H.
  apply orb_false_elim in H. destruct H as [_ H].
  apply orb_false_elim in H. tauto.
Qed.

Lemma inert_no_digit (R : str) : existsb is_digit R = false -> inert R.
Proof. intros H p u q -> _ _. eapply existsb_false_app; eauto. Qed.

Lemma inert_no_dash (R : str) : existsb is_dash R = false -> inert R.
Proof.
  intros H p u q -> _ Hd. apply existsb_false_app in H. congruence.
Qed.

Lemma inert_barrier (b : char) (x y : str) :
  word_char b = false -> inert x -> inert y -> inert (x ++ b :: y).
Proof.
  intros Hb Hx Hy p u q E Hw Hd.
  symmetry in E. apply app_eq_app in E.
  destruct E as [l [[-> E] | [-> E]]].
  - (* the run starts after the end of [x] *)
    destruct l as [| c l]; cbn in E.
    + destruct u as [| c u]; [discriminate | ].
      injection E as -> _. cbn in Hw. rewrite Hb in Hw. discriminate.
    + injection E as _ ->. eapply (Hy l); eauto.
  - (* the run starts inside [x] *)
    destruct (@split_at_barrier word_char b Hb _ _ _ _ (eq_sym E) Hw) as [x2 [-> _]].
    eapply (Hx p); eauto.
Qed.

Lemma good_pattern_spec (r : regex) :
  good_pattern r = true ->
  lits_in word_char true r = true /\ ends_digit r = true /\ looks_only slash r = true /\
  starts_in is_lower r = true /\ has_char is_dash r = true.
Proof.
  unfold good_pattern. intros H.
  repeat (apply andb_prop in H; destruct H as [H ?]). auto.
Qed.

Lemma hit_nil (r : regex) : good_pattern r = true -> hit r [] = false.
Proof.
  intros G. apply good_pattern_spec in G. destruct G as (_ & _ & _ & Hs & _).
  destruct (hit r []) eqn:E; [ | reflexivity].
  apply hit_true in E. destruct E as [u [s' [E L]]].
  destruct (lang_starts _ _ Hs _ _ L) as [a [u' [-> _]]]. discriminate.
Qed.

(** A text ending in a digit that starts in [g] and stays within
    [g ++ h], where [h] has no digit, ends in [g]. *)
Lemma ends_before_head (g h u x2 u0 : str) (d : char) :
  g ++ h = u ++ x2 -> u = u0 ++ [d] -> is_digit d = true ->
  forallb head_char h = true ->
  exists g2, g = u ++ g2 /\ x2 = g2 ++ h.
Proof.
  intros E -> Hd Hh.
  apply app_eq_app in E. destruct E as [l [[-> E] | [E ->]]].
  - exists l. auto.
  - destruct l as [| c l].
    + rewrite app_nil_r in E. subst g. exists []. now rewrite app_nil_r.
    + exfalso.
      assert (Hin : In d (c :: l)).
      { destruct (exists_last (l := c :: l)) as [l0 [z Ez]]; [discriminate | ].
        rewrite Ez in E. rewrite app_assoc in E.
        apply app_inj_tail in E. destruct E as [_ <-].
        rewrite Ez. apply in_or_app. right. now left. }
      rewrite forallb_forall in Hh.
      pose proof (Hh d (in_or_app _ _ _ (or_introl Hin))) as Hc.
      apply head_char_not_digit in Hc. congruence.
Qed.

Theorem block_gap_ok (r : regex) (M R : str) :
  good_pattern r = true -> block M R -> gap_ok (hit r) M R.
Proof.
  intros G [[a [M' [-> Ha]]] [[h [b [R1 [-> [Hh Hb]]]]] [_ _]]].
  apply good_pattern_spec in G. destruct G as (Hl & He & Hk & _ & _).
  intros g rest rest0 Hg Hhit.
  apply hit_true in Hhit. destruct Hhit as [u [s1 [E L]]].
  pose proof (lang_lits _ _ _ (fun _ => word_char_digit) Hl _ _ L) as Hw.
  destruct (lang_ends_digit _ He _ _ L) as [u0 [d [Eu Hd]]].
  replace (g ++ (h ++ b :: R1) ++ rest) with ((g ++ h) ++ b :: (R1 ++ rest)) in E
    by (rewrite <- !app_assoc; reflexivity).
  destruct (@split_at_barrier word_char b Hb _ _ _ _ E Hw) as [x2 [E2 ->]].
  destruct (@ends_before_head g h u x2 u0 d E2 Eu Hd Hh) as [g2 [-> ->]].
  apply hit_true. exists u, (g2 ++ (a :: M') ++ rest0).
  split; [now rewrite <- app_assoc | ].
  apply (lang_look _ _ Hk _ _ _ L).
  destruct g2 as [| c g2]; [ | reflexivity].
  cbn [app]. rewrite (at_char_slash_false a _ Ha).
  destruct h as [| c h]; cbn [app].
  - apply at_char_slash_false. now apply not_word_not_slash.
  - apply at_char_slash_false. apply head_char_not_slash.
    cbn in Hh. now apply andb_prop in Hh.
Qed.

Theorem block_in_ok (r : regex) (M R : str) :
  good_pattern r = true -> block M R -> in_ok (hit r) R.
Proof.
  intros G [_ [_ [[R0 [e [ER He]]] Hin]]].
  apply good_pattern_spec in G. destruct G as (Hl & Hd & _ & _ & Hdash).
  intros p r0 rest E Hr0.
  destruct (hit r (r0 ++ rest)) eqn:Hhit; [exfalso | reflexivity].
  apply hit_true in Hhit. destruct Hhit as [u [s1 [Eu L]]].
  pose proof (lang_lits _ _ _ (fun _ => word_char_digit) Hl _ _ L) as Hw.
  destruct (lang_ends_digit _ Hd _ _ L) as [u0 [d [Eu0 Hdig]]].
  pose proof (lang_has_char _ _ Hdash _ _ L) as Hhas.
  destruct (exists_last Hr0) as [r1 [z Ez]]. subst r0.
  assert (z = e /\ R0 = p ++ r1) as [-> ->].
  { rewrite E in ER. rewrite app_assoc in ER.
    apply app_inj_tail in ER. destruct ER; split; congruence. }
  rewrite <- app_assoc in Eu. cbn in Eu.
  destruct (@split_at_barrier word_char e He _ _ _ _ Eu Hw) as [x2 [-> _]].
  assert (Hnd : existsb is_digit u = false).
  { apply (Hin p u (x2 ++ [e])); auto.
    rewrite E. now rewrite <- !app_assoc. }
  rewrite Eu0, existsb_app in Hnd. cbn in Hnd. rewrite Hdig in Hnd.
  rewrite orb_true_r in Hnd. discriminate.
Qed.

(** The same for a watched literal. *)
Lemma starts_with_true (w s : str) :
  starts_with w s = true <-> exists s', s = w ++ s'.
Proof.
  unfold starts_with. split.
  - destruct (strip w s) as [s' |] eqn:E; [ | discriminate].
    intros _. exists s'. now apply strip_spec.
  - intros [s' ->]. now rewrite strip_app.
Qed.

Lemma existsb_eqb_false (v : char) (w : str) :
  existsb (N.eqb v) w = false ->
  forallb (fun a => negb (N.eqb a v)) w = true.
Proof.
  induction w as [| a w IH]; cbn; [reflexivity | ].
  intros H. apply orb_false_elim in H. destruct H as [H1 H2].
  rewrite N.eqb_sym, H1. cbn. auto.
Qed.

Theorem lit_block_gap_ok (w M R : str) :
  lit_block w R = true -> gap_ok (starts_with w) M R.
Proof.
  unfold lit_block. destruct w as [| a w]; [discriminate | ].
  destruct R as [| v R]; [discriminate | ].
  intros H. apply andb_prop in H. destruct H as [Hv _].
  apply negb_true_iff in Hv. apply existsb_eqb_false in Hv.
  intros g rest rest0 _ Hs.
  apply starts_with_true in Hs. destruct Hs as [s' E].
  apply starts_with_true.
  cbn [app] in E.
  assert (Hvv : negb (N.eqb v v) = false) by now rewrite N.eqb_refl.
  destruct (@split_at_barrier (fun c => negb (N.eqb c v)) v Hvv g (R ++ rest) (a :: w) s' E Hv)
    as [x2 [-> _]].
  exists (x2 ++ M ++ rest0). now rewrite <- app_assoc.
Qed.

Theorem lit_block_in_ok (w R : str) :
  lit_block w R = true -> in_ok (starts_with w) R.
Proof.
  unfold lit_block. destruct w as [| a w]; [discriminate | ].
  destruct R as [| v R]; [discriminate | ].
  intros H. apply andb_prop in H. destruct H as [_ Ha].
  apply negb_true_iff in Ha.
  intros p r0 rest E Hr0.
  destruct (starts_with (a :: w) (r0 ++ rest)) eqn:Hs; [exfalso | reflexivity].
  apply starts_with_true in Hs. destruct Hs as [s' Es].
  destruct r0 as [| c r0]; [congruence | ].
  cbn in Es. injection Es as -> _.
  assert (Hin : In a (v :: R)) by (rewrite E; apply in_or_app; right; now left).
  assert (Hex : existsb (N.eqb a) (v :: R) = true).
  { apply existsb_exists. exists a. split; [exact Hin | apply N.eqb_refl]. }
  congruence.
Qed.


(** ** Captured groups *)

Lemma caps_sound (Q : nat -> str -> Prop) (r : regex) :
  groups_in Q r ->
  forall s c s' c',
    (forall n v, caps_get n c = Some v -> Q n v) ->
    In (s', c') (rmatch r s c) ->
    forall n v, caps_get n c' = Some v -> Q n v.
Proof.
  induction r as [| w | | r1 IH1 r2 IH2 | r1 IH1 r2 IH2 | r1 IH1 | k r1 IH1 | x];
    cbn [groups_in rmatch]; intros G s c s' c' Hc Hin.
  - contradiction.
  - destruct (strip w s); [ | contradiction].
    destruct Hin as [[= <- <-] | []]. exact Hc.
  - apply in_digit_splits in Hin. destruct Hin as [n [_ [= _ ->]]]. exact Hc.
  - destruct G as [G1 G2].
    apply in_flat_map in Hin. destruct Hin as [[s1 c1] [H1 H2]]. cbn in H2.
    eapply IH2; [exact G2 | | exact H2]. eapply IH1; eauto.
  - destruct G as [G1 G2]. apply in_app_or in Hin.
    destruct Hin as [H | H]; [eapply IH1 | eapply IH2]; eauto.
  - apply in_app_or in Hin. destruct Hin as [H | [[= <- <-] | []]].
    + eapply IH1; eauto.
    + exact Hc.
  - destruct G as [GQ G1].
    apply in_map_iff in Hin. destruct Hin as [[s1 c1] [[= <- <-] H]].
    intros n v. cbn [caps_get fst snd].
    destruct (Nat.eqb_spec n k) as [-> | Hn].
    + intros [= <-].
      destruct (rmatch_sound _ _ _ _ _ H) as [u [-> L]].
      rewrite consumed_app. eapply GQ; eauto.
    + eapply IH1; eauto.
  - destruct (at_char x s); [contradiction | ].
    destruct Hin as [[= <- <-] | []]. exact Hc.
Qed.

Lemma caps_kept (n : nat) (r : regex) :
  forall s c s' c',
    In (s', c') (rmatch r s c) -> caps_get n c <> None -> caps_get n c' <> None.
Proof.
  induction r as [| w | | r1 IH1 r2 IH2 | r1 IH1 r2 IH2 | r1 IH1 | k r1 IH1 | x];
    cbn [rmatch]; intros s c s' c' Hin Hc.
  - contradiction.
  - destruct (strip w s); [ | contradiction].
    destruct Hin as [[= <- <-] | []]. exact Hc.
  - apply in_digit_splits in Hin. destruct Hin as [m [_ [= _ ->]]]. exact Hc.
  - apply in_flat_map in Hin. destruct Hin as [[s1 c1] [H1 H2]]. cbn in H2.
    eapply IH2; [exact H2 | ]. eapply IH1; eauto.
  - apply in_app_or in Hin.
    destruct Hin as [H | H]; [eapply IH1 | eapply IH2]; eauto.
  - apply in_app_or in Hin. destruct Hin as [H | [[= <- <-] | []]].
    + eapply IH1; eauto.
    + exact Hc.
  - apply in_map_iff in Hin. destruct Hin as [[s1 c1] [[= <- <-] H]].
    cbn [caps_get fst snd]. destruct (Nat.eqb n k); [discriminate | ].
    eapply IH1; eauto.
  - destruct (at_char x s); [contradiction | ].
    destruct Hin as [[= <- <-] | []]. exact Hc.
Qed.

Lemma caps_bound (n : nat) (r : regex) :
  binds n r = true ->
  forall s c s' c', In (s', c') (rmatch r s c) -> caps_get n c' <> None.
Proof.
  induction r as [| w | | r1 IH1 r2 IH2 | r1 IH1 r2 IH2 | r1 IH1 | k r1 IH1 | x];
    cbn [binds rmatch]; intros B s c s' c' Hin; try discriminate.
  - contradiction.
  - apply in_flat_map in Hin. destruct Hin as [[s1 c1] [H1 H2]]. cbn in H2.
    apply orb_prop in B. destruct B as [B | B].
    + eapply caps_kept; [exact H2 | ]. eapply IH1; eauto.
    + eapply IH2; eauto.
  - apply andb_prop in B. destruct B as [B1 B2]. apply in_app_or in Hin.
    destruct Hin as [H | H]; [eapply IH1 | eapply IH2]; eauto.
  - apply in_map_iff in Hin. destruct Hin as [[s1 c1] [[= <- <-] H]].
    cbn [caps_get fst snd]. destruct (Nat.eqb_spec n k) as [-> | Hn]; [discriminate | ].
    cbn [orb] in B. eapply IH1; eauto.
Qed.

Lemma lang_alternation (ws : list str) (u s' : str) :
  lang (alternation ws) u s' -> In u ws.
Proof.
  induction ws as [| w ws IH]; cbn; [tauto | ].
  intros [-> | H]; auto.
Qed.

Lemma groups_in_alternation (Q : nat -> str -> Prop) (ws : list str) :
  groups_in Q (alternation ws).
Proof. induction ws; cbn; auto. Qed.

(** ** Dictionaries *)

Lemma dict_get_in (k v : str) (d : dict) :
  dict_get k d = Some v -> In v (map snd d).
Proof.
  induction d as [| [k' v'] d IH]; cbn; [discriminate | ].
  destruct (str_eqb k k'); [intros [= ->]; now left | auto].
Qed.

Lemma semantic_of_names (color : option str) : In (semantic_of color) semantic_names.
Proof.
  assert (Hv : forall v, In v (map snd COLOR_SEMANTIC) -> In v semantic_names).
  { intros v. cbn. unfold entry, semantic_names. cbn. intuition auto. }
  unfold semantic_of, get_semantic.
  destruct color as [c |]; [ | cbn; auto].
  destruct (dict_get c COLOR_SEMANTIC) as [v |] eqn:E.
  - apply Hv. eapply dict_get_in; eauto.
  - cbn. auto.
Qed.

Lemma rgba_of_no_dash (color : option str) (rgba : str) :
  rgba_of color = Some rgba -> existsb is_dash rgba = false.
Proof.
  assert (Hv : forallb (fun v => negb (existsb is_dash v)) (map snd COLOR_RGBA) = true)
    by (vm_compute; reflexivity).
  rewrite forallb_forall in Hv.
  unfold rgba_of, truthy. intros H.
  destruct color as [c |]; [ | discriminate].
  destruct (dict_get c COLOR_RGBA) as [v |] eqn:E; [ | discriminate].
  destruct v as [| a v]; [discriminate | ]. injection H as <-.
  apply negb_true_iff. apply Hv. eapply dict_get_in; eauto.
Qed.

(** Every colour of the alternation has a base value in [COLOR_RGBA]. *)
Lemma rgba_of_color (c : str) :
  In c ALL_COLORS_PLUS_GRAY -> exists rgba, rgba_of (Some c) = Some rgba.
Proof.
  assert (H : forallb (fun c => match rgba_of (Some c) with
                               | Some _ => true | None => false end)
                      ALL_COLORS_PLUS_GRAY = true) by (vm_compute; reflexivity).
  rewrite forallb_forall in H. intros Hc. specialize (H c Hc).
  destruct (rgba_of (Some c)); [eauto | discriminate].
Qed.


(** ** The matches a scan replaces *)

Lemma good_nonempty (r : regex) :
  good_pattern r = true ->
  forall s m, In m (rmatch r s []) -> match_len s m <> 0.
Proof.
  intros G s [s' c'] Hin. apply good_pattern_spec in G.
  destruct G as (_ & _ & _ & Hs & _).
  destruct (rmatch_sound _ _ _ _ _ Hin) as [u [-> L]].
  destruct (lang_starts _ _ Hs _ _ L) as [a [u' [-> _]]].
  unfold match_len. cbn [fst]. rewrite length_app. cbn [List.length]. lia.
Qed.

Lemma consumed_app_match (u s' : str) (c' : caps) :
  match_of (u ++ s') (s', c') = {| m_whole := u; m_caps := c' |}.
Proof. unfold match_of. cbn [fst snd]. now rewrite consumed_app. Qed.

Lemma re_find_inv (r : regex) (repl : Match -> outcome str) (s : str)
      (o : outcome str) (j : nat) :
  good_pattern r = true ->
  re_find r repl s = Some (o, j) ->
  exists s' c' u,
    In (s', c') (rmatch r s []) /\ s = u ++ s' /\ lang r u s' /\
    S j = List.length u /\
    firstn (S j) s = u /\ o = repl {| m_whole := u; m_caps := c' |} /\
    exists a u', u = a :: u' /\ a <> slash.
Proof.
  intros G. unfold re_find.
  destruct (rmatch r s []) as [| [s' c'] ms] eqn:E; [discriminate | ].
  intros [= <- <-].
  assert (Hin : In (s', c') (rmatch r s [])) by (rewrite E; now left).
  destruct (rmatch_sound _ _ _ _ _ Hin) as [u [-> L]].
  apply good_pattern_spec in G. destruct G as (_ & _ & _ & Hs & _).
  destruct (lang_starts _ _ Hs _ _ L) as [a [u' [Eu Ha]]].
  assert (Hj : S (match_len (u ++ s') (s', c') - 1) = List.length u).
  { unfold match_len. cbn [fst]. rewrite length_app.
    subst u; cbn [List.length]; lia. }
  exists s', c', u. repeat split; auto.
  - now left.
  - rewrite Hj. apply firstn_app_exact.
  - unfold match_of. cbn [fst snd]. now rewrite consumed_app.
  - exists a, u'. split; [exact Eu | now apply is_lower_not_slash].
Qed.

Lemma re_find_len (r : regex) (repl : Match -> outcome str) :
  good_pattern r = true ->
  forall s o k, re_find r repl s = Some (o, k) -> S k <= List.length s.
Proof.
  intros G s o k H.
  destruct (re_find_inv _ _ _ _ _ G H) as (s' & c' & u & _ & -> & _ & Hj & _).
  rewrite length_app. lia.
Qed.

Lemma re_find_none (r : regex) (repl : Match -> outcome str) (s : str) :
  re_find r repl s = None <-> hit r s = false.
Proof.
  unfold re_find, hit. destruct (rmatch r s []); split; congruence.
Qed.

Lemma lit_find_inv (old new s : str) (o : outcome str) (k : nat) :
  old <> [] ->
  lit_find old new s = Some (o, k) ->
  o = Return new /\ firstn (S k) s = old /\ S k <= List.length s.
Proof.
  intros Hne. unfold lit_find.
  destruct (starts_with old s) eqn:E; [ | discriminate].
  intros [= <- <-]. apply starts_with_true in E. destruct E as [s' ->].
  replace (S (List.length old - 1)) with (List.length old)
    by (destruct old; [congruence | cbn [List.length]; lia]).
  rewrite firstn_app_exact, length_app. repeat split. lia.
Qed.

Lemma lit_find_none (old new s : str) :
  lit_find old new s = None <-> starts_with old s = false.
Proof. unfold lit_find. destruct (starts_with old s); split; congruence. Qed.

(** ** Building blocks *)

Lemma head_split_spec (t : str) :
  head_split t = true ->
  exists h b R1, t = h ++ b :: R1 /\ forallb head_char h = true /\ word_char b = false.
Proof.
  induction t as [| a t IH]; cbn; [discriminate | ].
  destruct (head_char a) eqn:Ha.
  - intros H. destruct (IH H) as [h [b [R1 [-> [Hh Hb]]]]].
    exists (a :: h), b, R1. cbn. rewrite Ha. auto.
  - intros H. apply negb_true_iff in H. exists [], a, t. auto.
Qed.

Lemma ends_closed_spec (t : str) :
  ends_closed t = true -> exists R0 e, t = R0 ++ [e] /\ word_char e = false.
Proof.
  unfold ends_closed. destruct (rev t) as [| e l] eqn:E; [discriminate | ].
  intros H. apply negb_true_iff in H. exists (rev l), e. split; [ | exact H].
  rewrite <- (rev_involutive t), E. reflexivity.
Qed.

Lemma head_chars_no_digit (h : str) :
  forallb head_char h = true -> existsb is_digit h = false.
Proof.
  induction h as [| a h IH]; cbn; [reflexivity | ].
  intros H. apply andb_prop in H. destruct H as [Ha Hh].
  now rewrite (head_char_not_digit _ Ha), IH.
Qed.

Theorem tail_block (pre tail M : str) :
  forallb head_char pre = true -> block_tail_ok tail = true ->
  (exists a M', M = a :: M' /\ a <> slash) ->
  block M (pre ++ tail).
Proof.
  intros Hp Ht HM. unfold block_tail_ok in Ht.
  apply andb_prop in Ht. destruct Ht as [Ht Hd].
  apply andb_prop in Ht. destruct Ht as [Hs He].
  apply negb_true_iff in Hd.
  destruct (head_split_spec _ Hs) as [h [b [R1 [E [Hh Hb]]]]].
  destruct (ends_closed_spec _ He) as [R0 [e [E' He']]].
  repeat split.
  - exact HM.
  - exists (pre ++ h), b, R1. rewrite E, forallb_app, Hp, Hh, <- app_assoc. auto.
  - exists (pre ++ R0), e. rewrite E', <- app_assoc. auto.
  - apply inert_no_digit. rewrite existsb_app, Hd, (head_chars_no_digit _ Hp).
    reflexivity.
Qed.

Theorem rgba_block (kw rgba op M : str) :
  forallb head_char kw = true ->
  existsb is_dash rgba = false -> existsb is_dash op = false ->
  (exists a M', M = a :: M' /\ a <> slash) ->
  block M (kw ++ lit "[rgba(" ++ rgba ++ lit "," ++ op ++ lit ")]").
Proof.
  intros Hk Hr Ho HM. repeat split.
  - exact HM.
  - exists kw, (code "["), (lit "rgba(" ++ rgba ++ lit "," ++ op ++ lit ")]").
    auto.
  - exists (kw ++ lit "[rgba(" ++ rgba ++ lit "," ++ op ++ lit ")"), (code "]").
    split; [ | reflexivity].
    rewrite <- !app_assoc. reflexivity.
  - change (kw ++ lit "[rgba(" ++ rgba ++ lit "," ++ op ++ lit ")]")
      with (kw ++ (code "[") :: (lit "rgba" ++ (code "(") :: (rgba ++ (code ",") ::
              (op ++ (code ")") :: ([] ++ (code "]") :: []))))).
    apply inert_barrier; [reflexivity | | ].
    { apply inert_no_digit. now apply head_chars_no_digit. }
    apply inert_barrier; [reflexivity | | ].
    { apply inert_no_digit. reflexivity. }
    apply inert_barrier; [reflexivity | | ].
    { now apply inert_no_dash. }
    apply inert_barrier; [reflexivity | | ].
    { now apply inert_no_dash. }
    apply inert_barrier; [reflexivity | | ]; apply inert_no_digit; reflexivity.
Qed.


(** ** One step of the script *)

Theorem re_step_quiet (r : regex) (repl : Match -> outcome str) (rj : regex)
        (s s' : str) :
  good_pattern r = true -> replaces_by_blocks r repl ->
  good_pattern rj = true ->
  rj = r \/ quiet (hit rj) s ->
  re_sub r repl s = Return s' ->
  quiet (hit rj) s'.
Proof.
  intros G Hev Gj Hq E. unfold re_sub in E.
  rewrite (@re_sub_as_scan r repl (@good_nonempty r G)) in E.
  apply (@scan_quiet (re_find r repl) (@re_find_len r repl G) (hit rj)
           (@hit_nil rj Gj)) with (s := s); [ | | exact E].
  - intros t R k Hf. pose proof (Hev _ _ _ Hf) as B.
    split; [now apply block_gap_ok | now apply (@block_in_ok rj _ _ Gj B)].
  - intros t Ht Hf. destruct Hq as [-> | Hq].
    + now apply re_find_none in Hf.
    + now apply Hq.
Qed.

Theorem re_sub_quiet (r : regex) (repl : Match -> outcome str) (s : str) :
  good_pattern r = true -> quiet (hit r) s -> re_sub r repl s = Return s.
Proof.
  intros G Hq. unfold re_sub.
  rewrite (@re_sub_as_scan r repl (@good_nonempty r G)).
  apply scan_fixed. intros t Ht. apply re_find_none. now apply Hq.
Qed.

Lemma lit_find_len (old new : str) :
  old <> [] ->
  forall s o k, lit_find old new s = Some (o, k) -> S k <= List.length s.
Proof. intros Hne s o k H. now destruct (@lit_find_inv old new s o k Hne H) as (_ & _ & ?). Qed.

Theorem lit_step_quiet_re (old new : str) (rj : regex) (s : str) :
  old <> [] -> block old new -> good_pattern rj = true ->
  quiet (hit rj) s -> quiet (hit rj) (str_replace old new s).
Proof.
  intros Hne B Gj Hq.
  apply (@scan_quiet (lit_find old new) (@lit_find_len old new Hne) (hit rj)
           (@hit_nil rj Gj)) with (s := s).
  - intros t R k Hf. destruct (@lit_find_inv old new t _ k Hne Hf) as ([= <-] & -> & _).
    split; [now apply block_gap_ok | now apply (@block_in_ok rj _ _ Gj B)].
  - intros t Ht _. now apply Hq.
  - symmetry. apply (@str_replace_as_scan old new Hne).
Qed.

Lemma lit_block_nonempty (w R : str) : lit_block w R = true -> w <> [].
Proof. destruct w; [discriminate | discriminate]. Qed.

Theorem lit_step_quiet_lit (old new w : str) (s : str) :
  old <> [] -> lit_block w new = true ->
  w = old \/ quiet (starts_with w) s ->
  quiet (starts_with w) (str_replace old new s).
Proof.
  intros Hne B Hq.
  assert (Hnil : starts_with w [] = false).
  { pose proof (@lit_block_nonempty _ _ B). destruct w; [congruence | reflexivity]. }
  apply (@scan_quiet (lit_find old new) (@lit_find_len old new Hne) (starts_with w) Hnil)
    with (s := s).
  - intros t R k Hf. destruct (@lit_find_inv old new t _ k Hne Hf) as ([= <-] & -> & _).
    split; [now apply lit_block_gap_ok | now apply lit_block_in_ok].
  - intros t Ht Hf. destruct Hq as [-> | Hq].
    + now apply lit_find_none in Hf.
    + now apply Hq.
  - symmetry. apply (@str_replace_as_scan old new Hne).
Qed.

Theorem str_replace_quiet (old new s : str) :
  old <> [] -> quiet (starts_with old) s -> str_replace old new s = s.
Proof.
  intros Hne Hq.
  assert (E : Return (str_replace old new s) = Return s).
  { unfold str_replace. rewrite (@str_replace_as_scan old new Hne).
    apply scan_fixed. intros t Ht. apply lit_find_none. now apply Hq. }
  now injection E.
Qed.

(** ** The loop over [hex_map] *)

Lemma hex_entry_block (kv : str * str) :
  hex_entry_ok kv = true -> fst kv <> [] /\ block (fst kv) (snd kv).
Proof.
  unfold hex_entry_ok. destruct (fst kv) as [| a M] eqn:E; [discriminate | ].
  intros H. apply andb_prop in H. destruct H as [Ha Ht].
  split; [discriminate | ].
  apply (@tail_block [] (snd kv) (a :: M) eq_refl Ht).
  exists a, M. split; [reflexivity | ].
  apply negb_true_iff in Ha. now apply N.eqb_neq.
Qed.

Lemma hex_loop_quiet_re (rj : regex) (l : dict) :
  good_pattern rj = true -> forallb hex_entry_ok l = true ->
  forall s, quiet (hit rj) s -> quiet (hit rj) (fold_left hex_step l s).
Proof.
  intros Gj. induction l as [| kv l IH]; cbn [fold_left forallb]; intros Hl s Hq.
  - exact Hq.
  - apply andb_prop in Hl. destruct Hl as [Hkv Hl].
    destruct (@hex_entry_block kv Hkv) as [Hne B].
    apply IH; [exact Hl | ]. now apply lit_step_quiet_re.
Qed.

Lemma hex_loop_quiet_lit (w : str) (l : dict) :
  forallb hex_entry_ok l = true -> forallb (hex_pair_ok w) l = true ->
  forall s, In w (map fst l) \/ quiet (starts_with w) s ->
            quiet (starts_with w) (fold_left hex_step l s).
Proof.
  induction l as [| kv l IH]; cbn [fold_left forallb map In]; intros Hl Hw s Hq.
  - destruct Hq as [[] | Hq]. exact Hq.
  - apply andb_prop in Hl. destruct Hl as [Hkv Hl].
    apply andb_prop in Hw. destruct Hw as [Hwk Hw].
    destruct (@hex_entry_block kv Hkv) as [Hne _].
    apply IH; [exact Hl | exact Hw | ].
    destruct Hq as [[Hq | Hq] | Hq].
    + right. apply lit_step_quiet_lit; auto.
    + now left.
    + right. apply lit_step_quiet_lit; auto.
Qed.

Lemma hex_loop_fixed (l : dict) (s : str) :
  forallb hex_entry_ok l = true ->
  (forall w, In w (map fst l) -> quiet (starts_with w) s) ->
  fold_left hex_step l s = s.
Proof.
  induction l as [| kv l IH]; cbn [fold_left forallb map In]; intros Hl Hq.
  - reflexivity.
  - apply andb_prop in Hl. destruct Hl as [Hkv Hl].
    destruct (@hex_entry_block kv Hkv) as [Hne _].
    unfold hex_step at 2. rewrite str_replace_quiet; auto.
Qed.


(** ** A chain of steps *)

Lemma run_steps_quiet (l : list (regex * (Match -> outcome str))) :
  Forall good_step l ->
  forall s s', run_steps l s = Return s' ->
    (forall rj, good_pattern rj = true -> quiet (hit rj) s -> quiet (hit rj) s') /\
    Forall (fun st => quiet (hit (fst st)) s') l.
Proof.
  induction 1 as [| [r f] l [G Hev] Hl IH]; cbn [run_steps fst snd] in *; intros s s' E.
  - injection E as <-. auto.
  - destruct (re_sub r f s) as [e | c] eqn:Ec; [discriminate | ]. cbn [obind] in E.
    destruct (IH _ _ E) as [Hpres Hall].
    split; [ | constructor; [ | exact Hall]].
    + intros rj Gj Hq. apply Hpres; [exact Gj | ].
      apply (re_step_quiet r f rj s c G Hev Gj (or_intror Hq) Ec).
    + cbn [fst]. apply Hpres; [exact G | ].
      apply (re_step_quiet r f r s c G Hev G (or_introl eq_refl) Ec).
Qed.

Lemma run_steps_fixed (l : list (regex * (Match -> outcome str))) (s : str) :
  Forall good_step l -> Forall (fun st => quiet (hit (fst st)) s) l ->
  run_steps l s = Return s.
Proof.
  induction 1 as [| [r f] l [G _] Hl IH]; cbn [run_steps fst snd]; intros Hq.
  - reflexivity.
  - inversion Hq as [| ? ? Hr Hq']; subst. cbn [fst] in Hr.
    rewrite (re_sub_quiet r f s G Hr). cbn [obind]. auto.
Qed.


(** ** The patterns of the script *)

Lemma good_bg_opacity : good_pattern bg_opacity_re = true.
Proof. vm_compute. reflexivity. Qed.

Lemma good_border_opacity : good_pattern border_opacity_re = true.
Proof. vm_compute. reflexivity. Qed.

Lemma good_hover_bg_opacity : good_pattern hover_bg_opacity_re = true.
Proof. vm_compute. reflexivity. Qed.

Lemma good_text : good_pattern text_re = true.
Proof. vm_compute. reflexivity. Qed.

Lemma good_bg_solid : good_pattern bg_solid_re = true.
Proof. vm_compute. reflexivity. Qed.

Lemma good_border : good_pattern border_re = true.
Proof. vm_compute. reflexivity. Qed.

Lemma good_ring : good_pattern ring_re = true.
Proof. vm_compute. reflexivity. Qed.

(** Group 1 of an opacity pattern is bound, to a colour of the
    alternation. *)
Lemma opacity_group_color (kw : string) (s s' : str) (c' : caps) :
  In (s', c') (rmatch (opacity_pattern kw) s []) ->
  exists c, caps_get 1 c' = Some c /\ In c ALL_COLORS_PLUS_GRAY.
Proof.
  intros Hin.
  assert (B : binds 1 (opacity_pattern kw) = true) by reflexivity.
  pose proof (@caps_bound 1 _ B _ _ _ _ Hin) as Hb.
  destruct (caps_get 1 c') as [c |] eqn:E; [ | congruence].
  exists c. split; [reflexivity | ].
  set (Q := fun (n : nat) (v : str) => n = 1 -> In v ALL_COLORS_PLUS_GRAY).
  assert (G : groups_in Q (opacity_pattern kw)).
  { unfold opacity_pattern. cbn [groups_in].
    repeat split; try (intros u t L; discriminate); try apply groups_in_alternation.
    intros u t L _. now apply lang_alternation in L. }
  assert (C0 : forall n v, caps_get n [] = Some v -> Q n v)
    by (intros n v; cbn; discriminate).
  exact (@caps_sound Q _ G s [] s' c' C0 Hin 1 c E eq_refl).
Qed.

(** Group 1 of a pattern with an optional prefix, when bound, holds
    letters and colons. *)
Lemma prefix_group_head (ps : list string) (rest : regex) (s s' : str) (c' : caps) :
  lits_in head_char false (alternation (map lit ps)) = true ->
  groups_in (fun n v => n = 1 -> forallb head_char v = true) rest ->
  In (s', c') (rmatch (Seq (prefix_group ps) rest) s []) ->
  forallb head_char (or_empty (caps_get 1 c')) = true.
Proof.
  intros Hl Hr Hin.
  set (Q := fun (n : nat) (v : str) => n = 1 -> forallb head_char v = true) in *.
  assert (G : groups_in Q (Seq (prefix_group ps) rest)).
  { unfold prefix_group. cbn [groups_in]. repeat split; auto.
    - intros u t L _.
      apply (@lang_lits head_char false (Opt (alternation (map lit ps)))
               (fun H => False_ind _ (Bool.diff_false_true H)) Hl _ _ L).
    - apply groups_in_alternation. }
  assert (C0 : forall n v, caps_get n [] = Some v -> Q n v)
    by (intros n v; cbn; discriminate).
  assert (H : forall v, caps_get 1 c' = Some v -> forallb head_char v = true)
    by (intros v Hv; exact (@caps_sound Q _ G s [] s' c' C0 Hin 1 v Hv eq_refl)).
  unfold or_empty. destruct (caps_get 1 c') as [[| a v] |]; auto.
Qed.

Lemma groups_tail (kw : string) (la : option char) :
  groups_in (fun n v => n = 1 -> forallb head_char v = true)
    (Seq (Lit (lit kw)) (Seq (Group 2 colors) (Seq (Lit (lit "-"))
       match la with
       | Some x => Seq (Group 3 Digits) (NotAhead x)
       | None => Group 3 Digits
       end))).
Proof.
  destruct la; cbn [groups_in]; repeat split; try (intros; discriminate);
    apply groups_in_alternation.
Qed.


(** ** The replacement functions *)

Section ScriptFacts.
Variable int_max_str_digits : option nat.
Variable float_repr : N -> str.

(** The text printed for a quotient has digits, a point, and an exponent
    written [e+]. *)
Hypothesis float_repr_chars : forall n, forallb float_char (float_repr n) = true.

Lemma float_repr_no_dash (n : N) : existsb is_dash (float_repr n) = false.
Proof.
  pose proof (float_repr_chars n) as H.
  induction (float_repr n) as [| a l IH]; cbn in *; [reflexivity | ].
  apply andb_prop in H. destruct H as [Ha Hl].
  now rewrite (float_char_not_dash _ Ha), IH.
Qed.

(** An opacity helper never takes its last branch: on a match of its
    pattern the colour has a base value, and the helper is the
    conversion of the opacity followed by the [rgba] form. *)
Lemma opacity_helper (kw : string) (repl : Match -> outcome str) :
  (forall m, repl m =
     (n <~ py_int int_max_str_digits (group m 3) ;;
      opacity <~ div100_text float_repr n ;;
      match rgba_of (group m 1) with
      | Some rgba =>
          Return (lit kw ++ lit "[rgba(" ++ rgba ++ lit "," ++ opacity ++ lit ")]")
      | None => Return (m_whole m)
      end)) ->
  forall s m, In m (rmatch (opacity_pattern kw) s []) ->
    exists rgba,
      rgba_of (group (match_of s m) 1) = Some rgba /\
      repl (match_of s m) =
        (n <~ py_int int_max_str_digits (group (match_of s m) 3) ;;
         opacity <~ div100_text float_repr n ;;
         Return (lit kw ++ lit "[rgba(" ++ rgba ++ lit "," ++ opacity ++ lit ")]")).
Proof.
  intros Hrepl s [s' c'] Hin.
  destruct (opacity_group_color _ _ _ _ Hin) as [c [Hc Hall]].
  destruct (rgba_of_color c Hall) as [rgba Hr].
  exists rgba. unfold match_of, group. cbn [m_caps snd]. rewrite Hc.
  split; [exact Hr | ].
  rewrite Hrepl. unfold group. cbn [m_caps]. rewrite Hc, Hr. reflexivity.
Qed.

Lemma opacity_events (kw : string) (repl : Match -> outcome str) :
  forallb head_char (lit kw) = true ->
  good_pattern (opacity_pattern kw) = true ->
  (forall m, repl m =
     (n <~ py_int int_max_str_digits (group m 3) ;;
      opacity <~ div100_text float_repr n ;;
      match rgba_of (group m 1) with
      | Some rgba =>
          Return (lit kw ++ lit "[rgba(" ++ rgba ++ lit "," ++ opacity ++ lit ")]")
      | None => Return (m_whole m)
      end)) ->
  replaces_by_blocks (opacity_pattern kw) repl.
Proof.
  intros Hkw G Hrepl s R j Hf.
  destruct (@re_find_inv _ repl s _ j G Hf)
    as (s' & c' & u & Hin & -> & L & Hj & Hfn & Ho & HM).
  rewrite Hfn.
  destruct (@opacity_helper kw repl Hrepl _ _ Hin) as [rgba [Hr Hm]].
  rewrite consumed_app_match in Hm, Hr. rewrite Hm in Ho.
  destruct (py_int int_max_str_digits _) as [e | n]; [discriminate | ].
  cbn [obind] in Ho. unfold div100_text in Ho.
  destruct (div100_overflows n); [discriminate | ].
  cbn [obind] in Ho. injection Ho as ->.
  apply rgba_block; auto.
  - eapply rgba_of_no_dash; eauto.
  - apply float_repr_no_dash.
Qed.



(** The other helpers write [prefix] and a closed text around the name
    of a variable. *)
Ltac name_cases c :=
  let Hn := fresh "Hn" in
  pose proof (semantic_of_names c) as Hn;
  unfold semantic_names in Hn; cbn [In] in Hn;
  repeat (destruct Hn as [<- | Hn]; [reflexivity | ]);
  contradiction.

Lemma text_events : replaces_by_blocks text_re (replace_text int_max_str_digits).
Proof.
  intros s R j Hf.
  destruct (re_find_inv _ _ s _ j good_text Hf)
    as (s' & c' & u & Hin & -> & L & Hj & Hfn & Ho & HM).
  rewrite Hfn.
  assert (Hp : forallb head_char (or_empty (caps_get 1 c')) = true).
  { apply (prefix_group_head ["hover:"; "dark:"; "focus:"]%string _ _ s' c' eq_refl
             (groups_tail "text-" None) Hin). }
  unfold replace_text, group in Ho. cbn [m_caps m_whole] in Ho.
  destruct (color_in (caps_get 2 c') gray_names).
  - destruct (py_int int_max_str_digits (caps_get 3 c')) as [e | n];
      [discriminate | ].
    cbn [obind] in Ho.
    destruct (800 <=? n)%N; [ | destruct (600 <=? n)%N];
      injection Ho as ->; apply tail_block; auto.
  - injection Ho as ->. apply tail_block; auto.
    name_cases (caps_get 2 c').
Qed.

Lemma bg_solid_events :
  replaces_by_blocks bg_solid_re (replace_bg_solid int_max_str_digits).
Proof.
  intros s R j Hf.
  destruct (re_find_inv _ _ s _ j good_bg_solid Hf)
    as (s' & c' & u & Hin & -> & L & Hj & Hfn & Ho & HM).
  rewrite Hfn.
  assert (Hp : forallb head_char (or_empty (caps_get 1 c')) = true).
  { apply (prefix_group_head ["hover:"; "dark:"; "active:"; "focus:"]%string _ _ s' c'
             eq_refl (groups_tail "bg-" (Some slash)) Hin). }
  unfold replace_bg_solid, group in Ho. cbn [m_caps m_whole] in Ho.
  destruct (py_int int_max_str_digits (caps_get 3 c')) as [e | n];
    [discriminate | ].
  cbn [obind] in Ho.
  destruct (color_in (caps_get 2 c') gray_names).
  - destruct (n <=? 100)%N; [ | destruct (n <=? 300)%N];
      injection Ho as ->; apply tail_block; auto.
  - injection Ho as ->. apply tail_block; auto.
    name_cases (caps_get 2 c').
Qed.

Lemma border_events : replaces_by_blocks border_re replace_border.
Proof.
  intros s R j Hf.
  destruct (re_find_inv _ _ s _ j good_border Hf)
    as (s' & c' & u & Hin & -> & L & Hj & Hfn & Ho & HM).
  rewrite Hfn.
  unfold replace_border, group in Ho. cbn [m_caps m_whole] in Ho.
  destruct (color_in (caps_get 1 c') gray_names); injection Ho as ->.
  - apply (tail_block [] _ _ eq_refl); auto.
  - apply (tail_block [] _ _ eq_refl); auto.
    name_cases (caps_get 1 c').
Qed.

Lemma ring_events : replaces_by_blocks ring_re replace_ring.
Proof.
  intros s R j Hf.
  destruct (re_find_inv _ _ s _ j good_ring Hf)
    as (s' & c' & u & Hin & -> & L & Hj & Hfn & Ho & HM).
  rewrite Hfn.
  assert (Hp : forallb head_char (or_empty (caps_get 1 c')) = true).
  { apply (prefix_group_head ["focus:"]%string _ _ s' c' eq_refl
             (groups_tail "ring-" None) Hin). }
  unfold replace_ring, group in Ho. cbn [m_caps m_whole] in Ho.
  destruct (color_in (caps_get 2 c') (dict_keys COLOR_SEMANTIC));
    injection Ho as ->; apply tail_block; auto.
  name_cases (caps_get 2 c').
Qed.

Lemma bg_opacity_events :
  replaces_by_blocks bg_opacity_re (replace_bg_opacity int_max_str_digits float_repr).
Proof. apply (opacity_events "bg-"); [reflexivity | exact good_bg_opacity | reflexivity]. Qed.

Lemma border_opacity_events :
  replaces_by_blocks border_opacity_re
    (replace_border_opacity int_max_str_digits float_repr).
Proof.
  apply (opacity_events "border-"); [reflexivity | exact good_border_opacity | reflexivity].
Qed.

Lemma hover_bg_opacity_events :
  replaces_by_blocks hover_bg_opacity_re
    (replace_hover_bg_opacity int_max_str_digits float_repr).
Proof.
  apply (opacity_events "hover:bg-");
    [reflexivity | exact good_hover_bg_opacity | reflexivity].
Qed.


(** ** The whole pass *)

Lemma steps_good : Forall good_step (steps int_max_str_digits float_repr).
Proof.
  unfold steps.
  repeat (apply Forall_cons; [split; cbn [fst snd] | ]); try apply Forall_nil.
  - exact good_bg_opacity.
  - exact bg_opacity_events.
  - exact good_border_opacity.
  - exact border_opacity_events.
  - exact good_hover_bg_opacity.
  - exact hover_bg_opacity_events.
  - exact good_text.
  - exact text_events.
  - exact good_bg_solid.
  - exact bg_solid_events.
  - exact good_border.
  - exact border_events.
  - exact good_ring.
  - exact ring_events.
Qed.

Lemma migrate_content_steps (s : str) :
  migrate_content int_max_str_digits float_repr s =
  (c <~ run_steps (steps int_max_str_digits float_repr) s ;; Return (replace_hex c)).
Proof.
  unfold migrate_content, steps. cbn [run_steps fst snd].
  repeat (match goal with
          | |- context [re_sub ?r ?f ?x] =>
              destruct (re_sub r f x); cbn [obind]; [reflexivity | ]
          end).
  reflexivity.
Qed.

Lemma hex_map_ok : forallb hex_entry_ok hex_map = true.
Proof. vm_compute. reflexivity. Qed.

Lemma hex_map_pairs_ok :
  forallb (fun w => forallb (hex_pair_ok w) hex_map) (map fst hex_map) = true.
Proof. vm_compute. reflexivity. Qed.

(** What [migrate_content] returns has no match of any of its patterns
    and no occurrence of any of its hex colours. *)
Theorem migrate_content_quiet (s s' : str) :
  migrate_content int_max_str_digits float_repr s = Return s' ->
  Forall (fun st => quiet (hit (fst st)) s') (steps int_max_str_digits float_repr) /\
  (forall w, In w (map fst hex_map) -> quiet (starts_with w) s').
Proof.
  rewrite migrate_content_steps.
  destruct (run_steps (steps int_max_str_digits float_repr) s) as [e | c] eqn:E; [discriminate | ].
  cbn [obind]. intros [= <-].
  destruct (run_steps_quiet (steps int_max_str_digits float_repr) steps_good s c E) as [_ Hall].
  split.
  - rewrite Forall_forall in *. intros st Hst.
    apply hex_loop_quiet_re; [ | exact hex_map_ok | now apply Hall].
    pose proof steps_good as G. rewrite Forall_forall in G. now apply G.
  - intros w Hw. apply hex_loop_quiet_lit; [exact hex_map_ok | | now left].
    pose proof hex_map_pairs_ok as P. rewrite forallb_forall in P. now apply P.
Qed.

Theorem migrate_content_fixed (s : str) :
  Forall (fun st => quiet (hit (fst st)) s) (steps int_max_str_digits float_repr) ->
  (forall w, In w (map fst hex_map) -> quiet (starts_with w) s) ->
  migrate_content int_max_str_digits float_repr s = Return s.
Proof.
  intros Hre Hhex. rewrite migrate_content_steps.
  rewrite (run_steps_fixed (steps int_max_str_digits float_repr) s steps_good Hre). cbn [obind].
  unfold replace_hex. now rewrite (hex_loop_fixed hex_map s hex_map_ok Hhex).
Qed.

(** C9: migrating twice is migrating once, for every text (any list of
    Unicode code points) and whatever characters the Unicode database
    of the interpreter lists as decimal digits.  Where the first pass
    raises, so does the pair; where it returns, the second pass returns
    the same text. *)
Theorem migrate_content_idempotent (s : str) :
  (c <~ migrate_content int_max_str_digits float_repr s ;;
   migrate_content int_max_str_digits float_repr c) =
  migrate_content int_max_str_digits float_repr s.
Proof.
  destruct (migrate_content int_max_str_digits float_repr s) as [e | s'] eqn:E;
    cbn [obind]; [reflexivity | ].
  destruct (migrate_content_quiet s s' E) as [Hre Hhex].
  now apply migrate_content_fixed.
Qed.


(** C10: in [replace_bg_opacity], [replace_border_opacity] and
    [replace_hover_bg_opacity] the branch that returns the match
    unchanged is never taken.  Every colour of the alternation
    [ALL_COLORS_PLUS_GRAY] has a base value in [COLOR_RGBA]; on a match
    of its pattern the lookup of each helper succeeds, and the helper is
    the conversion of the opacity followed by the [rgba] form of the
    token. *)
Theorem opacity_fallback_unreachable :
  (forall c, In c ALL_COLORS_PLUS_GRAY ->
     exists a v, dict_get c COLOR_RGBA = Some (a :: v)) /\
  (forall s m,
     In m (rmatch bg_opacity_re s []) ->
     exists rgba,
       rgba_of (group (match_of s m) 1) = Some rgba /\
       replace_bg_opacity int_max_str_digits float_repr (match_of s m) =
         (n <~ py_int int_max_str_digits (group (match_of s m) 3) ;;
          opacity <~ div100_text float_repr n ;;
          Return (lit "bg-" ++ lit "[rgba(" ++ rgba ++ lit "," ++ opacity ++ lit ")]"))) /\
  (forall s m,
     In m (rmatch border_opacity_re s []) ->
     exists rgba,
       rgba_of (group (match_of s m) 1) = Some rgba /\
       replace_border_opacity int_max_str_digits float_repr (match_of s m) =
         (n <~ py_int int_max_str_digits (group (match_of s m) 3) ;;
          opacity <~ div100_text float_repr n ;;
          Return (lit "border-" ++ lit "[rgba(" ++ rgba ++ lit "," ++ opacity ++ lit ")]"))) /\
  (forall s m,
     In m (rmatch hover_bg_opacity_re s []) ->
     exists rgba,
       rgba_of (group (match_of s m) 1) = Some rgba /\
       replace_hover_bg_opacity int_max_str_digits float_repr (match_of s m) =
         (n <~ py_int int_max_str_digits (group (match_of s m) 3) ;;
          opacity <~ div100_text float_repr n ;;
          Return (lit "hover:bg-" ++ lit "[rgba(" ++ rgba ++ lit "," ++ opacity ++ lit ")]"))).
Proof.
  split; [ | split; [ | split]].
  - intros c Hc. destruct (rgba_of_color c Hc) as [rgba H].
    unfold rgba_of, truthy in H.
    destruct (dict_get c COLOR_RGBA) as [[| a v] |]; try discriminate. eauto.
  - apply (opacity_helper "bg-"). reflexivity.
  - apply (opacity_helper "border-"). reflexivity.
  - apply (opacity_helper "hover:bg-"). reflexivity.
Qed.


End ScriptFacts.

(** ** The short text of a quotient *)

Lemma digit_char_is_digit (d : N) : (d < 10)%N -> is_digit (digit_char d) = true.
Proof.
  intros H. unfold digit_char, is_digit.
  destruct (N.ltb_spec (48 + d) 128); [ | lia].
  apply andb_true_intro. split; apply N.leb_le; lia.
Qed.

Lemma digit_char_float (d : N) : (d < 10)%N -> float_char (digit_char d) = true.
Proof.
  intros H. unfold float_char. now rewrite (digit_char_is_digit d H).
Qed.

Lemma decimal_digits_chars (fuel : nat) :
  forall n acc, forallb float_char acc = true ->
    forallb float_char (decimal_digits fuel n acc) = true.
Proof.
  induction fuel as [| f IH]; intros n acc Hacc; cbn [decimal_digits]; [exact Hacc | ].
  assert (H : forallb float_char (digit_char (n mod 10) :: acc) = true).
  { cbn [forallb]. rewrite Hacc, digit_char_float; [reflexivity | ].
    apply N.mod_lt. discriminate. }
  destruct (n / 10 =? 0)%N; [exact H | now apply IH].
Qed.

Lemma short_repr_chars (n : N) : forallb float_char (short_repr n) = true.
Proof.
  unfold short_repr, decimal.
  assert (Ht : ((n mod 100) / 10 < 10)%N).
  { apply N.Div0.div_lt_upper_bound. apply (N.mod_lt n 100). discriminate. }
  assert (Hu : (n mod 10 < 10)%N) by (apply N.mod_lt; discriminate).
  rewrite !forallb_app. rewrite decimal_digits_chars by reflexivity.
  cbn [lit list_ascii_of_string map forallb].
  change (float_char (code ".")) with true. cbn [andb].
  destruct (n mod 10 =? 0)%N; cbn [forallb];
    rewrite ?digit_char_float by assumption; reflexivity.
Qed.


(** ** What [count_remaining] can still find *)

Lemma alternation_lang (ws : list str) (u s' : str) :
  In u ws -> lang (alternation ws) u s'.
Proof.
  induction ws as [| w ws IH]; cbn; [tauto | ].
  intros [-> | H]; auto.
Qed.

Lemma good_remaining : good_pattern remaining_re = true.
Proof. vm_compute. reflexivity. Qed.

(** Every text [re.findall] returns stands in the content, at a place
    where the pattern matches it. *)
Lemma findall_in (r : regex) :
  good_pattern r = true ->
  forall s k m, In m (re_findall_from r s k) ->
    exists pre rest, s = pre ++ m ++ rest /\ lang r m rest.
Proof.
  intros G. induction s as [| a t IH]; intros k m Hin.
  - cbn in Hin. destruct k; [ | contradiction].
    destruct (rmatch r [] []) as [| m0 ms] eqn:E; [contradiction | ].
    exfalso. apply (good_nonempty r G [] m0); [rewrite E; now left | reflexivity].
  - cbn [re_findall_from] in Hin. destruct k as [| k].
    + destruct (rmatch r (a :: t) []) as [| [s0 c0] ms] eqn:E.
      * destruct (IH _ _ Hin) as [pre [rest [-> L]]]. exists (a :: pre), rest. auto.
      * assert (Hm : In (s0, c0) (rmatch r (a :: t) [])) by (rewrite E; now left).
        pose proof (good_nonempty r G _ _ Hm) as Hne.
        destruct (match_len (a :: t) (s0, c0)) as [| j]; [congruence | ].
        destruct Hin as [<- | Hin].
        -- destruct (rmatch_sound r _ _ _ _ Hm) as [u [Eu L]].
           exists [], s0. cbn [fst app]. rewrite Eu, consumed_app. auto.
        -- destruct (IH _ _ Hin) as [pre [rest [-> L]]]. exists (a :: pre), rest. auto.
    + destruct (IH _ _ Hin) as [pre [rest [-> L]]]. exists (a :: pre), rest. auto.
Qed.

(** The shape of a match of the pattern of [count_remaining]. *)
Lemma remaining_shape (m rest : str) :
  lang remaining_re m rest ->
  exists kw c d ds,
    In kw [lit "text"; lit "bg"; lit "border"; lit "ring"] /\
    In c ALL_COLORS_PLUS_GRAY /\
    Forall (fun a => is_digit a = true) (d :: ds) /\
    m = kw ++ lit "-" ++ c ++ lit "-" ++ d :: ds.
Proof.
  unfold remaining_re. cbn [lang].
  intros (kw & u1 & -> & Lkw & sep & u2 & -> & -> & c & u3 & -> & Lc & sep' & ds & -> & -> & Hne & Hd).
  apply lang_alternation in Lkw. apply lang_alternation in Lc.
  destruct ds as [| d ds]; [congruence | ].
  exists kw, c, d, ds. auto.
Qed.

Lemma digits_lang (d : char) (ds rest : str) :
  Forall (fun a => is_digit a = true) (d :: ds) -> lang Digits (d :: ds) rest.
Proof. intros H. cbn. split; [discriminate | exact H]. Qed.

(** A class token is matched by the step that migrates its kind. *)
Lemma token_hits_prefixed (ps : list string) (kw : string) (c ds rest : str) (d : char) :
  In c ALL_COLORS_PLUS_GRAY -> Forall (fun a => is_digit a = true) (d :: ds) ->
  hit (Seq (prefix_group ps)
         (Seq (Lit (lit kw)) (Seq (Group 2 colors) (Seq (Lit (lit "-")) (Group 3 Digits)))))
      (lit kw ++ c ++ lit "-" ++ (d :: ds) ++ rest) = true.
Proof.
  intros Hc Hd. apply hit_true.
  exists (lit kw ++ c ++ lit "-" ++ d :: ds), rest.
  split; [now rewrite <- !app_assoc | ].
  cbn [lang prefix_group].
  exists [], (lit kw ++ c ++ lit "-" ++ d :: ds). split; [reflexivity | ].
  split; [now right | ].
  exists (lit kw), (c ++ lit "-" ++ d :: ds). split; [reflexivity | ].
  split; [reflexivity | ].
  exists c, (lit "-" ++ d :: ds). split; [reflexivity | ].
  split; [now apply alternation_lang | ].
  exists (lit "-"), (d :: ds). split; [reflexivity | ].
  split; [reflexivity | ]. split; [discriminate | exact Hd].
Qed.

Lemma token_hits_solid (pre : regex) (kw : string) (c rest : str) (d : char) :
  lang pre [] (lit kw ++ c ++ lit "-" ++ [d] ++ rest) ->
  In c ALL_COLORS_PLUS_GRAY -> is_digit d = true -> at_char slash rest = false ->
  hit (Seq pre
         (Seq (Lit (lit kw)) (Seq (Group 2 colors) (Seq (Lit (lit "-"))
            (Seq (Group 3 Digits) (NotAhead slash))))))
      (lit kw ++ c ++ lit "-" ++ [d] ++ rest) = true.
Proof.
  intros Hpre Hc Hd Hs. apply hit_true.
  exists (lit kw ++ c ++ lit "-" ++ [d]), rest.
  split; [now rewrite <- !app_assoc | ].
  cbn [lang].
  exists [], (lit kw ++ c ++ lit "-" ++ [d]). split; [reflexivity | ].
  split; [rewrite <- !app_assoc; exact Hpre | ].
  exists (lit kw), (c ++ lit "-" ++ [d]). split; [reflexivity | ].
  split; [reflexivity | ].
  exists c, (lit "-" ++ [d]). split; [reflexivity | ].
  split; [now apply alternation_lang | ].
  exists (lit "-"), [d]. split; [reflexivity | ].
  split; [reflexivity | ].
  exists [d], []. split; [reflexivity | ].
  split; [ | split; [reflexivity | exact Hs]].
  split; [discriminate | constructor; auto].
Qed.

Ltac same_text :=
  cbn [lit list_ascii_of_string app]; rewrite <- ?app_assoc; cbn [app];
  rewrite <- ?app_assoc; reflexivity.

Lemma digit_not_slash (d : char) : is_digit d = true -> d <> slash.
Proof. intros H. char_cases. Qed.

(** In a text where the four solid-colour patterns match nowhere, what
    [count_remaining] finds is a [bg-] or [border-] token with one digit
    and a slash behind it. *)
Theorem remaining_in_quiet_text (s : str) :
  quiet (hit text_re) s -> quiet (hit ring_re) s ->
  quiet (hit bg_solid_re) s -> quiet (hit border_re) s ->
  forall m, In m (snd (count_remaining s)) ->
    exists kw c d pre rest,
      In kw [lit "bg"; lit "border"] /\ In c ALL_COLORS_PLUS_GRAY /\
      is_digit d = true /\
      m = kw ++ lit "-" ++ c ++ lit "-" ++ [d] /\
      s = pre ++ m ++ slash :: rest.
Proof.
  intros Qt Qr Qb Qd m Hin. unfold count_remaining, re_findall in Hin. cbn [snd] in Hin.
  destruct (findall_in remaining_re good_remaining _ _ _ Hin) as [pre [rest [Es L]]].
  destruct (remaining_shape _ _ L) as (kw & c & d & ds & Hkw & Hc & Hd & Em).
  assert (Hsuf : suffix_of (m ++ rest) s) by (exists pre; exact Es).
  assert (Hd1 : is_digit d = true) by (inversion Hd; assumption).
  assert (Hds : Forall (fun a => is_digit a = true) ds) by (inversion Hd; assumption).
  cbn [In] in Hkw. destruct Hkw as [<- | [<- | [<- | [<- | []]]]].
  - (* text *)
    exfalso. pose proof (Qt _ Hsuf) as H. subst m.
    assert (H' : hit text_re (lit "text-" ++ c ++ lit "-" ++ (d :: ds) ++ rest) = true)
      by exact (token_hits_prefixed ["hover:"; "dark:"; "focus:"]%string "text-"
                  c ds rest d Hc Hd).
    assert (E : (lit "text" ++ lit "-" ++ c ++ lit "-" ++ d :: ds) ++ rest =
                lit "text-" ++ c ++ lit "-" ++ (d :: ds) ++ rest) by same_text.
    rewrite E in H. congruence.
  - (* bg *)
    assert (Hrest : ds ++ rest = slash :: skipn 1 (ds ++ rest)).
    { destruct (at_char slash (ds ++ rest)) eqn:Ea.
      - destruct (ds ++ rest) as [| x y]; [discriminate | ].
        cbn in Ea. apply N.eqb_eq in Ea. now subst x.
      - exfalso. pose proof (Qb _ Hsuf) as H. subst m.
        assert (Hp : lang (prefix_group ["hover:"; "dark:"; "active:"; "focus:"]%string)
                       [] (lit "bg-" ++ c ++ lit "-" ++ [d] ++ ds ++ rest))
          by (cbn [lang prefix_group]; now right).
        assert (H' : hit bg_solid_re
                       (lit "bg-" ++ c ++ lit "-" ++ [d] ++ ds ++ rest) = true)
          by exact (token_hits_solid _ "bg-" c (ds ++ rest) d Hp Hc Hd1 Ea).
        assert (E : (lit "bg" ++ lit "-" ++ c ++ lit "-" ++ d :: ds) ++ rest =
                    lit "bg-" ++ c ++ lit "-" ++ [d] ++ ds ++ rest) by same_text.
        rewrite E in H. congruence. }
    destruct ds as [| d2 ds].
    + cbn [app] in Hrest. exists (lit "bg"), c, d, pre, (skipn 1 rest).
      split; [cbn; auto | split; [exact Hc | split; [exact Hd1 | split; [exact Em | ]]]].
      rewrite Es. now rewrite <- Hrest.
    + exfalso. cbn in Hrest. injection Hrest as E.
      inversion Hds; subst. now apply (digit_not_slash slash).
  - (* border *)
    assert (Hrest : ds ++ rest = slash :: skipn 1 (ds ++ rest)).
    { destruct (at_char slash (ds ++ rest)) eqn:Ea.
      - destruct (ds ++ rest) as [| x y]; [discriminate | ].
        cbn in Ea. apply N.eqb_eq in Ea. now subst x.
      - exfalso. pose proof (Qd _ Hsuf) as H. subst m.
        assert (Hh : hit border_re
                       (lit "border-" ++ c ++ lit "-" ++ [d] ++ ds ++ rest) = true).
        { apply hit_true.
          exists (lit "border-" ++ c ++ lit "-" ++ [d]), (ds ++ rest).
          split; [now rewrite <- !app_assoc | ].
          unfold border_re. cbn [lang].
          exists (lit "border-"), (c ++ lit "-" ++ [d]). split; [reflexivity | ].
          split; [reflexivity | ].
          exists c, (lit "-" ++ [d]). split; [reflexivity | ].
          split; [now apply alternation_lang | ].
          exists (lit "-"), [d]. split; [reflexivity | ].
          split; [reflexivity | ].
          exists [d], []. split; [reflexivity | ].
          split; [ | split; [reflexivity | exact Ea]].
          split; [discriminate | constructor; auto]. }
        assert (E : (lit "border" ++ lit "-" ++ c ++ lit "-" ++ d :: ds) ++ rest =
                    lit "border-" ++ c ++ lit "-" ++ [d] ++ ds ++ rest) by same_text.
        rewrite E in H. congruence. }
    destruct ds as [| d2 ds].
    + cbn [app] in Hrest. exists (lit "border"), c, d, pre, (skipn 1 rest).
      split; [cbn; auto | split; [exact Hc | split; [exact Hd1 | split; [exact Em | ]]]].
      rewrite Es. now rewrite <- Hrest.
    + exfalso. cbn in Hrest. injection Hrest as E.
      inversion Hds; subst. now apply (digit_not_slash slash).
  - (* ring *)
    exfalso. pose proof (Qr _ Hsuf) as H. subst m.
    assert (H' : hit ring_re (lit "ring-" ++ c ++ lit "-" ++ (d :: ds) ++ rest) = true)
      by exact (token_hits_prefixed ["focus:"]%string "ring-" c ds rest d Hc Hd).
    assert (E : (lit "ring" ++ lit "-" ++ c ++ lit "-" ++ d :: ds) ++ rest =
                lit "ring-" ++ c ++ lit "-" ++ (d :: ds) ++ rest) by same_text.
    rewrite E in H. congruence.
Qed.


(** ** More on scans *)

Lemma scan_raise (f : str -> option (outcome str * nat)) (e : PyExc) :
  forall s k, scan f s k = Raise e -> exists t j, f t = Some (Raise e, j).
Proof.
  induction s as [| a t IH]; intros k H; cbn [scan] in H; [discriminate | ].
  destruct k as [| k]; [ | eauto].
  destruct (f (a :: t)) as [[o j] |] eqn:Ef.
  - destruct o as [e' | R]; cbn [obind] in H.
    + injection H as ->. eauto.
    + destruct (scan f t j) as [e' | x] eqn:Ex; cbn [obind] in H; [ | discriminate].
      injection H as ->. eauto.
  - destruct (scan f t 0) as [e' | x] eqn:Ex; cbn [obind] in H; [ | discriminate].
    injection H as ->. eauto.
Qed.

Lemma scan_returns (f : str -> option (outcome str * nat)) :
  (forall t o j, f t = Some (o, j) -> exists R, o = Return R) ->
  forall s k, exists s', scan f s k = Return s'.
Proof.
  intros Hf. induction s as [| a t IH]; intros k; cbn [scan]; [eauto | ].
  destruct k as [| k]; [ | apply IH].
  destruct (f (a :: t)) as [[o j] |] eqn:Ef.
  - destruct (Hf _ _ _ Ef) as [R ->]. destruct (IH j) as [x ->]. cbn. eauto.
  - destruct (IH 0) as [x ->]. cbn. eauto.
Qed.

Lemma scan_forallb (P : char -> bool) (f : str -> option (outcome str * nat)) :
  (forall t R j, f t = Some (Return R, j) -> forallb P R = true) ->
  forall s k s', forallb P s = true -> scan f s k = Return s' -> forallb P s' = true.
Proof.
  intros Hf. induction s as [| a t IH]; intros k s' Hs H; cbn [scan] in H.
  - now injection H as <-.
  - cbn in Hs. apply andb_prop in Hs. destruct Hs as [Ha Ht].
    destruct k as [| k]; [ | eauto].
    destruct (f (a :: t)) as [[o j] |] eqn:Ef.
    + destruct o as [e' | R]; cbn [obind] in H; [discriminate | ].
      destruct (scan f t j) as [e' | x] eqn:Ex; cbn [obind] in H; [discriminate | ].
      injection H as <-. rewrite forallb_app, (Hf _ _ _ Ef). cbn. eauto.
    + destruct (scan f t 0) as [e' | x] eqn:Ex; cbn [obind] in H; [discriminate | ].
      injection H as <-. cbn. rewrite Ha. eauto.
Qed.

Lemma run_steps_raise (l : list (regex * (Match -> outcome str))) (e : PyExc) :
  forall s, run_steps l s = Raise e ->
    exists st s0, In st l /\ re_sub (fst st) (snd st) s0 = Raise e.
Proof.
  induction l as [| st l IH]; intros s H; cbn [run_steps] in H; [discriminate | ].
  destruct (re_sub (fst st) (snd st) s) as [e' | c] eqn:E; cbn [obind] in H.
  - injection H as ->. exists st, s. split; [now left | exact E].
  - destruct (IH _ H) as [st' [s0 [Hin H']]]. exists st', s0. split; [now right | exact H'].
Qed.

Lemma re_sub_raise (r : regex) (repl : Match -> outcome str) (s : str) (e : PyExc) :
  good_pattern r = true -> re_sub r repl s = Raise e ->
  exists t m, In m (rmatch r t []) /\ repl (match_of t m) = Raise e.
Proof.
  intros G H. unfold re_sub in H. rewrite (re_sub_as_scan r repl (good_nonempty r G)) in H.
  destruct (scan_raise _ _ _ _ H) as [t [j Hf]]. unfold re_find in Hf.
  destruct (rmatch r t []) as [| m ms] eqn:E; [discriminate | ].
  injection Hf as Hf _. exists t, m. split; [rewrite E; now left | exact Hf].
Qed.

(** A text with no character of the kind every match has is left alone. *)
Lemma quiet_without (P : char -> bool) (r : regex) (s : str) :
  has_char P r = true -> existsb P s = false -> quiet (hit r) s.
Proof.
  intros Hc Hs t [p ->].
  destruct (hit r t) eqn:E; [exfalso | reflexivity].
  apply hit_true in E. destruct E as [u [s' [-> L]]].
  pose proof (lang_has_char P r Hc u s' L) as Hu.
  rewrite !existsb_app, Hu in Hs. rewrite orb_true_r in Hs. discriminate.
Qed.

Lemma quiet_lit_without (w s : str) :
  (exists a w', w = a :: w' /\ existsb (N.eqb a) s = false) ->
  quiet (starts_with w) s.
Proof.
  intros [a [w' [-> Hs]]] t [p ->].
  destruct (starts_with (a :: w') t) eqn:E; [exfalso | reflexivity].
  apply starts_with_true in E. destruct E as [s' ->].
  rewrite existsb_app in Hs. cbn in Hs. rewrite N.eqb_refl in Hs.
  rewrite orb_true_r in Hs. discriminate.
Qed.

Lemma run_steps_fixed_patterns (l : list (regex * (Match -> outcome str))) (s : str) :
  Forall (fun st => good_pattern (fst st) = true /\ quiet (hit (fst st)) s) l ->
  run_steps l s = Return s.
Proof.
  induction 1 as [| [r f] l [G Hq] _ IH]; cbn [run_steps fst snd]; [reflexivity | ].
  cbn [fst] in G, Hq. rewrite (re_sub_quiet r f s G Hq). cbn [obind]. exact IH.
Qed.


(** ** Further properties of the script *)

Section ScriptExtras.
Variable int_max_str_digits : option nat.
Variable float_repr : N -> str.

(** What the four solid-colour helpers can write. *)
Lemma helper_output (kw : string) (grays : list string) (c : option str) :
  In (lit kw ++ lit "[var(--color-" ++ semantic_of c ++ lit ")]") (var_tails kw grays).
Proof.
  unfold var_tails.
  apply (in_map (fun name => lit kw ++ lit "[var(--color-" ++ name ++ lit ")]")).
  apply in_or_app. right. apply semantic_of_names.
Qed.

Ltac pick := repeat (first [left; reflexivity | right]).

Lemma text_output (s : str) (m : str * caps) (R : str) :
  In m (rmatch text_re s []) ->
  replace_text int_max_str_digits (match_of s m) = Return R ->
  exists prefix tail,
    R = prefix ++ tail /\ forallb head_char prefix = true /\
    In tail (var_tails "text-" ["text"; "text-secondary"; "text-muted"]%string).
Proof.
  destruct m as [s' c']. intros Hin Ho.
  assert (Hp : forallb head_char (or_empty (caps_get 1 c')) = true).
  { apply (prefix_group_head ["hover:"; "dark:"; "focus:"]%string _ _ s' c' eq_refl
             (groups_tail "text-" None) Hin). }
  unfold replace_text, group, match_of in Ho. cbn [m_caps m_whole snd] in Ho.
  exists (or_empty (caps_get 1 c')).
  destruct (color_in (caps_get 2 c') gray_names).
  - destruct (py_int int_max_str_digits (caps_get 3 c')) as [e | n];
      [discriminate | ].
    cbn [obind] in Ho.
    destruct (800 <=? n)%N; [ | destruct (600 <=? n)%N];
      injection Ho as <-; eexists; (split; [reflexivity | split; [exact Hp | pick]]).
  - injection Ho as <-. eexists. split; [reflexivity | split; [exact Hp | ]].
    apply (helper_output "text-" _ (caps_get 2 c')).
Qed.

Lemma bg_solid_output (s : str) (m : str * caps) (R : str) :
  In m (rmatch bg_solid_re s []) ->
  replace_bg_solid int_max_str_digits (match_of s m) = Return R ->
  exists prefix tail,
    R = prefix ++ tail /\ forallb head_char prefix = true /\
    In tail (var_tails "bg-" ["bg"; "bg-secondary"; "bg-tertiary"]%string).
Proof.
  destruct m as [s' c']. intros Hin Ho.
  assert (Hp : forallb head_char (or_empty (caps_get 1 c')) = true).
  { apply (prefix_group_head ["hover:"; "dark:"; "active:"; "focus:"]%string _ _ s' c'
             eq_refl (groups_tail "bg-" (Some slash)) Hin). }
  unfold replace_bg_solid, group, match_of in Ho. cbn [m_caps m_whole snd] in Ho.
  exists (or_empty (caps_get 1 c')).
  destruct (py_int int_max_str_digits (caps_get 3 c')) as [e | n];
    [discriminate | ].
  cbn [obind] in Ho.
  destruct (color_in (caps_get 2 c') gray_names).
  - destruct (n <=? 100)%N; [ | destruct (n <=? 300)%N];
      injection Ho as <-; eexists; (split; [reflexivity | split; [exact Hp | pick]]).
  - injection Ho as <-. eexists. split; [reflexivity | split; [exact Hp | ]].
    apply (helper_output "bg-" _ (caps_get 2 c')).
Qed.

Lemma border_output (s : str) (m : str * caps) (R : str) :
  In m (rmatch border_re s []) ->
  replace_border (match_of s m) = Return R ->
  In R (var_tails "border-" ["border"]%string).
Proof.
  destruct m as [s' c']. intros Hin Ho.
  unfold replace_border, group, match_of in Ho. cbn [m_caps m_whole snd] in Ho.
  destruct (color_in (caps_get 1 c') gray_names); injection Ho as <-.
  - pick.
  - apply (helper_output "border-" _ (caps_get 1 c')).
Qed.

Lemma ring_output (s : str) (m : str * caps) (R : str) :
  In m (rmatch ring_re s []) ->
  replace_ring (match_of s m) = Return R ->
  exists prefix tail,
    R = prefix ++ tail /\ forallb head_char prefix = true /\
    In tail (var_tails "ring-" []).
Proof.
  destruct m as [s' c']. intros Hin Ho.
  assert (Hp : forallb head_char (or_empty (caps_get 1 c')) = true).
  { apply (prefix_group_head ["focus:"]%string _ _ s' c' eq_refl
             (groups_tail "ring-" None) Hin). }
  unfold replace_ring, group, match_of in Ho. cbn [m_caps m_whole snd] in Ho.
  exists (or_empty (caps_get 1 c')).
  destruct (color_in (caps_get 2 c') (dict_keys COLOR_SEMANTIC));
    injection Ho as <-; eexists; (split; [reflexivity | split; [exact Hp | ]]).
  - apply (helper_output "ring-" _ (caps_get 2 c')).
  - pick.
Qed.


(** A pattern in which group [n] does not occur leaves the group as
    it was. *)
Lemma caps_unbound (n : nat) (r : regex) :
  mentions n r = false ->
  forall s c s' c', In (s', c') (rmatch r s c) -> caps_get n c' = caps_get n c.
Proof.
  induction r as [| w | | r1 IH1 r2 IH2 | r1 IH1 r2 IH2 | r1 IH1 | k r1 IH1 | x];
    cbn [mentions rmatch]; intros B s c s' c' Hin.
  - contradiction.
  - destruct (strip w s); [ | contradiction].
    destruct Hin as [[= <- <-] | []]. reflexivity.
  - apply in_digit_splits in Hin. destruct Hin as [m [_ [= _ ->]]]. reflexivity.
  - apply orb_false_elim in B. destruct B as [B1 B2].
    apply in_flat_map in Hin. destruct Hin as [[s1 c1] [H1 H2]]. cbn [fst snd] in H2.
    rewrite (IH2 B2 _ _ _ _ H2). exact (IH1 B1 _ _ _ _ H1).
  - apply orb_false_elim in B. destruct B as [B1 B2]. apply in_app_or in Hin.
    destruct Hin as [H | H]; [eapply IH1 | eapply IH2]; eauto.
  - apply in_app_or in Hin. destruct Hin as [H | [[= <- <-] | []]].
    + eapply IH1; eauto.
    + reflexivity.
  - apply orb_false_elim in B. destruct B as [Bk B1].
    apply in_map_iff in Hin. destruct Hin as [[s1 c1] [[= <- <-] H]].
    cbn [caps_get fst snd]. rewrite Bk. eapply IH1; eauto.
  - destruct (at_char x s); [contradiction | ].
    destruct Hin as [[= <- <-] | []]. reflexivity.
Qed.

(** What [m.group(1) or ''] is on a match of a pattern with an optional
    prefix: the text the match has in front of the rest of the pattern,
    one of the prefixes or nothing. *)
Lemma prefix_carried (ps : list string) (rest : regex) (s s' : str) (c' : caps) :
  mentions 1 rest = false ->
  In (s', c') (rmatch (Seq (prefix_group ps) rest) s []) ->
  exists u,
    consumed s s' = or_empty (caps_get 1 c') ++ u /\ lang rest u s' /\
    In (or_empty (caps_get 1 c')) (map lit (""%string :: ps)).
Proof.
  intros B Hin. cbn [rmatch prefix_group] in Hin.
  apply in_flat_map in Hin. destruct Hin as [[s1 c1] [H1 H2]]. cbn [fst snd] in H2.
  rewrite (caps_unbound 1 rest B _ _ _ _ H2).
  destruct (rmatch_sound _ _ _ _ _ H2) as [u [E2 L]]. subst s1.
  exists u. apply in_app_or in H1. destruct H1 as [H1 | [[= -> <-] | []]].
  - apply in_map_iff in H1. destruct H1 as [[s0 c0] [E1 H0]].
    cbn [fst snd] in E1. injection E1 as E0 <-. subst s0.
    cbn [fst snd caps_get Nat.eqb].
    assert (H0' : In (u ++ s', c0)
                     (rmatch (Opt (alternation (map lit ps))) s []))
      by exact H0.
    destruct (rmatch_sound _ _ _ _ _ H0') as [pre [Es Lp]]. subst s.
    assert (Ec : consumed (pre ++ u ++ s') (u ++ s') = pre) by apply consumed_app.
    assert (E : or_empty (Some pre) = pre) by (destruct pre; reflexivity).
    assert (Hpre : In pre (map lit (""%string :: ps))).
    { destruct Lp as [Lp | ->]; [right; now apply lang_alternation in Lp | now left]. }
    rewrite Ec. clear Ec E.
    destruct pre as [| a pre0]; (split; [ | split; [exact L | exact Hpre]]).
    + apply (consumed_app u s').
    + rewrite (app_assoc (a :: pre0) u s'). exact (consumed_app ((a :: pre0) ++ u) s').
  - cbn [caps_get or_empty app]. rewrite consumed_app.
    split; [reflexivity | split; [exact L | now left]].
Qed.

Lemma lang_keyword (kw : string) (r : regex) (u s' : str) :
  lang (Seq (Lit (lit kw)) r) u s' -> exists token, u = lit kw ++ token.
Proof. intros [u1 [u2 [-> [L1 _]]]]. cbn in L1. subst u1. now exists u2. Qed.

(** The vocabulary of the four solid-colour helpers.  The text of a
    match is a prefix of the pattern ([hover:], [dark:], ... or
    nothing), the key word and the token; what the helper returns is
    that same prefix followed by the key word and [[var(--color-NAME)]],
    the name being one of the helper's gray-scale names or a semantic
    name.  [replace_border], whose pattern has no prefix, returns the
    key word and the name. *)
Theorem solid_helpers_vocabulary :
  (forall s m R,
     In m (rmatch text_re s []) ->
     replace_text int_max_str_digits (match_of s m) = Return R ->
     exists prefix token tail,
       m_whole (match_of s m) = prefix ++ lit "text-" ++ token /\
       In prefix (map lit [""; "hover:"; "dark:"; "focus:"]%string) /\
       R = prefix ++ tail /\
       In tail (var_tails "text-" ["text"; "text-secondary"; "text-muted"]%string)) /\
  (forall s m R,
     In m (rmatch bg_solid_re s []) ->
     replace_bg_solid int_max_str_digits (match_of s m) = Return R ->
     exists prefix token tail,
       m_whole (match_of s m) = prefix ++ lit "bg-" ++ token /\
       In prefix (map lit [""; "hover:"; "dark:"; "active:"; "focus:"]%string) /\
       R = prefix ++ tail /\
       In tail (var_tails "bg-" ["bg"; "bg-secondary"; "bg-tertiary"]%string)) /\
  (forall s m R,
     In m (rmatch border_re s []) ->
     replace_border (match_of s m) = Return R ->
     In R (var_tails "border-" ["border"]%string)) /\
  (forall s m R,
     In m (rmatch ring_re s []) ->
     replace_ring (match_of s m) = Return R ->
     exists prefix token tail,
       m_whole (match_of s m) = prefix ++ lit "ring-" ++ token /\
       In prefix (map lit [""; "focus:"]%string) /\
       R = prefix ++ tail /\
       In tail (var_tails "ring-" [])).
Proof.
  split; [ | split; [ | split; [exact border_output | ]]].
  - intros s [s' c'] R Hin Ho.
    pose proof (fun B => prefix_carried ["hover:"; "dark:"; "focus:"]%string _ s s' c' B Hin)
      as Hc.
    destruct (Hc eq_refl) as [u [Ec [L Hp]]]. clear Hc.
    destruct (lang_keyword _ _ _ _ L) as [token ->].
    exists (or_empty (caps_get 1 c')), token.
    unfold match_of at 1. cbn [m_whole fst].
    unfold replace_text, group, match_of in Ho. cbn [m_caps m_whole snd] in Ho.
    destruct (color_in (caps_get 2 c') gray_names).
    + destruct (py_int int_max_str_digits (caps_get 3 c')) as [e | n];
        [discriminate | ].
      cbn [obind] in Ho.
      destruct (800 <=? n)%N; [ | destruct (600 <=? n)%N];
        injection Ho as <-; eexists;
        (split; [exact Ec | split; [exact Hp | split; [reflexivity | pick]]]).
    + injection Ho as <-. eexists.
      split; [exact Ec | split; [exact Hp | split; [reflexivity | ]]].
      apply (helper_output "text-" _ (caps_get 2 c')).
  - intros s [s' c'] R Hin Ho.
    pose proof (fun B => prefix_carried ["hover:"; "dark:"; "active:"; "focus:"]%string
                          _ s s' c' B Hin) as Hc.
    destruct (Hc eq_refl) as [u [Ec [L Hp]]]. clear Hc.
    destruct (lang_keyword _ _ _ _ L) as [token ->].
    exists (or_empty (caps_get 1 c')), token.
    unfold match_of at 1. cbn [m_whole fst].
    unfold replace_bg_solid, group, match_of in Ho. cbn [m_caps m_whole snd] in Ho.
    destruct (py_int int_max_str_digits (caps_get 3 c')) as [e | n];
      [discriminate | ].
    cbn [obind] in Ho.
    destruct (color_in (caps_get 2 c') gray_names).
    + destruct (n <=? 100)%N; [ | destruct (n <=? 300)%N];
        injection Ho as <-; eexists;
        (split; [exact Ec | split; [exact Hp | split; [reflexivity | pick]]]).
    + injection Ho as <-. eexists.
      split; [exact Ec | split; [exact Hp | split; [reflexivity | ]]].
      apply (helper_output "bg-" _ (caps_get 2 c')).
  - intros s [s' c'] R Hin Ho.
    pose proof (fun B => prefix_carried ["focus:"]%string _ s s' c' B Hin) as Hc.
    destruct (Hc eq_refl) as [u [Ec [L Hp]]]. clear Hc.
    destruct (lang_keyword _ _ _ _ L) as [token ->].
    exists (or_empty (caps_get 1 c')), token.
    unfold match_of at 1. cbn [m_whole fst].
    unfold replace_ring, group, match_of in Ho. cbn [m_caps m_whole snd] in Ho.
    destruct (color_in (caps_get 2 c') (dict_keys COLOR_SEMANTIC));
      injection Ho as <-; eexists;
      (split; [exact Ec | split; [exact Hp | split; [reflexivity | ]]]).
    + apply (helper_output "ring-" _ (caps_get 2 c')).
    + pick.
Qed.

(** *** Exceptions *)

Lemma py_int_raise (g : option str) (e : PyExc) :
  py_int int_max_str_digits g = Raise e ->
  g = None \/ (exc_class e = "ValueError"%string /\ int_max_str_digits <> None).
Proof.
  unfold py_int, too_many_digits. destruct g as [ds |]; [ | now left].
  destruct int_max_str_digits as [k |]; [ | discriminate].
  destruct ((640 <? List.length ds) && (0 <? k) && (k <? List.length ds));
    [ | discriminate].
  intros [= <-]. right. split; [reflexivity | discriminate].
Qed.

Lemma div100_text_raise (n : N) (e : PyExc) :
  div100_text float_repr n = Raise e -> exc_class e = "OverflowError"%string.
Proof.
  unfold div100_text. destruct (div100_overflows n); [ | discriminate].
  now intros [= <-].
Qed.

Lemma group3_bound (r : regex) (s : str) (m : str * caps) :
  binds 3 r = true -> In m (rmatch r s []) -> group (match_of s m) 3 <> None.
Proof.
  destruct m as [s' c']. intros B Hin. unfold group, match_of. cbn [m_caps snd].
  exact (caps_bound 3 r B _ _ _ _ Hin).
Qed.

Lemma opacity_raise (kw : string) (repl : Match -> outcome str) :
  (forall m, repl m =
     (n <~ py_int int_max_str_digits (group m 3) ;;
      opacity <~ div100_text float_repr n ;;
      match rgba_of (group m 1) with
      | Some rgba =>
          Return (lit kw ++ lit "[rgba(" ++ rgba ++ lit "," ++ opacity ++ lit ")]")
      | None => Return (m_whole m)
      end)) ->
  forall s m e, In m (rmatch (opacity_pattern kw) s []) ->
    repl (match_of s m) = Raise e -> raised_class int_max_str_digits e.
Proof.
  intros Hrepl s m e Hin H. rewrite Hrepl in H.
  pose proof (group3_bound (opacity_pattern kw) s m eq_refl Hin) as Hb.
  destruct (py_int int_max_str_digits (group (match_of s m) 3)) as [e' | n] eqn:Ei;
    cbn [obind] in H.
  - injection H as ->. destruct (py_int_raise _ _ Ei) as [Hn | Hv]; [congruence | ].
    now right.
  - destruct (div100_text float_repr n) as [e' | op] eqn:Ed; cbn [obind] in H.
    + injection H as ->. left. exact (div100_text_raise _ _ Ed).
    + destruct (rgba_of (group (match_of s m) 1)); discriminate.
Qed.

Lemma text_raise (s : str) (m : str * caps) (e : PyExc) :
  In m (rmatch text_re s []) ->
  replace_text int_max_str_digits (match_of s m) = Raise e -> raised_class int_max_str_digits e.
Proof.
  intros Hin H. pose proof (group3_bound text_re s m eq_refl Hin) as Hb.
  unfold replace_text in H.
  destruct (color_in (group (match_of s m) 2) gray_names); [ | discriminate].
  destruct (py_int int_max_str_digits (group (match_of s m) 3)) as [e' | n] eqn:Ei;
    cbn [obind] in H.
  - injection H as ->. destruct (py_int_raise _ _ Ei) as [Hn | Hv]; [congruence | ].
    now right.
  - destruct (800 <=? n)%N; [ | destruct (600 <=? n)%N]; discriminate.
Qed.

Lemma bg_solid_raise (s : str) (m : str * caps) (e : PyExc) :
  In m (rmatch bg_solid_re s []) ->
  replace_bg_solid int_max_str_digits (match_of s m) = Raise e -> raised_class int_max_str_digits e.
Proof.
  intros Hin H. pose proof (group3_bound bg_solid_re s m eq_refl Hin) as Hb.
  unfold replace_bg_solid in H.
  destruct (py_int int_max_str_digits (group (match_of s m) 3)) as [e' | n] eqn:Ei;
    cbn [obind] in H.
  - injection H as ->. destruct (py_int_raise _ _ Ei) as [Hn | Hv]; [congruence | ].
    now right.
  - destruct (color_in (group (match_of s m) 2) gray_names);
      [destruct (n <=? 100)%N; [ | destruct (n <=? 300)%N] | ]; discriminate.
Qed.

(** [migrate_content] raises nothing but the [OverflowError] of
    [int / 100] and, where the interpreter limits the digits of [int],
    its [ValueError]. *)
Theorem migrate_raises_only (s : str) (e : PyExc) :
  migrate_content int_max_str_digits float_repr s = Raise e ->
  exc_class e = "OverflowError"%string \/
  (exc_class e = "ValueError"%string /\ int_max_str_digits <> None).
Proof.
  rewrite migrate_content_steps.
  destruct (run_steps (steps int_max_str_digits float_repr) s) as [e' | c] eqn:E;
    cbn [obind]; [ | discriminate].
  intros [= ->].
  destruct (run_steps_raise _ _ _ E) as [st [s0 [Hin H]]].
  unfold steps in Hin. cbn [In] in Hin.
  destruct Hin as [<- | [<- | [<- | [<- | [<- | [<- | [<- | []]]]]]]]; cbn [fst snd] in H.
  - destruct (re_sub_raise _ _ _ _ good_bg_opacity H) as [t [m [Hm Hr]]].
    exact (opacity_raise "bg-" _ (fun _ => eq_refl) t m e Hm Hr).
  - destruct (re_sub_raise _ _ _ _ good_border_opacity H) as [t [m [Hm Hr]]].
    exact (opacity_raise "border-" _ (fun _ => eq_refl) t m e Hm Hr).
  - destruct (re_sub_raise _ _ _ _ good_hover_bg_opacity H) as [t [m [Hm Hr]]].
    exact (opacity_raise "hover:bg-" _ (fun _ => eq_refl) t m e Hm Hr).
  - destruct (re_sub_raise _ _ _ _ good_text H) as [t [m [Hm Hr]]].
    exact (text_raise t m e Hm Hr).
  - destruct (re_sub_raise _ _ _ _ good_bg_solid H) as [t [m [Hm Hr]]].
    exact (bg_solid_raise t m e Hm Hr).
  - destruct (re_sub_raise _ _ _ _ good_border H) as [t [m [Hm Hr]]].
    unfold replace_border in Hr.
    destruct (color_in (group (match_of t m) 1) gray_names); discriminate.
  - destruct (re_sub_raise _ _ _ _ good_ring H) as [t [m [Hm Hr]]].
    unfold replace_ring in Hr. discriminate.
Qed.

(** *** Text the script leaves alone *)

Lemma hex_keys_hash (w : str) :
  In w (map fst hex_map) -> exists w', w = (code "#") :: w'.
Proof.
  cbn. intros H. repeat (destruct H as [<- | H]; [eexists; reflexivity | ]).
  contradiction.
Qed.

(** A text without a dash and without a hash sign is returned as it is. *)
Theorem migrate_plain_text (s : str) :
  existsb is_dash s = false -> existsb is_hash s = false ->
  migrate_content int_max_str_digits float_repr s = Return s.
Proof.
  intros Hd Hh. rewrite migrate_content_steps.
  rewrite run_steps_fixed_patterns.
  - cbn [obind]. unfold replace_hex.
    rewrite (hex_loop_fixed hex_map s hex_map_ok); [reflexivity | ].
    intros w Hw. destruct (hex_keys_hash w Hw) as [w' ->].
    apply quiet_lit_without. exists (code "#"), w'. split; [reflexivity | exact Hh].
  - unfold steps.
    repeat (apply Forall_cons;
            [cbn [fst]; split;
             [vm_compute; reflexivity
             | apply (quiet_without is_dash); [vm_compute; reflexivity | exact Hd]]
            | ]).
    apply Forall_nil.
Qed.


(** *** Text without a slash *)

Lemma no_slash_existsb (s : str) :
  forallb no_slash s = true -> existsb (fun a => N.eqb a slash) s = false.
Proof.
  induction s as [| a s IH]; cbn [forallb existsb]; [reflexivity | ].
  intros H. apply andb_prop in H. destruct H as [Ha Hs].
  unfold no_slash in Ha. apply negb_true_iff in Ha. now rewrite Ha, IH.
Qed.

Lemma head_chars_no_slash (h : str) :
  forallb head_char h = true -> forallb no_slash h = true.
Proof.
  induction h as [| a h IH]; cbn [forallb]; [reflexivity | ].
  intros H. apply andb_prop in H. destruct H as [Ha Hh]. rewrite (IH Hh).
  unfold no_slash. apply head_char_not_slash in Ha.
  apply N.eqb_neq in Ha. now rewrite Ha.
Qed.

Lemma run_steps_app (l1 l2 : list (regex * (Match -> outcome str))) (s : str) :
  run_steps (l1 ++ l2) s = (c <~ run_steps l1 s ;; run_steps l2 c).
Proof.
  revert s. induction l1 as [| st l1 IH]; intros s; cbn [run_steps app obind];
    [reflexivity | ].
  destruct (re_sub (fst st) (snd st) s); cbn [obind]; auto.
Qed.

Lemma re_sub_forallb (P : char -> bool) (r : regex) (repl : Match -> outcome str) :
  good_pattern r = true ->
  (forall s m R, In m (rmatch r s []) -> repl (match_of s m) = Return R ->
                 forallb P R = true) ->
  forall s s', forallb P s = true -> re_sub r repl s = Return s' -> forallb P s' = true.
Proof.
  intros G Hr s s' Hs H. unfold re_sub in H.
  rewrite (re_sub_as_scan r repl (good_nonempty r G)) in H.
  apply (scan_forallb P (re_find r repl)) with (s := s) (k := 0); auto.
  intros t R j Hf. unfold re_find in Hf.
  destruct (rmatch r t []) as [| m ms] eqn:E; [discriminate | ].
  injection Hf as Hf _. apply (Hr t m R); [rewrite E; now left | exact Hf].
Qed.

Lemma re_sub_returns (r : regex) (repl : Match -> outcome str) :
  good_pattern r = true ->
  (forall s m, In m (rmatch r s []) -> exists R, repl (match_of s m) = Return R) ->
  forall s, exists s', re_sub r repl s = Return s'.
Proof.
  intros G Hr s. unfold re_sub. rewrite (re_sub_as_scan r repl (good_nonempty r G)).
  apply scan_returns. intros t o j Hf. unfold re_find in Hf.
  destruct (rmatch r t []) as [| m ms] eqn:E; [discriminate | ].
  injection Hf as <- _. apply Hr. rewrite E. now left.
Qed.

Lemma tails_no_slash (kw : string) (grays : list string) (prefix tail : str) :
  forallb (forallb no_slash) (var_tails kw grays) = true ->
  forallb head_char prefix = true -> In tail (var_tails kw grays) ->
  forallb no_slash (prefix ++ tail) = true.
Proof.
  intros Hall Hp Hin. rewrite forallb_app, (head_chars_no_slash _ Hp).
  rewrite forallb_forall in Hall. now rewrite (Hall _ Hin).
Qed.

(** The four solid-colour steps, fed a text without a slash, return one. *)
Lemma solid_steps_no_slash (s s' : str) :
  forallb no_slash s = true -> run_steps (solid_steps int_max_str_digits) s = Return s' ->
  forallb no_slash s' = true.
Proof.
  unfold solid_steps. cbn [run_steps fst snd]. intros Hs H.
  destruct (re_sub text_re _ s) as [e | c4] eqn:E4; [discriminate | ]. cbn [obind] in H.
  destruct (re_sub bg_solid_re _ c4) as [e | c5] eqn:E5; [discriminate | ]. cbn [obind] in H.
  destruct (re_sub border_re _ c5) as [e | c6] eqn:E6; [discriminate | ]. cbn [obind] in H.
  destruct (re_sub ring_re _ c6) as [e | c7] eqn:E7; [discriminate | ]. cbn [obind] in H.
  injection H as <-.
  refine (re_sub_forallb no_slash ring_re _ good_ring _ c6 c7 _ E7).
  { intros t m R Hm Hr. destruct (ring_output t m R Hm Hr) as (p & tl & -> & Hp & Hin).
    apply (tails_no_slash "ring-" [] p tl); auto. }
  refine (re_sub_forallb no_slash border_re _ good_border _ c5 c6 _ E6).
  { intros t m R Hm Hr. pose proof (border_output t m R Hm Hr) as Hin.
    apply (tails_no_slash "border-" ["border"]%string [] R); auto. }
  refine (re_sub_forallb no_slash bg_solid_re _ good_bg_solid _ c4 c5 _ E5).
  { intros t m R Hm Hr. destruct (bg_solid_output t m R Hm Hr) as (p & tl & -> & Hp & Hin).
    apply (tails_no_slash "bg-" ["bg"; "bg-secondary"; "bg-tertiary"]%string p tl); auto. }
  refine (re_sub_forallb no_slash text_re _ good_text _ s c4 Hs E4).
  intros t m R Hm Hr. destruct (text_output t m R Hm Hr) as (p & tl & -> & Hp & Hin).
  apply (tails_no_slash "text-" ["text"; "text-secondary"; "text-muted"]%string p tl); auto.
Qed.


Lemma hex_loop_forallb (P : char -> bool) (l : dict) :
  forallb hex_entry_ok l = true ->
  forallb (fun kv => forallb P (snd kv)) l = true ->
  forall s, forallb P s = true -> forallb P (fold_left hex_step l s) = true.
Proof.
  induction l as [| kv l IH]; cbn [fold_left forallb]; intros Hok Hl s Hs; [exact Hs | ].
  apply andb_prop in Hok. destruct Hok as [Hkv Hok].
  apply andb_prop in Hl. destruct Hl as [Hv Hl].
  destruct (hex_entry_block kv Hkv) as [Hne _].
  apply IH; auto. unfold hex_step, str_replace.
  apply (scan_forallb P (lit_find (fst kv) (snd kv))) with (s := s) (k := 0); auto.
  - intros t R j Hf. destruct (lit_find_inv _ _ _ _ _ Hne Hf) as ([= ->] & _). exact Hv.
  - symmetry. apply (str_replace_as_scan (fst kv) (snd kv) Hne).
Qed.

Lemma solid_steps_good : Forall good_step (solid_steps int_max_str_digits).
Proof.
  unfold solid_steps.
  repeat (apply Forall_cons; [split; cbn [fst snd] | ]); try apply Forall_nil.
  - exact good_text.
  - exact (text_events int_max_str_digits).
  - exact good_bg_solid.
  - exact (bg_solid_events int_max_str_digits).
  - exact good_border.
  - exact border_events.
  - exact good_ring.
  - exact ring_events.
Qed.

Lemma slash_free_opacity_steps (s : str) :
  forallb no_slash s = true ->
  run_steps (firstn 3 (steps int_max_str_digits float_repr)) s = Return s.
Proof.
  intros Hs. apply no_slash_existsb in Hs.
  apply run_steps_fixed_patterns. unfold steps. cbn [firstn].
  repeat (apply Forall_cons;
          [cbn [fst]; split;
           [vm_compute; reflexivity
           | apply (quiet_without (fun a => N.eqb a slash));
             [vm_compute; reflexivity | exact Hs]]
          | ]).
  apply Forall_nil.
Qed.

Lemma slash_free_migrate (s : str) :
  forallb no_slash s = true ->
  migrate_content int_max_str_digits float_repr s =
  (c <~ run_steps (solid_steps int_max_str_digits) s ;; Return (replace_hex c)).
Proof.
  intros Hs. rewrite migrate_content_steps.
  change (steps int_max_str_digits float_repr)
    with (firstn 3 (steps int_max_str_digits float_repr) ++ solid_steps int_max_str_digits).
  rewrite run_steps_app, (slash_free_opacity_steps s Hs). reflexivity.
Qed.

Lemma py_int_unlimited (g : option str) :
  int_max_str_digits = None -> g <> None ->
  exists n, py_int int_max_str_digits g = Return n.
Proof.
  intros Hl Hg. unfold py_int, too_many_digits. rewrite Hl.
  destruct g as [ds |]; [eauto | congruence].
Qed.

Lemma solid_steps_return (s : str) :
  int_max_str_digits = None ->
  exists s', run_steps (solid_steps int_max_str_digits) s = Return s'.
Proof.
  intros Hl. unfold solid_steps. cbn [run_steps fst snd].
  destruct (re_sub_returns text_re (replace_text int_max_str_digits) good_text) with (s := s)
    as [c4 ->].
  { intros t m Hm. unfold replace_text.
    destruct (py_int_unlimited _ Hl (group3_bound text_re t m eq_refl Hm)) as [n ->].
    cbn [obind].
    destruct (color_in _ _); [destruct (800 <=? n)%N; [ | destruct (600 <=? n)%N] | ]; eauto. }
  cbn [obind].
  destruct (re_sub_returns bg_solid_re (replace_bg_solid int_max_str_digits) good_bg_solid)
    with (s := c4) as [c5 ->].
  { intros t m Hm. unfold replace_bg_solid.
    destruct (py_int_unlimited _ Hl (group3_bound bg_solid_re t m eq_refl Hm)) as [n ->].
    cbn [obind].
    destruct (color_in _ _); [destruct (n <=? 100)%N; [ | destruct (n <=? 300)%N] | ]; eauto. }
  cbn [obind].
  destruct (re_sub_returns border_re replace_border good_border) with (s := c5) as [c6 ->].
  { intros t m Hm. unfold replace_border. destruct (color_in _ _); eauto. }
  cbn [obind].
  destruct (re_sub_returns ring_re replace_ring good_ring) with (s := c6) as [c7 ->].
  { intros t m Hm. unfold replace_ring. eauto. }
  cbn [obind]. eauto.
Qed.

(** On a text without a slash the script leaves no hardcoded colour
    class behind: whatever it returns, [count_remaining] finds nothing
    in it; and it does return when the interpreter sets no limit on the
    digits of [int]. *)
Theorem slash_free_text_is_cleaned (s : str) :
  forallb no_slash s = true ->
  (forall s', migrate_content int_max_str_digits float_repr s = Return s' ->
              count_remaining s' = (0, [])) /\
  (int_max_str_digits = None ->
   returns (migrate_content int_max_str_digits float_repr s)).
Proof.
  intros Hs. rewrite (slash_free_migrate s Hs). split.
  - intros s' H.
    destruct (run_steps (solid_steps int_max_str_digits) s) as [e | c] eqn:E;
      cbn [obind] in H; [discriminate | ].
    injection H as <-.
    destruct (run_steps_quiet _ solid_steps_good s c E) as [_ Hall].
    pose proof (solid_steps_no_slash s c Hs E) as Hc.
    assert (Hq : forall r, In r [text_re; bg_solid_re; border_re; ring_re] ->
                           quiet (hit r) (replace_hex c)).
    { intros r Hr. unfold replace_hex. rewrite Forall_forall in Hall.
      cbn [In] in Hr.
      destruct Hr as [<- | [<- | [<- | [<- | []]]]];
        (apply hex_loop_quiet_re; [vm_compute; reflexivity | exact hex_map_ok | ]).
      - apply (Hall (text_re, replace_text int_max_str_digits)). cbn. auto.
      - apply (Hall (bg_solid_re, replace_bg_solid int_max_str_digits)). cbn. auto.
      - apply (Hall (border_re, replace_border)). cbn. auto.
      - apply (Hall (ring_re, replace_ring)). cbn. auto. }
    assert (Hh : forallb no_slash (replace_hex c) = true).
    { apply hex_loop_forallb; [exact hex_map_ok | vm_compute; reflexivity | exact Hc]. }
    unfold count_remaining.
    destruct (re_findall remaining_re (replace_hex c)) as [| m l] eqn:Ef; [reflexivity | ].
    exfalso.
    destruct (remaining_in_quiet_text (replace_hex c)
                (Hq _ (or_introl eq_refl))
                (Hq ring_re ltac:(cbn; auto))
                (Hq bg_solid_re ltac:(cbn; auto))
                (Hq border_re ltac:(cbn; auto)) m)
      as (kw & c0 & d & pre & rest & _ & _ & _ & _ & Es).
    { unfold count_remaining. cbn [snd]. rewrite Ef. now left. }
    rewrite Es, !forallb_app in Hh. cbn in Hh.
    rewrite !andb_false_r in Hh. discriminate.
  - intros Hl. destruct (solid_steps_return s Hl) as [c ->]. cbn [obind].
    eexists. reflexivity.
Qed.

End ScriptExtras.


(** ** What a pass leaves behind *)

Section AfterMigration.
Variable int_max_str_digits : option nat.
Variable float_repr : N -> str.
Hypothesis float_repr_chars : forall n, forallb float_char (float_repr n) = true.

Lemma pattern_quiet_after (r : regex) (s s' : str) :
  In r [bg_opacity_re; border_opacity_re; hover_bg_opacity_re; text_re;
        bg_solid_re; border_re; ring_re] ->
  migrate_content int_max_str_digits float_repr s = Return s' ->
  quiet (hit r) s'.
Proof.
  intros Hr H.
  destruct (migrate_content_quiet int_max_str_digits float_repr float_repr_chars s s' H)
    as [Hall _].
  rewrite Forall_forall in Hall. cbn [In] in Hr.
  destruct Hr as [<- | [<- | [<- | [<- | [<- | [<- | [<- | []]]]]]]].
  - apply (Hall (bg_opacity_re, replace_bg_opacity int_max_str_digits float_repr)).
    cbn. auto.
  - apply (Hall (border_opacity_re, replace_border_opacity int_max_str_digits float_repr)).
    cbn. auto.
  - apply (Hall (hover_bg_opacity_re,
                 replace_hover_bg_opacity int_max_str_digits float_repr)).
    cbn. auto.
  - apply (Hall (text_re, replace_text int_max_str_digits)). cbn. auto 6.
  - apply (Hall (bg_solid_re, replace_bg_solid int_max_str_digits)). cbn. auto 6.
  - apply (Hall (border_re, replace_border)). cbn. auto 7.
  - apply (Hall (ring_re, replace_ring)). cbn. auto 8.
Qed.

(** In the text [migrate_content] returns, none of its seven patterns
    matches at any position and none of the hex colours of [hex_map]
    occurs; this for every text over Unicode code points and every
    table of decimal digits. *)
Theorem migrate_output_has_no_match (s s' : str) :
  migrate_content int_max_str_digits float_repr s = Return s' ->
  (forall r, In r [bg_opacity_re; border_opacity_re; hover_bg_opacity_re; text_re;
                   bg_solid_re; border_re; ring_re] ->
             forall pre t, s' = pre ++ t -> rmatch r t [] = []) /\
  (forall w, In w (dict_keys hex_map) ->
             forall pre t, s' = pre ++ w ++ t -> False).
Proof.
  intros H. split.
  - intros r Hr pre t E.
    pose proof (pattern_quiet_after r s s' Hr H t (ex_intro _ pre E)) as Hq.
    unfold hit in Hq. destruct (rmatch r t []); [reflexivity | discriminate].
  - intros w Hw pre t E.
    destruct (migrate_content_quiet int_max_str_digits float_repr float_repr_chars s s' H)
      as [_ Hhex].
    pose proof (Hhex w Hw (w ++ t) (ex_intro _ pre E)) as Hq.
    unfold starts_with in Hq. rewrite strip_app in Hq. discriminate.
Qed.

(** What [count_remaining] finds after a pass: only [bg-] and [border-]
    tokens with a single digit (a decimal digit of any script) and a
    slash behind them, never a [text-] or [ring-] token. *)
Theorem remaining_after_migrate (s s' : str) :
  migrate_content int_max_str_digits float_repr s = Return s' ->
  forall m, In m (snd (count_remaining s')) ->
    exists kw c d pre rest,
      In kw [lit "bg"; lit "border"] /\ In c ALL_COLORS_PLUS_GRAY /\
      is_digit d = true /\
      m = kw ++ lit "-" ++ c ++ lit "-" ++ [d] /\
      s' = pre ++ m ++ slash :: rest.
Proof.
  intros H. apply remaining_in_quiet_text;
    apply (fun r Hr => pattern_quiet_after r s s' Hr H); cbn; auto 8.
Qed.

(** The third step never finds a match: after the first two steps no
    [hover:bg-COLOR-NUM/OPACITY] token is left, the first step has
    rewritten its [bg-] part. *)
Theorem hover_step_is_idle (s c1 c2 : str) :
  re_sub bg_opacity_re (replace_bg_opacity int_max_str_digits float_repr) s = Return c1 ->
  re_sub border_opacity_re (replace_border_opacity int_max_str_digits float_repr) c1
    = Return c2 ->
  re_sub hover_bg_opacity_re (replace_hover_bg_opacity int_max_str_digits float_repr) c2
    = Return c2.
Proof.
  intros E1 E2.
  pose proof (bg_opacity_events int_max_str_digits float_repr float_repr_chars) as Ev1.
  pose proof (border_opacity_events int_max_str_digits float_repr float_repr_chars) as Ev2.
  assert (Q1 : quiet (hit bg_opacity_re) c1).
  { apply (re_step_quiet bg_opacity_re _ bg_opacity_re s c1 good_bg_opacity Ev1
             good_bg_opacity (or_introl eq_refl) E1). }
  assert (Q2 : quiet (hit bg_opacity_re) c2).
  { apply (re_step_quiet border_opacity_re _ bg_opacity_re c1 c2 good_border_opacity Ev2
             good_bg_opacity (or_intror Q1) E2). }
  apply re_sub_quiet; [exact good_hover_bg_opacity | ].
  intros t [p Et].
  destruct (hit hover_bg_opacity_re t) eqn:Eh; [exfalso | reflexivity].
  apply hit_true in Eh. destruct Eh as [u [s' [Eu L]]].
  unfold hover_bg_opacity_re, opacity_pattern in L. cbn [lang] in L.
  destruct L as (u1 & u2 & -> & -> & L).
  assert (Hb : hit bg_opacity_re (lit "bg-" ++ u2 ++ s') = true).
  { apply hit_true. exists (lit "bg-" ++ u2), s'. split; [now rewrite <- app_assoc | ].
    unfold bg_opacity_re, opacity_pattern. cbn [lang].
    exists (lit "bg-"), u2. auto. }
  rewrite (Q2 (lit "bg-" ++ u2 ++ s')) in Hb; [discriminate | ].
  exists (p ++ lit "hover:"). rewrite Et, Eu. rewrite <- !app_assoc. reflexivity.
Qed.

End AfterMigration.


(** ** The tables and the order of the alternation *)

Lemma insert_by_len_perm (x : str) (l : list str) :
  Permutation (x :: l) (insert_by_len x l).
Proof.
  induction l as [| y t IH]; cbn [insert_by_len]; [reflexivity | ].
  destruct (List.length y <? List.length x); [reflexivity | ].
  rewrite perm_swap. now constructor.
Qed.

Lemma insert_by_len_sorted (x : str) (l : list str) :
  StronglySorted longer_first l -> StronglySorted longer_first (insert_by_len x l).
Proof.
  induction 1 as [| y t Ht IH Hy]; cbn [insert_by_len].
  - constructor; constructor.
  - destruct (List.length y <? List.length x) eqn:E.
    + apply Nat.ltb_lt in E. constructor; [now constructor | ].
      constructor; [unfold longer_first; lia | ].
      rewrite Forall_forall in *. intros z Hz. specialize (Hy z Hz).
      unfold longer_first in *. lia.
    + apply Nat.ltb_ge in E. constructor; [exact IH | ].
      rewrite Forall_forall in *. intros z Hz.
      apply (Permutation_in _ (Permutation_sym (insert_by_len_perm x t))) in Hz.
      destruct Hz as [<- | Hz]; [exact E | now apply Hy].
Qed.

Lemma fold_insert_spec (l acc : list str) :
  StronglySorted longer_first acc ->
  Permutation (l ++ acc) (fold_left (fun a x => insert_by_len x a) l acc) /\
  StronglySorted longer_first (fold_left (fun a x => insert_by_len x a) l acc).
Proof.
  revert acc. induction l as [| x l IH]; intros acc Hacc; cbn [fold_left app].
  - split; [reflexivity | exact Hacc].
  - destruct (IH (insert_by_len x acc) (insert_by_len_sorted x acc Hacc)) as [Hp Hs].
    split; [ | exact Hs].
    rewrite <- Hp. rewrite <- (insert_by_len_perm x acc).
    apply Permutation_middle.
Qed.

(** [sorted(..., key=len, reverse=True)] returns the same names, a
    longer one never behind a shorter one. *)
Theorem sorted_by_len_desc_spec (l : list str) :
  Permutation l (sorted_by_len_desc l) /\
  StronglySorted longer_first (sorted_by_len_desc l).
Proof.
  unfold sorted_by_len_desc.
  destruct (fold_insert_spec l [] (SSorted_nil _)) as [Hp Hs].
  rewrite app_nil_r in Hp. auto.
Qed.

Lemma str_eqb_eq (a b : str) : str_eqb a b = true <-> a = b.
Proof.
  unfold str_eqb. destruct (list_eq_dec N.eq_dec a b); split; congruence.
Qed.

Lemma dict_get_none (k : str) (d : dict) :
  ~ In k (dict_keys d) -> dict_get k d = None.
Proof.
  induction d as [| [k' v'] d IH]; cbn; [reflexivity | ].
  intros H. destruct (str_eqb k k') eqn:E.
  - apply str_eqb_eq in E. subst. tauto.
  - apply IH. tauto.
Qed.

(** [get_semantic] answers with one of five names, and with [info] for
    every name that is not a key of [COLOR_SEMANTIC]. *)
Theorem get_semantic_range :
  (forall color, In (get_semantic color) semantic_names) /\
  (forall color, ~ In color (dict_keys COLOR_SEMANTIC) ->
                 get_semantic color = lit "info").
Proof.
  split.
  - intros color. exact (semantic_of_names (Some color)).
  - intros color H. unfold get_semantic. now rewrite (dict_get_none _ _ H).
Qed.

(** The colour group of a pattern is bound, to a name of the alternation. *)
Lemma group_color (r : regex) (k : nat) (s : str) (m : str * caps) :
  binds (S k) r = true ->
  groups_in (fun n v => n = S k -> In v ALL_COLORS_PLUS_GRAY) r ->
  In m (rmatch r s []) ->
  exists c, group (match_of s m) (S k) = Some c /\ In c ALL_COLORS_PLUS_GRAY.
Proof.
  destruct m as [s' c']. intros B G Hin. unfold group, match_of. cbn [m_caps snd].
  pose proof (caps_bound (S k) r B _ _ _ _ Hin) as Hb.
  destruct (caps_get (S k) c') as [c |] eqn:E; [ | congruence].
  exists c. split; [reflexivity | ].
  assert (C0 : forall n v, caps_get n [] = Some v -> n = S k -> In v ALL_COLORS_PLUS_GRAY)
    by (intros n v; cbn; discriminate).
  exact (caps_sound _ r G s [] s' c' C0 Hin (S k) c E eq_refl).
Qed.

Ltac colour_groups :=
  unfold text_re, bg_solid_re, border_re, ring_re, prefix_group;
  cbn [groups_in];
  repeat split; try (intros; discriminate); try apply groups_in_alternation;
  intros u t L _; now apply lang_alternation in L.

Lemma colour_split (c : str) :
  In c ALL_COLORS_PLUS_GRAY ->
  (color_in (Some c) gray_names = true /\
   color_in (Some c) (dict_keys COLOR_SEMANTIC) = false) \/
  (color_in (Some c) gray_names = false /\
   color_in (Some c) (dict_keys COLOR_SEMANTIC) = true /\
   exists v, dict_get c COLOR_SEMANTIC = Some v).
Proof.
  assert (H : forallb (fun c =>
                (color_in (Some c) gray_names &&
                 negb (color_in (Some c) (dict_keys COLOR_SEMANTIC))) ||
                (negb (color_in (Some c) gray_names) &&
                 color_in (Some c) (dict_keys COLOR_SEMANTIC) &&
                 match dict_get c COLOR_SEMANTIC with Some _ => true | None => false end))
              ALL_COLORS_PLUS_GRAY = true) by (vm_compute; reflexivity).
  rewrite forallb_forall in H. intros Hc. specialize (H c Hc).
  destruct (color_in (Some c) gray_names), (color_in (Some c) (dict_keys COLOR_SEMANTIC));
    cbn [andb orb negb] in H; try discriminate; [now left | right].
  destruct (dict_get c COLOR_SEMANTIC); [eauto | discriminate].
Qed.

(** The default of [get_semantic] is never used by the helpers: on a
    match, a colour that is not gray or slate is a key of
    [COLOR_SEMANTIC]; and [replace_ring] takes its [accent] branch for
    gray and slate only. *)
Theorem semantic_default_unreachable :
  (forall s m,
     In m (rmatch text_re s []) ->
     color_in (group (match_of s m) 2) gray_names = false ->
     exists c v, group (match_of s m) 2 = Some c /\ dict_get c COLOR_SEMANTIC = Some v) /\
  (forall s m,
     In m (rmatch bg_solid_re s []) ->
     color_in (group (match_of s m) 2) gray_names = false ->
     exists c v, group (match_of s m) 2 = Some c /\ dict_get c COLOR_SEMANTIC = Some v) /\
  (forall s m,
     In m (rmatch border_re s []) ->
     color_in (group (match_of s m) 1) gray_names = false ->
     exists c v, group (match_of s m) 1 = Some c /\ dict_get c COLOR_SEMANTIC = Some v) /\
  (forall s m,
     In m (rmatch ring_re s []) ->
     color_in (group (match_of s m) 2) (dict_keys COLOR_SEMANTIC) = false ->
     color_in (group (match_of s m) 2) gray_names = true).
Proof.
  split; [ | split; [ | split]]; intros s m Hin Hg.
  - destruct (group_color text_re 1 s m eq_refl ltac:(colour_groups) Hin)
      as [c [Hc Hall]]. rewrite Hc in *.
    destruct (colour_split c Hall) as [[H1 _] | [_ [_ [v Hv]]]]; [congruence | eauto].
  - destruct (group_color bg_solid_re 1 s m eq_refl ltac:(colour_groups) Hin)
      as [c [Hc Hall]]. rewrite Hc in *.
    destruct (colour_split c Hall) as [[H1 _] | [_ [_ [v Hv]]]]; [congruence | eauto].
  - destruct (group_color border_re 0 s m eq_refl ltac:(colour_groups) Hin)
      as [c [Hc Hall]]. rewrite Hc in *.
    destruct (colour_split c Hall) as [[H1 _] | [_ [_ [v Hv]]]]; [congruence | eauto].
  - destruct (group_color ring_re 1 s m eq_refl ltac:(colour_groups) Hin)
      as [c [Hc Hall]]. rewrite Hc in *.
    destruct (colour_split c Hall) as [[H1 _] | [_ [H2 _]]]; [exact H1 | congruence].
Qed.


(** ** The loop of [main] *)

Section MainLoop.
Variable int_max_str_digits : option nat.
Variable float_repr : N -> str.
Hypothesis float_repr_chars : forall n, forallb float_char (float_repr n) = true.

Lemma migrate_twice (s s' : str) :
  migrate_content int_max_str_digits float_repr s = Return s' ->
  migrate_content int_max_str_digits float_repr s' = Return s'.
Proof.
  intros H.
  destruct (migrate_content_quiet int_max_str_digits float_repr float_repr_chars s s' H)
    as [Hre Hhex].
  exact (migrate_content_fixed int_max_str_digits float_repr float_repr_chars s' Hre Hhex).
Qed.

Lemma str_eqb_refl (a : str) : str_eqb a a = true.
Proof. now apply str_eqb_eq. Qed.

Lemma write_file_same (f : string -> str) (p : string) (c : str) :
  write_file f p c p = c.
Proof. unfold write_file. now rewrite String.eqb_refl. Qed.

Lemma write_file_other (f : string -> str) (p q : string) (c : str) :
  q <> p -> write_file f p c q = f q.
Proof. intros H. unfold write_file. apply String.eqb_neq in H. now rewrite H. Qed.

(** One turn of the loop, when [migrate_content] returns. *)
Lemma loop_turn (filepath : string) (rest : list string) (st : run_state) (c : str) :
  migrate_content int_max_str_digits float_repr (fs st filepath) = Return c ->
  exists st',
    migrate_files int_max_str_digits float_repr (filepath :: rest) st =
    migrate_files int_max_str_digits float_repr rest st' /\
    fs st' filepath = c /\ (forall q, q <> filepath -> fs st' q = fs st q) /\
    total_files st' = total_files st + 1 /\
    ((c = fs st filepath /\ modified st' = modified st /\ report st' = report st) \/
     (c <> fs st filepath /\ modified st' = modified st + 1 /\
      List.length (report st') = List.length (report st) + 1)).
Proof.
  intros H. cbn [migrate_files]. rewrite H.
  destruct (str_eqb c (fs st filepath)) eqn:E.
  - apply str_eqb_eq in E. eexists. split; [reflexivity | ]. cbn.
    repeat split; auto.
  - eexists. split; [reflexivity | ]. cbn [fs modified total_files report].
    split; [apply write_file_same | ].
    split; [intros q Hq; now apply write_file_other | ].
    split; [reflexivity | ]. right.
    split; [intros ->; rewrite str_eqb_refl in E; discriminate | ].
    split; [reflexivity | ]. rewrite length_app. reflexivity.
Qed.

Lemma loop_contents (files : list string) (st st1 : run_state) :
  migrate_files int_max_str_digits float_repr files st = (st1, None) ->
  forall p,
    (In p files ->
     migrate_content int_max_str_digits float_repr (fs st p) = Return (fs st1 p)) /\
    (~ In p files -> fs st1 p = fs st p).
Proof.
  revert st. induction files as [| f rest IH]; intros st H p.
  - cbn in H. injection H as <-. split; [intros [] | reflexivity].
  - destruct (migrate_content int_max_str_digits float_repr (fs st f)) as [e | c] eqn:Ef.
    { cbn [migrate_files] in H. rewrite Ef in H. discriminate. }
    destruct (loop_turn f rest st c Ef) as (st' & Hrun & Hf & Hother & _).
    rewrite Hrun in H. destruct (IH st' H p) as [Hin Hout].
    assert (Hfix : migrate_content int_max_str_digits float_repr (fs st' f) =
                   Return (fs st' f)) by (rewrite Hf; exact (migrate_twice _ _ Ef)).
    destruct (in_dec string_dec p rest) as [Hr | Hr].
    + split; [intros _ | intros Hn; exfalso; apply Hn; now right].
      destruct (string_dec p f) as [-> | Hpf].
      * rewrite Ef. rewrite <- (Hin Hr). rewrite Hfix. now rewrite Hf.
      * rewrite <- (Hother p Hpf). exact (Hin Hr).
    + split.
      * intros [<- | Hp]; [ | contradiction]. rewrite (Hout Hr), Hf. exact Ef.
      * intros Hn. rewrite (Hout Hr). apply Hother. intros ->. apply Hn. now left.
Qed.

(** After a loop that ran to its end, every listed file holds the
    migration of what it held before, and every other file is as it
    was. *)
Theorem loop_writes_migrations (files : list string) (st st1 : run_state) :
  migrate_files int_max_str_digits float_repr files st = (st1, None) ->
  forall p,
    (In p files ->
     migrate_content int_max_str_digits float_repr (fs st p) = Return (fs st1 p)) /\
    (~ In p files -> fs st1 p = fs st p).
Proof. exact (loop_contents files st st1). Qed.

Lemma idle_loop (files : list string) (st : run_state) :
  (forall p, In p files ->
     migrate_content int_max_str_digits float_repr (fs st p) = Return (fs st p)) ->
  migrate_files int_max_str_digits float_repr files st =
  ({| fs := fs st; modified := modified st;
      total_files := total_files st + List.length files; report := report st |}, None).
Proof.
  revert st. induction files as [| f rest IH]; intros st H.
  - cbn. rewrite Nat.add_0_r. now destruct st.
  - cbn [migrate_files]. rewrite (H f (or_introl eq_refl)), str_eqb_refl.
    rewrite IH; cbn [fs modified total_files report List.length].
    + do 2 f_equal. lia.
    + intros p Hp. apply H. now right.
Qed.

(** Running the loop again on the files it has migrated changes no
    file and counts no modification. *)
Theorem second_run_is_idle (files : list string) (st st1 : run_state) :
  migrate_files int_max_str_digits float_repr files st = (st1, None) ->
  migrate_files int_max_str_digits float_repr files
    {| fs := fs st1; modified := 0; total_files := 0; report := [] |} =
  ({| fs := fs st1; modified := 0; total_files := List.length files; report := [] |},
   None).
Proof.
  intros H. rewrite idle_loop; [reflexivity | ].
  cbn [fs]. intros p Hp.
  destruct (loop_contents files st st1 H p) as [Hin _].
  exact (migrate_twice _ _ (Hin Hp)).
Qed.

End MainLoop.

(** The counters of the loop: every file gone through is counted, a
    modified file is counted once more and has one report line; when no
    exception ends the loop, all files are counted. *)
Theorem loop_counters (imsd : option nat) (fr : N -> str) (files : list string) :
  forall st st1 o,
    migrate_files imsd fr files st = (st1, o) ->
    total_files st <= total_files st1 <= total_files st + List.length files /\
    modified st <= modified st1 /\
    modified st1 - modified st <= total_files st1 - total_files st /\
    List.length (report st1) = List.length (report st) + (modified st1 - modified st) /\
    (o = None -> total_files st1 = total_files st + List.length files).
Proof.
  induction files as [| f rest IH]; intros st st1 o H.
  - cbn in H. injection H as <- <-. cbn. repeat split; auto; lia.
  - cbn [migrate_files] in H.
    destruct (migrate_content imsd fr (fs st f)) as [e | c] eqn:Ef.
    { injection H as <- <-. cbn [List.length]. repeat split; try lia. discriminate. }
    destruct (str_eqb c (fs st f)); apply IH in H;
      cbn [fs modified total_files report List.length] in *;
      rewrite ?length_app in *; cbn [List.length] in *;
      destruct H as (H1 & H2 & H3 & H4 & H5); repeat split; try lia;
      intros Ho; specialize (H5 Ho); lia.
Qed.

End WithUnicode.

#[local] Existing Instance two_scripts.


(** ** Examples *)

Example migrate_sample :
  migrate_content (Some 4300) short_repr sample_classes =
  Return (lit ("bg-[rgba(239, 68, 68,0.5)] hover:text-[var(--color-text-secondary)] "
               ++ "border-[var(--color-info)] var(--color-text) bg-sky-5/")).
Proof. vm_compute. reflexivity. Qed.

(** [\d+(?!/)] gives a digit back before a slash, and a hex colour is
    replaced where an earlier step completed it. *)
Example migrate_backtracking :
  migrate_content (Some 4300) short_repr (lit "bg-red-500/ #d1d5dbg-red-500 bg-blue-7/5") =
  Return (lit ("bg-[var(--color-negative)]0/ var(--color-border)g-[var(--color-negative)] "
               ++ "bg-[rgba(59, 130, 246,0.05)]")).
Proof. vm_compute. reflexivity. Qed.

(** An opacity of 321 digits: the division raises, before any lookup. *)
Example migrate_long_opacity :
  migrate_content (Some 4300) short_repr long_opacity_text =
  Raise (mkExc "OverflowError" "integer division result too large for a float").
Proof. vm_compute. reflexivity. Qed.

(** A shade of 641 digits under a limit of 640: [int] raises. *)
Example migrate_digit_limit :
  migrate_content (Some 640) short_repr long_shade_text =
  Raise (mkExc "ValueError"
           ("Exceeds the limit (640 digits) for integer string conversion: "
            ++ "value has 641 digits; use sys.set_int_max_str_digits() to increase the limit")).
Proof. vm_compute. reflexivity. Qed.

(** Numbers written in Arabic-Indic digits are matched by [\d+] and
    read by [int] like any others; a second pass leaves the result as
    it is. *)
Example migrate_arabic_indic :
  migrate_content None short_repr arabic_indic_classes =
  Return (lit "text-[var(--color-negative)] bg-[rgba(59, 130, 246,0.5)]").
Proof. vm_compute. reflexivity. Qed.

Example migrate_arabic_indic_twice :
  (c <~ migrate_content None short_repr arabic_indic_classes ;;
   migrate_content None short_repr c) =
  Return (lit "text-[var(--color-negative)] bg-[rgba(59, 130, 246,0.5)]").
Proof. vm_compute. reflexivity. Qed.

Lemma migrate_content_idempotent_witness :
  (forall n, forallb float_char (short_repr n) = true) /\
  (c <~ migrate_content (Some 4300) short_repr sample_classes ;;
   migrate_content (Some 4300) short_repr c) =
  migrate_content (Some 4300) short_repr sample_classes.
Proof.
  split; [exact short_repr_chars | ].
  apply (migrate_content_idempotent (Some 4300) short_repr short_repr_chars).
Defined.

Lemma opacity_fallback_unreachable_witness :
  In (first_match bg_opacity_re sample_classes) (rmatch bg_opacity_re sample_classes []) /\
  exists rgba,
    rgba_of (group (match_of sample_classes
                      (first_match bg_opacity_re sample_classes)) 1) = Some rgba /\
    replace_bg_opacity (Some 4300) short_repr
      (match_of sample_classes (first_match bg_opacity_re sample_classes)) =
      (n <~ py_int (Some 4300)
              (group (match_of sample_classes
                        (first_match bg_opacity_re sample_classes)) 3) ;;
       opacity <~ div100_text short_repr n ;;
       Return (lit "bg-" ++ lit "[rgba(" ++ rgba ++ lit "," ++ opacity ++ lit ")]")).
Proof.
  assert (Hin : In (first_match bg_opacity_re sample_classes)
                   (rmatch bg_opacity_re sample_classes []))
    by (vm_compute; left; reflexivity).
  split; [exact Hin | ].
  destruct (opacity_fallback_unreachable (Some 4300) short_repr) as [_ [H _]].
  exact (H sample_classes _ Hin).
Defined.


(** ** Instances *)

Example count_remaining_sample :
  count_remaining sample_output = (1, [lit "bg-sky-5"]).
Proof. vm_compute. reflexivity. Qed.

Lemma migrate_output_has_no_match_witness :
  (forall n, forallb float_char (short_repr n) = true) /\
  migrate_content (Some 4300) short_repr sample_classes = Return sample_output /\
  (forall r, In r [bg_opacity_re; border_opacity_re; hover_bg_opacity_re; text_re;
                   bg_solid_re; border_re; ring_re] ->
             forall pre t, sample_output = pre ++ t -> rmatch r t [] = []) /\
  (forall w, In w (dict_keys hex_map) ->
             forall pre t, sample_output = pre ++ w ++ t -> False).
Proof.
  assert (H : migrate_content (Some 4300) short_repr sample_classes = Return sample_output)
    by (vm_compute; reflexivity).
  split; [exact short_repr_chars | split; [exact H | ]].
  exact (migrate_output_has_no_match (Some 4300) short_repr short_repr_chars
           sample_classes sample_output H).
Defined.

Lemma remaining_after_migrate_witness :
  (forall n, forallb float_char (short_repr n) = true) /\
  migrate_content (Some 4300) short_repr sample_classes = Return sample_output /\
  In (lit "bg-sky-5") (snd (count_remaining sample_output)) /\
  exists kw c d pre rest,
    In kw [lit "bg"; lit "border"] /\ In c ALL_COLORS_PLUS_GRAY /\
    is_digit d = true /\
    lit "bg-sky-5" = kw ++ lit "-" ++ c ++ lit "-" ++ [d] /\
    sample_output = pre ++ lit "bg-sky-5" ++ slash :: rest.
Proof.
  assert (H : migrate_content (Some 4300) short_repr sample_classes = Return sample_output)
    by (vm_compute; reflexivity).
  assert (Hin : In (lit "bg-sky-5") (snd (count_remaining sample_output)))
    by (vm_compute; left; reflexivity).
  split; [exact short_repr_chars | split; [exact H | split; [exact Hin | ]]].
  exact (remaining_after_migrate (Some 4300) short_repr short_repr_chars
           sample_classes sample_output H (lit "bg-sky-5") Hin).
Defined.

Lemma hover_step_is_idle_witness :
  let c1 := lit "hover:bg-[rgba(239, 68, 68,0.5)] border-gray-200/5" in
  let c2 := lit "hover:bg-[rgba(239, 68, 68,0.5)] border-[rgba(107, 114, 128,0.05)]" in
  (forall n, forallb float_char (short_repr n) = true) /\
  re_sub bg_opacity_re (replace_bg_opacity (Some 4300) short_repr) hover_sample = Return c1 /\
  re_sub border_opacity_re (replace_border_opacity (Some 4300) short_repr) c1 = Return c2 /\
  re_sub hover_bg_opacity_re (replace_hover_bg_opacity (Some 4300) short_repr) c2 = Return c2.
Proof.
  intros c1 c2.
  assert (H1 : re_sub bg_opacity_re (replace_bg_opacity (Some 4300) short_repr) hover_sample
               = Return c1) by (vm_compute; reflexivity).
  assert (H2 : re_sub border_opacity_re (replace_border_opacity (Some 4300) short_repr) c1
               = Return c2) by (vm_compute; reflexivity).
  split; [exact short_repr_chars | split; [exact H1 | split; [exact H2 | ]]].
  exact (hover_step_is_idle (Some 4300) short_repr short_repr_chars hover_sample c1 c2 H1 H2).
Defined.

Lemma migrate_raises_only_witness :
  let e := mkExc "OverflowError" "integer division result too large for a float" in
  migrate_content (Some 4300) short_repr long_opacity_text = Raise e /\
  (exc_class e = "OverflowError"%string \/
   (exc_class e = "ValueError"%string /\ Some 4300 <> None)).
Proof.
  intros e.
  assert (H : migrate_content (Some 4300) short_repr long_opacity_text = Raise e)
    by (vm_compute; reflexivity).
  split; [exact H | ].
  exact (migrate_raises_only (Some 4300) short_repr long_opacity_text e H).
Defined.

Lemma migrate_plain_text_witness :
  existsb is_dash plain_sample = false /\ existsb is_hash plain_sample = false /\
  migrate_content (Some 4300) short_repr plain_sample = Return plain_sample.
Proof.
  split; [reflexivity | split; [reflexivity | ]].
  apply (migrate_plain_text (Some 4300) short_repr plain_sample); reflexivity.
Defined.

Lemma slash_free_text_is_cleaned_witness :
  forallb no_slash slash_free_sample = true /\
  (forall s', migrate_content None short_repr slash_free_sample = Return s' ->
              count_remaining s' = (0, [])) /\
  ((None : option nat) = None ->
   returns (migrate_content None short_repr slash_free_sample)).
Proof.
  split; [reflexivity | ].
  apply (slash_free_text_is_cleaned None short_repr slash_free_sample). reflexivity.
Defined.

Lemma solid_helpers_vocabulary_witness :
  let s := lit "hover:text-gray-700 flex" in
  let m := first_match text_re s in
  let R := lit "hover:text-[var(--color-text-secondary)]" in
  In m (rmatch text_re s []) /\
  replace_text (Some 4300) (match_of s m) = Return R /\
  exists prefix token tail,
    m_whole (match_of s m) = prefix ++ lit "text-" ++ token /\
    In prefix (map lit [""; "hover:"; "dark:"; "focus:"]%string) /\
    R = prefix ++ tail /\
    In tail (var_tails "text-" ["text"; "text-secondary"; "text-muted"]%string).
Proof.
  intros s m R.
  assert (Hin : In m (rmatch text_re s [])) by (vm_compute; left; reflexivity).
  assert (Ho : replace_text (Some 4300) (match_of s m) = Return R)
    by (vm_compute; reflexivity).
  split; [exact Hin | split; [exact Ho | ]].
  destruct (solid_helpers_vocabulary (Some 4300)) as [H _].
  exact (H s m R Hin Ho).
Defined.

Lemma sample_loop_runs :
  migrate_files (Some 4300) short_repr sample_files sample_state =
  (fst (migrate_files (Some 4300) short_repr sample_files sample_state), None).
Proof. vm_compute. reflexivity. Qed.

Lemma loop_writes_migrations_witness :
  let st1 := fst (migrate_files (Some 4300) short_repr sample_files sample_state) in
  (forall n, forallb float_char (short_repr n) = true) /\
  migrate_files (Some 4300) short_repr sample_files sample_state = (st1, None) /\
  forall p,
    (In p sample_files ->
     migrate_content (Some 4300) short_repr (fs sample_state p) = Return (fs st1 p)) /\
    (~ In p sample_files -> fs st1 p = fs sample_state p).
Proof.
  intros st1.
  split; [exact short_repr_chars | split; [exact sample_loop_runs | ]].
  exact (loop_writes_migrations (Some 4300) short_repr short_repr_chars
           sample_files sample_state st1 sample_loop_runs).
Defined.

Lemma second_run_is_idle_witness :
  let st1 := fst (migrate_files (Some 4300) short_repr sample_files sample_state) in
  (forall n, forallb float_char (short_repr n) = true) /\
  migrate_files (Some 4300) short_repr sample_files sample_state = (st1, None) /\
  migrate_files (Some 4300) short_repr sample_files
    {| fs := fs st1; modified := 0; total_files := 0; report := [] |} =
  ({| fs := fs st1; modified := 0; total_files := List.length sample_files; report := [] |},
   None).
Proof.
  intros st1.
  split; [exact short_repr_chars | split; [exact sample_loop_runs | ]].
  exact (second_run_is_idle (Some 4300) short_repr short_repr_chars
           sample_files sample_state st1 sample_loop_runs).
Defined.

Lemma loop_counters_witness :
  let st1 := fst (migrate_files (Some 4300) short_repr sample_files sample_state) in
  migrate_files (Some 4300) short_repr sample_files sample_state = (st1, None) /\
  total_files sample_state <= total_files st1
    <= total_files sample_state + List.length sample_files /\
  modified sample_state <= modified st1 /\
  modified st1 - modified sample_state <= total_files st1 - total_files sample_state /\
  List.length (report st1) =
    List.length (report sample_state) + (modified st1 - modified sample_state) /\
  ((None : option PyExc) = None ->
   total_files st1 = total_files sample_state + List.length sample_files).
Proof.
  intros st1. split; [exact sample_loop_runs | ].
  exact (loop_counters (Some 4300) short_repr sample_files sample_state st1 None
           sample_loop_runs).
Defined.

Example sample_loop_counts :
  let st1 := fst (migrate_files (Some 4300) short_repr sample_files sample_state) in
  modified st1 = 1 /\ total_files st1 = 3 /\
  report st1 = [("Card.tsx"%string, 1, [lit "bg-sky-5"])].
Proof. vm_compute. auto. Qed.

End MigrateFacts.
